(** * Ralphy: a shallow embedding of the parallel-agent orchestrator

    This development models, from the sources of the repository,
    - [src/cli/src/execution/retry.ts]: [calculateBackoffDelay],
      [withRetry] and [isRetryableError];
    - [src/cli/src/tasks/markdown.ts]: [MarkdownTaskSource.markComplete]
      and [countCompleted];
    - [src/ralphy.sh]: [run_parallel_agent], the batch loop, the group
      integration step and the final reconciliation of [run_parallel_tasks],
      and [cleanup_agent_worktree].

    JavaScript strings are lists of UTF-16 code units, and the text the
    shell script's tools handle is a list of bytes.  JavaScript numbers
    are modelled as exact rationals ([Q]), so rounding of IEEE doubles is
    not modelled; [Math.random()] is an explicit input
    in [0, 1).  Git and the external agent CLIs are modelled as small
    oracles (which merges conflict, whether the agent resolves a
    conflict); every command the shell script runs on the repository is
    recorded in an explicit command log. *)

From Stdlib Require Import NArith ZArith QArith Qround Qpower Qminmax Lia Lqa.
From Stdlib Require Import List Bool Ascii String.
From Stdlib Require DecimalNat.
Import ListNotations.

Open Scope Z_scope.

(* ================================================================= *)
(** ** retry.ts *)

Module Retry.

(** [calculateBackoffDelay(attempt, baseDelayMs, maxDelayMs, useJitter)];
    [random] is the value returned by [Math.random()]. *)
Definition calculateBackoffDelay (attempt : Z) (baseDelayMs maxDelayMs : Q)
    (useJitter : bool) (random : Q) : Z :=
  (* Exponential backoff: baseDelay * 2^(attempt-1) *)
  let delay := (baseDelayMs * Qpower (2 # 1) (attempt - 1))%Q in
  (* Cap at maximum delay *)
  let delay := Qmin delay maxDelayMs in
  (* Add jitter (0-25% of delay) *)
  let delay := if useJitter then (delay + delay * (1 # 4) * random)%Q else delay in
  Qfloor delay.

(** A thrown JavaScript value: an [Error] instance with its [message], or
    any other value, given by its [String(...)] rendering. *)
Inductive thrown :=
| JsError (message : string)
| JsValue (rendered : string).

(** [error instanceof Error ? error : new Error(String(error))] *)
Definition toError (t : thrown) : thrown :=
  match t with
  | JsError m => JsError m
  | JsValue s => JsError s
  end.

Definition message (t : thrown) : string :=
  match t with
  | JsError m => m
  | JsValue s => s
  end.

(** Outcome of one invocation of the wrapped [fn]. *)
Inductive outcome (A : Type) :=
| Resolve (v : A)
| Reject (e : thrown).
Arguments Resolve {A} v.
Arguments Reject {A} e.

(** Observable effects of [withRetry]: invocations of [fn], calls of the
    [onRetry] callback and backoff sleeps. *)
Inductive event :=
| Invoke (attempt : Z)
| OnRetry (attempt : Z) (msg : string) (nextDelayMs : Q)
| Sleep (ms : Q).

Inductive result (A : Type) :=
| Returned (v : A)
| Threw (e : thrown).
Arguments Returned {A} v.
Arguments Threw {A} e.

Record RetryOptions := {
  maxRetries : Z;
  retryDelay : Q;                  (* base delay in seconds *)
  onRetry : bool;                  (* whether a callback is given *)
  exponentialBackoff : option bool;
  maxDelay : option Q;
  jitter : option bool
}.

Section WithRetry.
Context {A : Type}.
(** [fn attempt] is the outcome of the invocation made at [attempt]
    (the wrapped function is invoked exactly once per attempt). *)
Variable fn : Z -> outcome A.
(** [random attempt] is the [Math.random()] draw of that attempt. *)
Variable random : Z -> Q.
Variable options : RetryOptions.

Definition opt_exponentialBackoff : bool :=
  match exponentialBackoff options with Some b => b | None => true end.
Definition opt_maxDelay : Q :=
  match maxDelay options with Some q => q | None => 60 end.
Definition opt_jitter : bool :=
  match jitter options with Some b => b | None => true end.

Definition baseDelayMs : Q := (retryDelay options * 1000)%Q.
Definition maxDelayMs : Q := (opt_maxDelay * 1000)%Q.

(** [const delayMs = exponentialBackoff ? calculateBackoffDelay(...) : baseDelayMs] *)
Definition delayMs (attempt : Z) : Q :=
  if opt_exponentialBackoff
  then inject_Z (calculateBackoffDelay attempt baseDelayMs maxDelayMs
                                       opt_jitter (random attempt))
  else baseDelayMs.

(** [throw lastError || new Error("All retry attempts failed")] *)
Definition final_throw (lastError : option thrown) : result A :=
  match lastError with
  | Some e => Threw e
  | None => Threw (JsError "All retry attempts failed")
  end.

(** The [for (let attempt = 1; attempt <= maxRetries; attempt++)] loop;
    [fuel] only bounds the recursion. *)
Fixpoint retry_loop (fuel : nat) (attempt : Z) (lastError : option thrown)
    : list event * result A :=
  match fuel with
  | O => ([], final_throw lastError)
  | S fuel' =>
    if attempt <=? maxRetries options then
      match fn attempt with
      | Resolve v => ([Invoke attempt], Returned v)
      | Reject e =>
        let lastError := toError e in
        let before_next :=
          if attempt <? maxRetries options then
            (if onRetry options
             then [OnRetry attempt (message lastError) (delayMs attempt)]
             else []) ++ [Sleep (delayMs attempt)]
          else [] in
        let '(evs, r) := retry_loop fuel' (attempt + 1) (Some lastError) in
        (Invoke attempt :: before_next ++ evs, r)
      end
    else ([], final_throw lastError)
  end.

Definition withRetry : list event * result A :=
  retry_loop (Z.to_nat (maxRetries options)) 1 None.
End WithRetry.

(** Observations on the events of [withRetry]. *)

(** The events of a failed attempt [a] of an operation whose attempt [a]
    rejects with [errs a]. *)
Definition failed_attempt_events (errs : Z -> thrown) (random : Z -> Q)
    (options : RetryOptions) (a : Z) : list event :=
  Invoke a ::
  (if a <? maxRetries options then
     (if onRetry options
      then [OnRetry a (message (toError (errs a))) (delayMs random options a)]
      else []) ++ [Sleep (delayMs random options a)]
   else []).

(** Erases the error message carried by an [onRetry] call. *)
Definition erase_message (e : event) : event :=
  match e with
  | OnRetry a _ d => OnRetry a EmptyString d
  | e => e
  end.

Definition invocations (evs : list event) : nat :=
  List.length (filter (fun e => match e with Invoke _ => true | _ => false end) evs).

Definition threw {A} (r : result A) : bool :=
  match r with Threw _ => true | Returned _ => false end.


(** ASCII lower-casing, as the [i] flag compares ASCII letters. *)
Definition lower (c : ascii) : ascii :=
  let n := nat_of_ascii c in
  if (65 <=? n)%nat && (n <=? 90)%nat then ascii_of_nat (n + 32) else c.

Fixpoint prefixb (p s : list ascii) : bool :=
  match p, s with
  | [], _ => true
  | c :: p', d :: s' => Ascii.eqb c d && prefixb p' s'
  | _ :: _, [] => false
  end.

(** [pattern.test(s)] for a literal pattern: a match anywhere in [s]. *)
Fixpoint contains (p s : list ascii) : bool :=
  prefixb p s || match s with [] => false | _ :: s' => contains p s' end.

Definition test (pattern : string) (ignoreCase : bool) (s : string) : bool :=
  let f := if ignoreCase then map lower else fun l => l in
  contains (f (list_ascii_of_string pattern)) (f (list_ascii_of_string s)).

Local Open Scope string_scope.

Definition retryablePatterns : list (string * bool) :=
  [("rate limit", true); ("rate_limit", true); ("hit your limit", true);
   ("quota", true); ("too many requests", true); ("429", false);
   ("timeout", true); ("network", true); ("connection", true);
   ("ECONNRESET", false); ("ETIMEDOUT", false); ("ENOTFOUND", false);
   ("overloaded", true)].

Definition isRetryableError (error : string) : bool :=
  existsb (fun '(p, i) => test p i error) retryablePatterns.

End Retry.

(* ================================================================= *)
(** ** Byte strings *)

(** Text as the shell script's tools see it (GNU tools in the C locale,
    where every byte is a character), with the helpers the models of
    [src/ralphy.sh] share. *)
Module Bytes.

Definition LF : ascii := "010"%char.

(** The pieces of a byte string between newlines. *)
Fixpoint split_lf (s : list ascii) : list (list ascii) :=
  match s with
  | [] => [[]]
  | c :: t =>
    let rest := split_lf t in
    if Ascii.eqb c LF then [] :: rest
    else match rest with
         | l :: ls => (c :: l) :: ls
         | [] => [[c]]
         end
  end.

Fixpoint starts_with (p s : list ascii) : bool :=
  match p, s with
  | [], _ => true
  | c :: p', d :: s' => Ascii.eqb c d && starts_with p' s'
  | _ :: _, [] => false
  end.

Definition unchecked : list ascii := list_ascii_of_string "- [ ] ".
Definition checked : list ascii := list_ascii_of_string "- [x] ".

Definition digit_value (c : ascii) : option Z :=
  let n := nat_of_ascii c in
  if (48 <=? n)%nat && (n <=? 57)%nat then Some (Z.of_nat n - 48) else None.

(** The longest prefix of decimal digits, read as a number. *)
Fixpoint read_digits (s : list ascii) (acc : Z) (seen : bool) : option Z :=
  match s with
  | c :: t =>
    match digit_value c with
    | Some d => read_digits t (acc * 10 + d) true
    | None => if seen then Some acc else None
    end
  | [] => if seen then Some acc else None
  end.

(** The characters of a decimal numeral. *)
Fixpoint uint_chars (d : Decimal.uint) : list ascii :=
  match d with
  | Decimal.Nil => []
  | Decimal.D0 d => "0"%char :: uint_chars d
  | Decimal.D1 d => "1"%char :: uint_chars d
  | Decimal.D2 d => "2"%char :: uint_chars d
  | Decimal.D3 d => "3"%char :: uint_chars d
  | Decimal.D4 d => "4"%char :: uint_chars d
  | Decimal.D5 d => "5"%char :: uint_chars d
  | Decimal.D6 d => "6"%char :: uint_chars d
  | Decimal.D7 d => "7"%char :: uint_chars d
  | Decimal.D8 d => "8"%char :: uint_chars d
  | Decimal.D9 d => "9"%char :: uint_chars d
  end.

End Bytes.
(* ================================================================= *)
(** ** tasks/markdown.ts *)

Module Markdown.
Local Open Scope N_scope.

(** File contents are JavaScript strings: sequences of UTF-16 code units. *)
Definition code_unit := N.
Definition jsstring := list code_unit.

(** The code unit of an ASCII character, and a string literal made of
    ASCII characters. *)
Definition cu (c : ascii) : code_unit := N_of_ascii c.
Definition js (s : string) : jsstring := map cu (list_ascii_of_string s).

Definition CR : code_unit := 13.
Definition LF : code_unit := 10.

(** [a === b] on strings. *)
Fixpoint js_eqb (a b : jsstring) : bool :=
  match a, b with
  | [], [] => true
  | x :: a', y :: b' => N.eqb x y && js_eqb a' b'
  | _, _ => false
  end.

(** [.replace(/\r\n/g, "\n")] *)
Fixpoint replace_crlf (s : jsstring) : jsstring :=
  match s with
  | [] => []
  | c :: t =>
    if N.eqb c CR then
      match t with
      | d :: t2 => if N.eqb d LF then LF :: replace_crlf t2 else c :: replace_crlf t
      | [] => [c]
      end
    else c :: replace_crlf t
  end.

(** [.replace(/\r/g, "\n")] *)
Definition replace_cr (s : jsstring) : jsstring :=
  map (fun c => if N.eqb c CR then LF else c) s.

(** [readFileNormalized]: the file content with line endings normalised. *)
Definition readFileNormalized (file : jsstring) : jsstring :=
  replace_cr (replace_crlf file).

(** [content.split("\n")] *)
Fixpoint split_lf (s : jsstring) : list jsstring :=
  match s with
  | [] => [[]]
  | c :: t =>
    let rest := split_lf t in
    if N.eqb c LF then [] :: rest
    else match rest with
         | l :: ls => (c :: l) :: ls
         | [] => [[c]]
         end
  end.

(** [lines.join("\n")] *)
Fixpoint join_lf (ls : list jsstring) : jsstring :=
  match ls with
  | [] => []
  | [l] => l
  | l :: ls' => l ++ LF :: join_lf ls'
  end.

Fixpoint starts_with (p s : jsstring) : bool :=
  match p, s with
  | [], _ => true
  | c :: p', d :: s' => N.eqb c d && starts_with p' s'
  | _ :: _, [] => false
  end.

Definition unchecked : jsstring := js "- [ ] ".
Definition checked : jsstring := js "- [x] ".

(** [line.replace(/^- \[ \] /, "- [x] ")] *)
Definition replace_unchecked (line : jsstring) : jsstring :=
  if starts_with unchecked line then checked ++ skipn 6 line else line.

(** [/^- \[x\] /i.test(line)]: without the [u] flag, case-insensitive
    matching folds only [x] and [X] to the same character. *)
Definition is_completed_line (line : jsstring) : bool :=
  match line with
  | a :: b :: c :: x :: d :: e :: _ =>
    N.eqb a (cu "-") && N.eqb b (cu " ") && N.eqb c (cu "[") &&
    (N.eqb x (cu "x") || N.eqb x (cu "X")) && N.eqb d (cu "]") && N.eqb e (cu " ")
  | _ => false
  end.

(** StrWhiteSpaceChar (WhiteSpace and LineTerminator): the code units
    [parseInt] skips and [String.prototype.trim] removes. *)
Definition is_js_space (c : code_unit) : bool :=
  existsb (N.eqb c)
    [9; 10; 11; 12; 13; 32; 160; 5760; 8192; 8193; 8194; 8195; 8196; 8197; 8198;
     8199; 8200; 8201; 8202; 8232; 8233; 8239; 8287; 12288; 65279].

Definition digit_value (c : code_unit) : option Z :=
  if (48 <=? c) && (c <=? 57) then Some (Z.of_N c - 48)%Z else None.

(** The longest prefix of decimal digits, read as a number. *)
Fixpoint read_digits (s : jsstring) (acc : Z) (seen : bool) : option Z :=
  match s with
  | c :: t =>
    match digit_value c with
    | Some d => read_digits t (acc * 10 + d)%Z true
    | None => if seen then Some acc else None
    end
  | [] => if seen then Some acc else None
  end.

Fixpoint skip_spaces (s : jsstring) : jsstring :=
  match s with
  | c :: t => if is_js_space c then skip_spaces t else s
  | [] => []
  end.

(** [Number.parseInt(id, 10)]; [None] is [NaN]. *)
Definition parseInt10 (id : jsstring) : option Z :=
  match skip_spaces id with
  | c :: t =>
    if N.eqb c (cu "-") then option_map Z.opp (read_digits t 0 false)
    else if N.eqb c (cu "+") then read_digits t 0 false
    else read_digits (c :: t) 0 false
  | [] => read_digits [] 0 false
  end.

Local Open Scope Z_scope.

(** [lines[i] = x] for an index [i] within range. *)
Fixpoint assign_index {T} (l : list T) (i : nat) (x : T) : list T :=
  match l, i with
  | [], _ => []
  | _ :: t, O => x :: t
  | y :: t, S i' => y :: assign_index t i' x
  end.

(** [MarkdownTaskSource.markComplete(id)]: returns the file content after
    the call ([writeFileSync] happens only in the in-range branch). *)
Definition markComplete (file : jsstring) (id : jsstring) : jsstring :=
  let content := readFileNormalized file in
  let lines := split_lf content in
  (* const lineNumber = Number.parseInt(id, 10) - 1; NaN - 1 is NaN *)
  match option_map (fun n => n - 1) (parseInt10 id) with
  | Some lineNumber =>
    if (0 <=? lineNumber) && (lineNumber <? Z.of_nat (List.length lines)) then
      let i := Z.to_nat lineNumber in
      join_lf (assign_index lines i (replace_unchecked (nth i lines [])))
    else file
  | None => file   (* comparisons with NaN are false *)
  end.

(** [countCompleted()]: [completedCount] of a fresh [loadCache()];
    [markComplete] invalidates the cache, so after it the count is
    recomputed from the file. *)
Definition countCompleted (file : jsstring) : nat :=
  List.length (filter is_completed_line (split_lf (readFileNormalized file))).

(** The lines of a file, as [markComplete] and [loadCache] see them. *)
Definition lines_of (file : jsstring) : list jsstring := split_lf (readFileNormalized file).

(** [Some lineNumber] when [lineNumber >= 0 && lineNumber < lines.length]. *)
Definition in_range (file : jsstring) (id : jsstring) : option nat :=
  match option_map (fun n => n - 1) (parseInt10 id) with
  | Some ln =>
    if (0 <=? ln) && (ln <? Z.of_nat (List.length (lines_of file))) then Some (Z.to_nat ln)
    else None
  | None => None
  end.

(** A sequence of [markComplete] calls. *)
Fixpoint markCompleteAll (file : jsstring) (ids : list jsstring) : jsstring :=
  match ids with
  | [] => file
  | id :: ids' => markCompleteAll (markComplete file id) ids'
  end.

End Markdown.

(* ================================================================= *)
(** ** ralphy.sh: one parallel agent ([run_parallel_agent]) *)

Module Agent.

(** Contents of an agent's status file. *)
Inductive status := Waiting | SettingUp | Running | Done | Failed.

(** Contents of an agent's output file: ["in out branch"], or ["0 0"]. *)
Record output_record := { in_tokens : Z; out_tokens : Z; out_branch : option string }.

Definition no_output : output_record := {| in_tokens := 0; out_tokens := 0; out_branch := None |}.

(** What the external commands of one agent run produce. *)
Record agent_env := {
  worktree_created : bool;       (* [-d "$worktree_dir"] after create_agent_worktree *)
  responses : list string;       (* content of the temp file after try [retry] *)
  parsed_tokens : string * string; (* token lines extracted by parse_ai_result *)
  rev_list_out : string;         (* output of [git rev-list --count BASE..HEAD || echo 0] *)
  branch_name : string
}.

Local Open Scope string_scope.

(** [check_for_errors]: fails when the output contains an error event. *)
Definition dq : ascii := ascii_of_nat 34.

(** The characters of the pattern [{dq}type{dq}:{dq}error{dq}]. *)
Definition error_event : list ascii :=
  [dq] ++ list_ascii_of_string "type" ++ [dq; ":"%char; dq] ++ list_ascii_of_string "error" ++ [dq].

Definition check_for_errors (result : string) : bool :=
  negb (Retry.contains error_event (list_ascii_of_string result)).

(** [[[ "$x" =~ ^[0-9]+$ ]] || x=0] *)
Definition numeric_or_zero (x : string) : Z :=
  match list_ascii_of_string x with
  | [] => 0
  | l => if forallb (fun c => match Bytes.digit_value c with Some _ => true | None => false end) l
         then match Bytes.read_digits l 0 false with Some v => v | None => 0 end
         else 0
  end.

Section Run.
Variable MAX_RETRIES : Z.
Variable env : agent_env.

(** The [while [[ $retry -lt $MAX_RETRIES ]]] loop; [Some result] when
    [success=true]. *)
Fixpoint backend_loop (fuel : nat) (retry : Z) : option string :=
  match fuel with
  | O => None
  | S fuel' =>
    if (retry <? MAX_RETRIES)%Z then
      let result := nth (Z.to_nat retry) (responses env) "" in
      if negb (String.eqb result "") then
        if check_for_errors result then Some result
        else backend_loop fuel' (retry + 1)%Z     (* API error: retry *)
      else backend_loop fuel' (retry + 1)%Z       (* empty response: retry *)
    else None
  end.

Definition run_backend : option string := backend_loop (Z.to_nat MAX_RETRIES) 0.

(** Outcome of [run_parallel_agent]: the successive status-file
    contents, the output file, whether [cleanup_agent_worktree] ran, and
    the return code. *)
Record agent_run := {
  statuses : list status;
  output : output_record;
  cleaned_up : bool;
  return_code : Z
}.

Definition final_status (r : agent_run) : status := last (statuses r) Waiting.

Definition run_parallel_agent : agent_run :=
  if negb (worktree_created env) then
    {| statuses := [SettingUp; Failed]; output := no_output;
       cleaned_up := false; return_code := 1 |}
  else
    match run_backend with
    | Some result =>
      let input_tokens := numeric_or_zero (fst (parsed_tokens env)) in
      let output_tokens := numeric_or_zero (snd (parsed_tokens env)) in
      let commit_count := numeric_or_zero (rev_list_out env) in
      if (commit_count =? 0)%Z then
        (* "ERROR: No new commits created; treating task as failed." *)
        {| statuses := [SettingUp; Running; Failed]; output := no_output;
           cleaned_up := true; return_code := 1 |}
      else
        {| statuses := [SettingUp; Running; Done];
           output := {| in_tokens := input_tokens; out_tokens := output_tokens;
                        out_branch := Some (branch_name env) |};
           cleaned_up := true; return_code := 0 |}
    | None =>
      {| statuses := [SettingUp; Running; Failed]; output := no_output;
         cleaned_up := true; return_code := 1 |}
    end.
End Run.

(** The per-agent part of the "Batch Results" loop of [run_parallel_tasks]:
    whether the task is marked complete, the tokens added to the totals and
    the branch recorded in [completed_branches]. *)
Record job_result := { marked_complete : bool; tokens_added : Z * Z; recorded_branch : option string }.

Definition collect_job (st : status) (out : output_record) : job_result :=
  match st with
  | Done =>
    {| marked_complete := true;
       tokens_added := (in_tokens out, out_tokens out);
       recorded_branch := match out_branch out with
                          | Some b => if String.eqb b "" then None else Some b
                          | None => None
                          end |}
  | _ => {| marked_complete := false; tokens_added := (0, 0); recorded_branch := None |}
  end.

End Agent.

(* ================================================================= *)
(** ** ralphy.sh: batches of one group ([run_parallel_tasks]) *)

Module Scheduler.
Local Open Scope nat_scope.

Section Batches.
Context {T : Type}.
Variable MAX_PARALLEL : nat.
Variable MAX_ITERATIONS : nat.   (* 0 = unlimited *)
Variable tasks : list T.

Let total_group_tasks := List.length tasks.

(** The [while [[ $batch_start -lt $total_group_tasks ]]] loop: the
    batches launched and the final [iteration] counter.  [fuel] only
    bounds the recursion (with [MAX_PARALLEL = 0] the script loops
    forever launching empty batches). *)
Fixpoint batch_loop (fuel : nat) (batch_start iteration : nat) : list (list T) * nat :=
  match fuel with
  | O => ([], iteration)
  | S fuel' =>
    if batch_start <? total_group_tasks then
      let batch_end := Nat.min (batch_start + MAX_PARALLEL) total_group_tasks in
      let batch := firstn (batch_end - batch_start) (skipn batch_start tasks) in
      let iteration := iteration + (batch_end - batch_start) in
      if (0 <? MAX_ITERATIONS) && (MAX_ITERATIONS <=? iteration) then
        ([batch], iteration)                       (* "Reached max iterations" *)
      else
        let '(bs, it) := batch_loop fuel' batch_end iteration in (batch :: bs, it)
    else ([], iteration)
  end.

(** Batches of a group, starting from the global [iteration] counter. *)
Definition batches (iteration : nat) : list (list T) :=
  fst (batch_loop (S total_group_tasks) 0 iteration).
End Batches.

End Scheduler.

(* ================================================================= *)
(** ** ralphy.sh: [cleanup_agent_worktree] *)

Module Worktree.

Record wt_state := {
  worktrees : list (string * bool);   (* live worktree directories, with dirty flag *)
  branches : list string;
  original_dir_ok : bool;             (* [cd "$ORIGINAL_DIR"] succeeds *)
  log_lines : list string             (* content of the agent's log file *)
}.

Local Open Scope string_scope.

Definition is_dirty (st : wt_state) (dir : string) : bool :=
  match find (fun '(d, _) => String.eqb d dir) (worktrees st) with
  | Some (_, dirty) => dirty      (* git status --porcelain is non-empty *)
  | None => false                 (* [[ -d "$worktree_dir" ]] fails *)
  end.

(** [cleanup_agent_worktree worktree_dir branch_name log_file]: return code
    and new state. *)
Definition cleanup_agent_worktree (st : wt_state) (worktree_dir branch_name log_file : string)
    : Z * wt_state :=
  if is_dirty st worktree_dir then
    let log := if String.eqb log_file "" then log_lines st
               else List.app (log_lines st) [String.append "Worktree left in place due to uncommitted changes: " worktree_dir] in
    (0, {| worktrees := worktrees st; branches := branches st;
           original_dir_ok := original_dir_ok st; log_lines := log |})
  else if original_dir_ok st then
    (* git worktree remove -f "$worktree_dir" 2>/dev/null || true *)
    (0, {| worktrees := filter (fun '(d, _) => negb (String.eqb d worktree_dir)) (worktrees st);
           branches := branches st; original_dir_ok := true; log_lines := log_lines st |})
  else (1, st).                   (* cd "$ORIGINAL_DIR" || exit 1 *)

End Worktree.

(* ================================================================= *)
(** ** ralphy.sh: the git repository as the merge stages see it *)

Module Git.

(** Git commands run by the merge stages, recorded with their outcome. *)
Inductive cmd :=
| BranchCreate (name from : string)      (* git branch name from *)
| Checkout (b : string)                  (* git checkout b *)
| Merge (b : string)                     (* git merge --no-edit b *)
| MergeAbort                             (* git merge --abort *)
| BranchDelete (force : bool) (b : string)  (* git branch -D / -d b *)
| AgentResolve (files : list string).    (* the agent run of the conflict prompt *)

(** Branches with their history (the changes they contain), the checked-out
    branch ([None]: detached), an unfinished merge with its conflicted files,
    and the log of commands run. *)
Record repo := {
  refs : list (string * list string);
  head : option string;
  merging : option (string * list string);
  log : list (cmd * bool)
}.

Definition lookup (r : repo) (b : string) : option (list string) :=
  option_map snd (find (fun '(n, _) => String.eqb n b) (refs r)).

(** Looking a branch up in a list of refs. *)
Definition find_ref (rs : list (string * list string)) (b : string) :=
  find (fun '(n, _) => String.eqb n b) rs.

Definition mem (x : string) (l : list string) : bool := existsb (String.eqb x) l.

Definition record (r : repo) (c : cmd) (ok : bool) : repo :=
  {| refs := refs r; head := head r; merging := merging r; log := log r ++ [(c, ok)] |}.

Definition set_refs (r : repo) (rs : list (string * list string)) : repo :=
  {| refs := rs; head := head r; merging := merging r; log := log r |}.
Definition set_head (r : repo) (h : option string) : repo :=
  {| refs := refs r; head := h; merging := merging r; log := log r |}.
Definition set_merging (r : repo) (m : option (string * list string)) : repo :=
  {| refs := refs r; head := head r; merging := m; log := log r |}.

Definition update_ref (b : string) (h : list string) (rs : list (string * list string)) :=
  map (fun '(n, h0) => if String.eqb n b then (n, h) else (n, h0)) rs.

Definition merge_history (target source : list string) : list string :=
  target ++ filter (fun x => negb (mem x target)) source.

Section Commands.
(** [conflicts target source]: the files in conflict when merging a
    branch of history [source] into one of history [target]. *)
Variable conflicts : list string -> list string -> list string.
(** Whether the agent, given the conflicted files, resolves the conflict
    and commits the merge. *)
Variable agent_resolves : list string -> bool.

Definition git_branch (name from : string) (r : repo) : bool * repo :=
  match lookup r name, lookup r from with
  | None, Some h => (true, record (set_refs r ((name, h) :: refs r)) (BranchCreate name from) true)
  | _, _ => (false, record r (BranchCreate name from) false)
  end.

Definition git_checkout (b : string) (r : repo) : bool * repo :=
  match merging r, lookup r b with
  | None, Some _ => (true, record (set_head r (Some b)) (Checkout b) true)
  | _, _ => (false, record r (Checkout b) false)
  end.

Definition git_merge (b : string) (r : repo) : bool * repo :=
  match merging r, head r with
  | None, Some h =>
    match lookup r h, lookup r b with
    | Some th, Some sh =>
      match conflicts th sh with
      | [] => (true, record (set_refs r (update_ref h (merge_history th sh) (refs r))) (Merge b) true)
      | files => (false, record (set_merging r (Some (b, files))) (Merge b) false)
      end
    | _, _ => (false, record r (Merge b) false)
    end
  | _, _ => (false, record r (Merge b) false)   (* MERGE_HEAD exists, or detached *)
  end.

Definition git_merge_abort (r : repo) : bool * repo :=
  match merging r with
  | Some _ => (true, record (set_merging r None) MergeAbort true)
  | None => (false, record r MergeAbort false)
  end.

Definition head_history (r : repo) : list string :=
  match head r with
  | Some h => match lookup r h with Some th => th | None => [] end
  | None => []
  end.

Definition git_branch_delete (force : bool) (b : string) (r : repo) : bool * repo :=
  match lookup r b with
  | Some bh =>
    if match head r with Some h => String.eqb h b | None => false end then (false, record r (BranchDelete force b) false)
    else if force || forallb (fun x => mem x (head_history r)) bh
    then (true, record (set_refs r (filter (fun '(n, _) => negb (String.eqb n b)) (refs r)))
                       (BranchDelete force b) true)
    else (false, record r (BranchDelete force b) false)
  | None => (false, record r (BranchDelete force b) false)
  end.

(** [git diff --name-only --diff-filter=U] *)
Definition unmerged_files (r : repo) : list string :=
  match merging r with Some (_, fs) => fs | None => [] end.

(** The agent run of the conflict-resolution prompt: it edits and stages
    the files and runs [git commit --no-edit], or leaves them conflicted. *)
Definition run_agent_resolution (files : list string) (r : repo) : repo :=
  let r := record r (AgentResolve files) true in
  match merging r, head r with
  | Some (b, fs), Some h =>
    if agent_resolves fs then
      match lookup r h, lookup r b with
      | Some th, Some sh =>
        set_merging (set_refs r (update_ref h (merge_history th sh) (refs r))) None
      | _, _ => r
      end
    else r
  | _, _ => r
  end.
End Commands.

End Git.

(* ================================================================= *)
(** ** ralphy.sh: group integration and final reconciliation
    ([run_parallel_tasks], after each group and after the last one) *)

Module Merge.
Import Git.

(** The run state the two stages read and write. *)
Record run_state := {
  BASE_BRANCH : string;
  ORIGINAL_BASE_BRANCH : string;
  integration_branches : list string
}.

(** What the stages print for the user to act on. *)
Inductive report :=
| BranchesCreated (bs : list string)    (* "Branches created by agents:" *)
| IntegrationBranch (b : string)        (* "Integration branch: b" *)
| OriginalBase (b : string)             (* "Original base: b" *)
| Unresolved (bs : list string)         (* "Some conflicts could not be resolved automatically:" *)
| AllMerged.                            (* "All branches merged successfully!" *)

Definition last_opt (l : list string) : option string :=
  match rev l with [] => None | x :: _ => Some x end.

Definition agent_passes (l : list (cmd * bool)) : list (list string) :=
  flat_map (fun '(c, _) => match c with AgentResolve fs => [fs] | _ => [] end) l.

Definition failed_merges (l : list (cmd * bool)) : list string :=
  flat_map (fun '((c, ok) : cmd * bool) => match c with Merge b => if ok then [] else [b] | _ => [] end) l.

Definition branch_exists (r : repo) (b : string) : bool :=
  match lookup r b with Some _ => true | None => false end.

(** HEAD is on an existing branch. *)
Definition head_ok (r : repo) : bool :=
  match head r with Some h => branch_exists r h | None => false end.

Section Stages.
Variable conflicts : list string -> list string -> list string.
Variable agent_resolves : list string -> bool.

(** [for branch in group_completed_branches]: merge, and on the first
    failure abort and break; returns [merge_failed]. *)
Fixpoint merge_members (bs : list string) (r : repo) : bool * repo :=
  match bs with
  | [] => (false, r)
  | b :: rest =>
    let '(ok, r1) := git_merge conflicts b r in
    if ok then merge_members rest r1
    else (true, snd (git_merge_abort r1))
  end.

(** Return to the original HEAD, falling back to ORIGINAL_BASE_BRANCH. *)
Definition return_to (current_head : option string) (orig : string) (r : repo) : repo :=
  match current_head with
  | Some h =>
    let '(ok, r1) := git_checkout h r in
    if ok then r1 else snd (git_checkout orig r1)
  | None => snd (git_checkout orig r)
  end.

Definition integration_branch_name (group : string) : string :=
  String.append "ralphy/integration-group-" group.

(** The integration step after group [group]. *)
Definition integrate_group (prd_yaml : bool) (ngroups : nat) (group : string)
    (group_completed : list string) (st : run_state) (r : repo) : run_state * repo :=
  if prd_yaml && negb (match group_completed with [] => true | _ => false end)
     && (1 <? ngroups)%nat then
    let ib := integration_branch_name group in
    let '(ok, r1) := git_branch ib (BASE_BRANCH st) r in
    if ok then
      let current_head := head r1 in
      let '(ok2, r2) := git_checkout ib r1 in
      if ok2 then
        let '(merge_failed, r3) := merge_members group_completed r2 in
        let r4 := return_to current_head (ORIGINAL_BASE_BRANCH st) r3 in
        if negb merge_failed then
          ({| BASE_BRANCH := ib;
              ORIGINAL_BASE_BRANCH := ORIGINAL_BASE_BRANCH st;
              integration_branches := integration_branches st ++ [ib] |}, r4)
        else (st, snd (git_branch_delete true ib r4))
      else (st, snd (git_branch_delete true ib r2))
    else (st, r1)
  else (st, r).

(** [git branch -D] on each branch, in order. *)
Fixpoint delete_all (bs : list string) (r : repo) : repo :=
  match bs with
  | [] => r
  | b :: rest => delete_all rest (snd (git_branch_delete true b r))
  end.

(** Direct merges; a conflict is collected and not aborted. *)
Fixpoint direct_merges (bs : list string) (r : repo) : list string * repo :=
  match bs with
  | [] => ([], r)
  | b :: rest =>
    let '(ok, r1) := git_merge conflicts b r in
    if ok then direct_merges rest (snd (git_branch_delete false b r1))
    else let '(failed, r2) := direct_merges rest r1 in (b :: failed, r2)
  end.

(** [for branch in merge_failed]: the conflict-resolution loop. *)
Fixpoint resolve_loop (bs : list string) (r : repo) : list string * repo :=
  match bs with
  | [] => ([], r)
  | b :: rest =>
    match unmerged_files r with
    | [] =>
      let r1 := snd (git_merge_abort r) in
      let '(ok, r2) := git_merge conflicts b r1 in
      if ok then resolve_loop rest (snd (git_branch_delete false b r2))
      else let '(sf, r3) := resolve_loop rest (snd (git_merge_abort r2)) in (b :: sf, r3)
    | files =>
      let r1 := run_agent_resolution agent_resolves files r in
      match unmerged_files r1 with
      | [] => resolve_loop rest (snd (git_branch_delete false b r1))
      | _ => let '(sf, r2) := resolve_loop rest (snd (git_merge_abort r1)) in (b :: sf, r2)
      end
    end
  end.

(** The "Handle completed branches" block. *)
Definition reconcile (CREATE_PR : bool) (st : run_state) (completed : list string)
    (r : repo) : repo * list report :=
  match completed with
  | [] => (r, [])
  | _ =>
    if CREATE_PR then (r, [BranchesCreated completed])
    else
      let final_target := ORIGINAL_BASE_BRANCH st in
      match last_opt (integration_branches st) with
      | Some final_integration =>
        let '(ok, r1) := git_checkout final_target r in
        if negb ok then (r1, [IntegrationBranch final_integration])
        else
          let '(ok2, r2) := git_merge conflicts final_integration r1 in
          if ok2 then (delete_all completed (delete_all (integration_branches st) r2), [])
          else (snd (git_merge_abort r2),
                [IntegrationBranch final_integration; OriginalBase final_target])
      | None =>
        let '(ok, r1) := git_checkout final_target r in
        if negb ok then (r1, [BranchesCreated completed])
        else
          let '(merge_failed, r2) := direct_merges completed r1 in
          match merge_failed with
          | [] => (r2, [AllMerged])
          | _ =>
            let '(still_failed, r3) := resolve_loop merge_failed r2 in
            match still_failed with
            | [] => (r3, [AllMerged])
            | _ => (r3, [Unresolved still_failed])
            end
          end
      end
  end.
End Stages.

End Merge.

(* ================================================================= *)
(** ** The cached markdown task source *)

(** [MarkdownTaskSource.loadCache], [getCache] and the methods that read
    the cache, from [src/cli/src/tasks/markdown.ts].  The task file is
    assumed to exist ([readFileSync] throws otherwise). *)
Module MarkdownCache.
Import Markdown.

(** [String(n)] for a natural number: its decimal numeral. *)
Definition String_of_nat (n : nat) : jsstring :=
  map cu (Bytes.uint_chars (Nat.to_uint n)).

Fixpoint trim_start (s : jsstring) : jsstring :=
  match s with
  | c :: t => if is_js_space c then trim_start t else s
  | [] => []
  end.

(** [s.trim()] *)
Definition trim (s : jsstring) : jsstring := rev (trim_start (rev (trim_start s))).

(** LINE SEPARATOR and PARAGRAPH SEPARATOR. *)
Definition LS : code_unit := 8232%N.
Definition PS : code_unit := 8233%N.

(** The LineTerminator code units, which [.] does not match. *)
Definition is_line_terminator (c : code_unit) : bool :=
  N.eqb c LF || N.eqb c CR || N.eqb c LS || N.eqb c PS.

(** [line.match(/^- \[ \] (.+)$/)]: the captured group, if it matches. *)
Definition match_incomplete (line : jsstring) : option jsstring :=
  if starts_with unchecked line then
    match skipn 6 line with
    | [] => None
    | rest => if existsb is_line_terminator rest then None else Some rest
    end
  else None.

Record Task := {
  id : jsstring;
  title : jsstring;
  completed : bool
}.

Record CachedContent := {
  content : jsstring;
  lines : list jsstring;
  incompleteTasks : list Task;
  remainingCount : nat;
  completedCount : nat;
  fileMtime : Q
}.

(** The task file on disk: its content and its [mtimeMs]. *)
Record disk := {
  contents : jsstring;
  mtimeMs : Q
}.

(** The task pushed for the incomplete-task line [i] whose match captured [m]. *)
Definition incomplete_task (i : nat) (m : jsstring) : Task :=
  {| id := String_of_nat (i + 1); title := trim m; completed := false |}.

(** The [for (let i = 0; i < lines.length; i++)] loop of [loadCache]. *)
Fixpoint scan_lines (ls : list jsstring) (i : nat) (incompleteTasks : list Task)
    (remainingCount completedCount : nat) : list Task * nat * nat :=
  match ls with
  | [] => (incompleteTasks, remainingCount, completedCount)
  | line :: ls' =>
    let '(incompleteTasks, remainingCount) :=
      match match_incomplete line with
      | Some m =>
        (incompleteTasks ++ [incomplete_task i m],
         S remainingCount)
      | None => (incompleteTasks, remainingCount)
      end in
    let completedCount :=
      if is_completed_line line then S completedCount else completedCount in
    scan_lines ls' (S i) incompleteTasks remainingCount completedCount
  end.

(** [loadCache()]: the new value of [this.cache]. *)
Definition loadCache (d : disk) : CachedContent :=
  let fileMtime := mtimeMs d in
  let content := readFileNormalized (contents d) in
  let lines := split_lf content in
  let '(incompleteTasks, remainingCount, completedCount) := scan_lines lines 0 [] 0 0 in
  {| content := content; lines := lines; incompleteTasks := incompleteTasks;
     remainingCount := remainingCount; completedCount := completedCount;
     fileMtime := fileMtime |}.

(** [getCache()]: the cache returned and the new [this.cache]. *)
Definition getCache (d : disk) (cache : option CachedContent)
    : CachedContent * option CachedContent :=
  match cache with
  | None => let c := loadCache d in (c, Some c)
  | Some c =>
    if negb (Qeq_bool (mtimeMs d) (fileMtime c)) then
      let c' := loadCache d in (c', Some c')
    else (c, cache)
  end.

Definition getAllTasks (d : disk) (cache : option CachedContent)
    : list Task * option CachedContent :=
  let '(c, cache') := getCache d cache in (incompleteTasks c, cache').

Definition getNextTask (d : disk) (cache : option CachedContent)
    : option Task * option CachedContent :=
  let '(c, cache') := getCache d cache in (hd_error (incompleteTasks c), cache').

Definition countRemaining (d : disk) (cache : option CachedContent)
    : nat * option CachedContent :=
  let '(c, cache') := getCache d cache in (remainingCount c, cache').

Definition countCompleted_cached (d : disk) (cache : option CachedContent)
    : nat * option CachedContent :=
  let '(c, cache') := getCache d cache in (completedCount c, cache').

(** [markComplete(id)]: the disk afterwards (the write, when it happens,
    gives the file the modification time [now]) and the new cache, which
    the call invalidates. *)
Definition markComplete_cached (d : disk) (cache : option CachedContent)
    (id : jsstring) (now : Q) : disk * option CachedContent :=
  match in_range (contents d) id with
  | Some _ => ({| contents := markComplete (contents d) id; mtimeMs := now |}, None)
  | None => (d, None)
  end.

End MarkdownCache.

(* ================================================================= *)
(** ** Text filters of the shell script *)

(** Byte-level models of the pipelines of [src/ralphy.sh] (GNU tools in
    the C locale, where every byte is a character). *)
Module Shell.
Import Bytes.
Local Open Scope nat_scope.

Definition bytes := list ascii.

Definition BS : ascii := "\"%char.

(** The lines a line-oriented tool reads: the pieces between newlines,
    and a last piece without newline when it is not empty. *)
Definition stream_lines (input : bytes) : list bytes :=
  let pieces := split_lf input in
  removelast pieces ++ (match last pieces [] with [] => [] | l => [l] end).

(** [sed] with a per-line transformation [f]: each line ending in a
    newline is written with its newline, a last line without newline
    without one. *)
Definition sed_stream (f : bytes -> bytes) (input : bytes) : bytes :=
  let pieces := split_lf input in
  flat_map (fun l => f l ++ [LF]) (removelast pieces) ++
  (match last pieces [] with [] => [] | l => f l end).

(** [cut -c1-50]: the first 50 bytes of every line, each followed by a
    newline. *)
Definition cut_c1_50 (input : bytes) : bytes :=
  flat_map (fun l => firstn 50 l ++ [LF]) (stream_lines input).

Fixpoint drop_newlines (s : bytes) : bytes :=
  match s with
  | c :: t => if Ascii.eqb c LF then drop_newlines t else s
  | [] => []
  end.

(** [$( ... )]: the output without its trailing newlines. *)
Definition command_subst (out : bytes) : bytes := rev (drop_newlines (rev out)).

(** *** [slugify] *)

(** Bash's builtin [echo] takes an argument made of [-] and one or more
    of [n], [e], [E] as options. *)
Definition is_echo_option (arg : bytes) : bool :=
  match arg with
  | "-"%char :: (_ :: _) as t =>
    forallb (fun c => Ascii.eqb c "n"%char || Ascii.eqb c "e"%char || Ascii.eqb c "E"%char) t
  | _ => false
  end.

(** [echo "$1"] *)
Definition echo1 (arg : bytes) : bytes :=
  if is_echo_option arg then
    (if existsb (Ascii.eqb "n"%char) arg then [] else [LF])
  else arg ++ [LF].

(** [tr '[:upper:]' '[:lower:]'] *)
Definition tr_lower (s : bytes) : bytes := map Retry.lower s.

Definition is_alnum_lower (c : ascii) : bool :=
  let n := nat_of_ascii c in
  ((97 <=? n) && (n <=? 122)) || ((48 <=? n) && (n <=? 57)).

(** [s/[^a-z0-9]+/-/g] on one line: every maximal run of other bytes
    becomes one [-]; [in_run] tells whether the previous byte was in such
    a run. *)
Fixpoint collapse_runs (in_run : bool) (l : bytes) : bytes :=
  match l with
  | [] => []
  | c :: t =>
    if is_alnum_lower c then c :: collapse_runs false t
    else if in_run then collapse_runs true t
    else "-"%char :: collapse_runs true t
  end.

(** [s/^-|-$//g] on one line. *)
Definition strip_dashes (l : bytes) : bytes :=
  let l := match l with "-"%char :: t => t | _ => l end in
  match rev l with
  | "-"%char :: r => rev r
  | _ => l
  end.

(** The text [echo "$1"] prints before its newline (none for [-n]). *)
Definition echo_text (arg : bytes) : bytes := if is_echo_option arg then [] else arg.

(** The bytes a slug is made of: [a-z], [0-9] and [-]. *)
Definition slug_char (c : ascii) : Prop := is_alnum_lower c = true \/ c = "-"%char.

(** Two dashes in a row. *)
Definition dd : bytes := ["-"%char; "-"%char].

(** One leading [-] removed. *)
Definition drop_dash (l : bytes) : bytes :=
  match l with c :: t => if Ascii.eqb c "-"%char then t else l | [] => [] end.

(** [slugify]: [echo "$1" | tr '[:upper:]' '[:lower:]' |
    sed -E 's/[^a-z0-9]+/-/g' | sed -E 's/^-|-$//g' | cut -c1-50], as
    captured by [$( ... )]. *)
Definition slugify (arg : bytes) : bytes :=
  command_subst
    (cut_c1_50 (sed_stream strip_dashes (sed_stream (collapse_runs false)
       (tr_lower (echo1 arg))))).

(** The names [create_agent_worktree] gives agent [agent_num] for
    [task_name]. *)
Definition agent_branch_name (task_name : bytes) (agent_num : nat) : bytes :=
  list_ascii_of_string "ralphy/agent-" ++ uint_chars (Nat.to_uint agent_num) ++
  ["-"%char] ++ slugify task_name.

Definition agent_worktree_dir (WORKTREE_BASE : bytes) (agent_num : nat) : bytes :=
  WORKTREE_BASE ++ list_ascii_of_string "/agent-" ++ uint_chars (Nat.to_uint agent_num).

(** *** The markdown task source of the script *)

(** [grep '^\- \[ \]' "$PRD_FILE"]: the lines starting with ["- [ ]"]. *)
Definition pending_box : bytes := list_ascii_of_string "- [ ]".

Definition grep_pending (file : bytes) : list bytes :=
  filter (starts_with pending_box) (stream_lines file).

(** [sed 's/^- \[ \] //'] on one line. *)
Definition strip_unchecked (l : bytes) : bytes :=
  if starts_with unchecked l then skipn 6 l else l.

(** The task list [run_parallel_tasks] reads from [get_tasks_markdown]:
    [while IFS= read -r task; do [[ -n "$task" ]] && all_tasks+=("$task")]. *)
Definition parallel_tasks_markdown (file : bytes) : list bytes :=
  filter (fun t => negb (match t with [] => true | _ => false end))
         (map strip_unchecked (grep_pending file)).

(** [count_remaining_markdown]: [grep -c '^\- \[ \]' "$PRD_FILE" || echo "0"];
    [None] is a file that cannot be read.  [grep -c] prints the count and
    fails when it is 0, so the fallback prints a second [0]. *)
Definition count_remaining_markdown (prd : option bytes) : bytes :=
  match prd with
  | None => ["0"%char; LF]
  | Some file =>
    let n := List.length (grep_pending file) in
    if Nat.eqb n 0 then ["0"%char; LF; "0"%char; LF]
    else uint_chars (Nat.to_uint n) ++ [LF]
  end.

Definition is_space_class (c : ascii) : bool :=
  existsb (Nat.eqb (nat_of_ascii c)) [9; 10; 11; 12; 13; 32]%nat.

(** [head -1] *)
Fixpoint head_1 (s : bytes) : bytes :=
  match s with
  | [] => []
  | c :: t => if Ascii.eqb c LF then [LF] else c :: head_1 t
  end.

Definition is_digit (c : ascii) : bool :=
  let n := nat_of_ascii c in (48 <=? n) && (n <=? 57).

(** Digits read in [base]; [None] when a digit is not below the base. *)
Fixpoint digits_in_base (base : nat) (s : bytes) (acc : nat) : option nat :=
  match s with
  | [] => Some acc
  | c :: t =>
    let d := nat_of_ascii c - 48 in
    if d <? base then digits_in_base base t (acc * base + d) else None
  end.

(** The value Bash arithmetic gives a string of digits: octal with a
    leading [0], decimal otherwise; [None] is an arithmetic error. *)
Definition bash_number (s : bytes) : option nat :=
  match s with
  | "0"%char :: (_ :: _) as t => digits_in_base 8 t 0
  | _ => digits_in_base 10 s 0
  end.

(** The completion check at the end of [run_single_task]:
    [remaining_count=$(count_remaining_tasks | tr -d '[:space:]' | head -1)],
    [${remaining_count:-0}], the [^[0-9]+$] test and [-eq 0]. *)
Definition all_tasks_done (count_output : bytes) : bool :=
  let s := command_subst (head_1 (filter (fun c => negb (is_space_class c)) count_output)) in
  let s := match s with [] => ["0"%char] | _ => s end in
  let s := if forallb is_digit s then s else ["0"%char] in
  match bash_number s with
  | Some v => Nat.eqb v 0
  | None => false
  end.

(** [printf '%s\n' "$task" | sed 's/[[\.*^$/]/\\&/g'] in [$( ... )]: a
    backslash before each of [[ \ . * ^ $ /]. *)
Definition bre_special (c : ascii) : bool :=
  existsb (Ascii.eqb c) ["["%char; BS; "."%char; "*"%char; "^"%char; "$"%char; "/"%char].

Definition escape_line (l : bytes) : bytes :=
  flat_map (fun c => if bre_special c then [BS; c] else [c]) l.

Definition escape_task (task : bytes) : bytes :=
  command_subst (sed_stream escape_line (task ++ [LF])).

(** Reading one part of an [s/.../.../] command up to the next unescaped
    [/]. *)
Fixpoint read_part (s acc : bytes) : option (bytes * bytes) :=
  match s with
  | [] => None
  | "\"%char :: c :: t => read_part t (acc ++ [BS; c])
  | "/"%char :: t => Some (acc, t)
  | c :: t => read_part t (acc ++ [c])
  end.

(** The pattern and replacement of an [s/pattern/replacement/] command
    without flags. *)
Definition parse_s (script : bytes) : option (bytes * bytes) :=
  match script with
  | "s"%char :: "/"%char :: t =>
    match read_part t [] with
    | Some (pat, rest) =>
      match read_part rest [] with
      | Some (rep, []) => Some (pat, rep)
      | _ => None
      end
    | None => None
    end
  | _ => None
  end.

(** A basic regular expression made only of ordinary bytes and escaped
    special bytes or [\]]: the literal text it matches ([None] outside
    this fragment). *)
Fixpoint bre_literal (p : bytes) : option bytes :=
  match p with
  | [] => Some []
  | "\"%char :: c :: t =>
    if bre_special c || Ascii.eqb c "]"%char then option_map (cons c) (bre_literal t)
    else None
  | c :: t =>
    if existsb (Ascii.eqb c) ["."%char; "*"%char; "["%char; "^"%char; "$"%char; BS]
    then None else option_map (cons c) (bre_literal t)
  end.

(** A pattern [^literal]. *)
Definition anchored_literal (p : bytes) : option bytes :=
  match p with
  | "^"%char :: t => bre_literal t
  | _ => None
  end.

Inductive rtoken := RLit (c : ascii) | RAmp.

(** A replacement made of ordinary bytes, [&] and escaped special bytes
    ([None] outside this fragment). *)
Fixpoint parse_replacement (r : bytes) : option (list rtoken) :=
  match r with
  | [] => Some []
  | "\"%char :: c :: t =>
    if bre_special c then option_map (cons (RLit c)) (parse_replacement t) else None
  | "&"%char :: t => option_map (cons RAmp) (parse_replacement t)
  | c :: t =>
    if Ascii.eqb c BS then None else option_map (cons (RLit c)) (parse_replacement t)
  end.

Definition render (toks : list rtoken) (matched : bytes) : bytes :=
  flat_map (fun t => match t with RLit c => [c] | RAmp => matched end) toks.

(** [s/^literal/replacement/] on one line. *)
Definition subst_line (lit : bytes) (toks : list rtoken) (line : bytes) : bytes :=
  if starts_with lit line then render toks lit ++ skipn (List.length lit) line else line.

(** [mark_task_complete_markdown]: the new PRD file, [None] when the
    [sed] command falls outside the modelled fragment. *)
Definition mark_task_complete_markdown (task file : bytes) : option bytes :=
  let escaped_task := escape_task task in
  let script := list_ascii_of_string "s/^- \[ \] " ++ escaped_task ++
                list_ascii_of_string "/- [x] " ++ escaped_task ++ ["/"%char] in
  match parse_s script with
  | Some (pat, rep) =>
    match anchored_literal pat, parse_replacement rep with
    | Some lit, Some toks => Some (sed_stream (subst_line lit toks) file)
    | _, _ => None
    end
  | None => None
  end.

End Shell.

(* ================================================================= *)
(** ** Launching the agents of [run_parallel_tasks] *)

Module Launch.
Local Open Scope nat_scope.

Section Launch.
Context {T : Type}.
Variable MAX_PARALLEL : nat.
Variable MAX_ITERATIONS : nat.   (* 0 = unlimited *)

(** The [for ((i = batch_start; i < batch_end; i++))] loop that starts the
    agents of a batch: [agent_num=$((iteration + 1))], then
    [((iteration++))].  The agents started, with their numbers, and the
    new [iteration]. *)
Fixpoint launch (batch : list T) (iteration : nat) : list (nat * T) * nat :=
  match batch with
  | [] => ([], iteration)
  | task :: rest =>
    let agent_num := iteration + 1 in
    let '(agents, it) := launch rest (iteration + 1) in
    ((agent_num, task) :: agents, it)
  end.

(** [agent_num=$((iteration - batch_size + j + 1))] of the "Batch Results"
    loop, for [j = 0 .. batch_size - 1]. *)
Definition result_agent_nums (batch_size iteration : nat) : list nat :=
  map (fun j => iteration - batch_size + j + 1) (seq 0 batch_size).

(** The [while [[ $batch_start -lt $total_group_tasks ]]] loop of one
    group, with the agents it starts; [break] leaves this loop only.
    [fuel] only bounds the recursion. *)
Fixpoint group_loop (fuel : nat) (tasks : list T) (batch_start iteration : nat)
    : list (nat * T) * nat :=
  match fuel with
  | O => ([], iteration)
  | S fuel' =>
    if batch_start <? List.length tasks then
      let batch_end := Nat.min (batch_start + MAX_PARALLEL) (List.length tasks) in
      let batch := firstn (batch_end - batch_start) (skipn batch_start tasks) in
      let '(agents, iteration) := launch batch iteration in
      if (0 <? MAX_ITERATIONS) && (MAX_ITERATIONS <=? iteration) then
        (agents, iteration)                         (* "Reached max iterations" *)
      else
        let '(rest, it) := group_loop fuel' tasks batch_end iteration in
        (agents ++ rest, it)
    else ([], iteration)
  end.

(** The [for group in "${groups[@]}"] loop, each group given by its task
    list; a group without tasks is skipped ([continue]).  After a group,
    [if [[ $MAX_ITERATIONS -gt 0 ]] && [[ $iteration -ge $MAX_ITERATIONS ]]]
    leaves the loop of the groups ([break]). *)
Fixpoint groups_loop (groups : list (list T)) (iteration : nat) : list (nat * T) * nat :=
  match groups with
  | [] => ([], iteration)
  | [] :: gs => groups_loop gs iteration
  | tasks :: gs =>
    let '(agents, it) := group_loop (S (List.length tasks)) tasks 0 iteration in
    if (0 <? MAX_ITERATIONS) && (MAX_ITERATIONS <=? it) then
      (agents, it)                                  (* break *)
    else
      let '(rest, it') := groups_loop gs it in
      (agents ++ rest, it')
  end.
End Launch.

End Launch.

(* ================================================================= *)
(** ** The "Batch Results" loop of [run_parallel_tasks], markdown source *)

Module BatchResults.
Import Agent Shell.



End BatchResults.

(* ================================================================= *)
(** ** Proof tactics *)

(** Case analysis on every [match] of a git command. *)
Ltac cmd_cases :=
  repeat match goal with
  | |- context [match ?x with _ => _ end] => destruct x eqn:?
  end.

(* ================================================================= *)
(** * Properties *)

Module RetryProofs.
Import Retry.
Local Open Scope Q_scope.

Lemma Qfloor_Qeq (x y : Q) : x == y -> Qfloor x = Qfloor y.
Proof.
  intros H. apply Z.le_antisymm; apply Qfloor_resp_le; rewrite H; apply Qle_refl.
Qed.

Lemma jitter_between (m r : Q) : 0 <= m -> 0 <= r < 1 ->
  m <= m + m * (1 # 4) * r /\ m + m * (1 # 4) * r <= (5 # 4) * m.
Proof. intros Hm [Hr0 Hr1]. split; nra. Qed.

Lemma pow2_pos (k : Z) : 0 < Qpower (2 # 1) k.
Proof. apply Qpower_0_lt. reflexivity. Qed.

Lemma pow2_succ (k : Z) : Qpower (2 # 1) (k + 1 - 1) == (2 # 1) * Qpower (2 # 1) (k - 1).
Proof.
  replace (k + 1 - 1)%Z with (1 + (k - 1))%Z by lia.
  rewrite Qpower_plus by discriminate. reflexivity.
Qed.

Lemma capped_nonneg (base mx : Q) (k : Z) : 0 <= base -> 0 <= mx ->
  0 <= Qmin (base * Qpower (2 # 1) (k - 1)) mx.
Proof.
  intros Hb Hm. apply Q.min_glb; [|exact Hm].
  apply Qmult_le_0_compat; [exact Hb|apply Qlt_le_weak, pow2_pos].
Qed.

(** Every delay lies between the floor of the capped exponential value
    and 125% of it. *)
Lemma backoff_between (k : Z) (base mx r : Q) (jit : bool) :
  0 <= base -> 0 <= mx -> 0 <= r < 1 ->
  let m := Qmin (base * Qpower (2 # 1) (k - 1)) mx in
  (Qfloor m <= calculateBackoffDelay k base mx jit r)%Z /\
  inject_Z (calculateBackoffDelay k base mx jit r) <= (5 # 4) * m.
Proof.
  intros Hb Hm Hr m.
  pose proof (capped_nonneg base mx k Hb Hm) as Hm0. fold m in Hm0.
  destruct (jitter_between m r Hm0 Hr) as [J1 J2].
  unfold calculateBackoffDelay; fold m. destruct jit; split.
  - apply Qfloor_resp_le. exact J1.
  - eapply Qle_trans; [apply Qfloor_le|exact J2].
  - lia.
  - eapply Qle_trans; [apply Qfloor_le|]. nra.
Qed.

(** Without jitter and with whole-millisecond inputs the delay is exactly
    [min(baseDelay * 2^(k-1), maxDelay)]. *)
Lemma backoff_exact (k b c : Z) (r : Q) : (1 <= k)%Z ->
  calculateBackoffDelay k (inject_Z b) (inject_Z c) false r = Z.min (b * 2 ^ (k - 1)) c.
Proof.
  intros Hk. unfold calculateBackoffDelay.
  rewrite <- (Qfloor_Z (Z.min _ _)). apply Qfloor_Qeq.
  assert (E : inject_Z b * Qpower (2 # 1) (k - 1) == inject_Z (b * 2 ^ (k - 1))).
  { rewrite inject_Z_mult, Zpower_Qpower by lia. reflexivity. }
  rewrite E. destruct (Z.min_spec (b * 2 ^ (k - 1)) c) as [[Hlt ->]|[Hle ->]].
  - apply Q.min_l. rewrite <- Zle_Qle. lia.
  - apply Q.min_r. rewrite <- Zle_Qle. lia.
Qed.

(** Without jitter the delay never decreases from one attempt to the next. *)
Lemma backoff_mono_nojitter (k : Z) (base mx r r' : Q) :
  0 <= base -> 0 <= mx ->
  (calculateBackoffDelay k base mx false r <= calculateBackoffDelay (k + 1) base mx false r')%Z.
Proof.
  intros Hb Hm. unfold calculateBackoffDelay. apply Qfloor_resp_le.
  apply Q.min_le_compat_r. rewrite pow2_succ.
  pose proof (pow2_pos (k - 1)). nra.
Qed.

(** With jitter, the delay never decreases while the next attempt is still
    below the cap. *)
Lemma backoff_mono_jitter (k : Z) (base mx r r' : Q) :
  0 <= base -> 0 <= mx -> 0 <= r < 1 -> 0 <= r' < 1 ->
  base * Qpower (2 # 1) k <= mx ->
  (calculateBackoffDelay k base mx true r <= calculateBackoffDelay (k + 1) base mx true r')%Z.
Proof.
  intros Hb Hm Hr Hr' Hcap.
  pose proof (pow2_pos (k - 1)) as Hp.
  assert (Hk : Qpower (2 # 1) k == (2 # 1) * Qpower (2 # 1) (k - 1)).
  { rewrite <- pow2_succ. replace (k + 1 - 1)%Z with k by lia. reflexivity. }
  rewrite Hk in Hcap.
  set (d := base * Qpower (2 # 1) (k - 1)) in *.
  assert (Hd : 0 <= d) by (unfold d; nra).
  unfold calculateBackoffDelay. fold d. rewrite pow2_succ.
  setoid_replace (base * ((2 # 1) * Qpower (2 # 1) (k - 1))) with ((2 # 1) * d)
    by (unfold d; ring).
  assert (M1 : Qmin d mx <= d) by apply Q.le_min_l.
  assert (M2 : (2 # 1) * d <= Qmin ((2 # 1) * d) mx)
    by (apply Q.min_glb; [apply Qle_refl|unfold d; nra]).
  pose proof (capped_nonneg base mx k Hb Hm) as H1. fold d in H1.
  assert (H2 : 0 <= Qmin ((2 # 1) * d) mx) by (apply Q.min_glb; nra).
  apply Qfloor_resp_le.
  destruct (jitter_between _ r H1 Hr) as [_ J1].
  destruct (jitter_between _ r' H2 Hr') as [J2 _].
  nra.
Qed.
(** Proves the corrected C4 (backoff delay of calculateBackoffDelay): for attempt
    [k >= 1] and non-negative base and maximum delays, with
    [m = min(baseDelay * 2^(k-1), maxDelay)], the delay is an integer with
    [floor m <= delay <= 1.25 m]; without jitter it is [floor m], which is
    exactly [m] for whole-millisecond inputs, and it never decreases in [k];
    with jitter it never decreases from [k] to [k+1] while
    [baseDelay * 2^k <= maxDelay]. *)
Theorem backoff_delay_spec (k : Z) (base mx r r' : Q) (jit : bool) :
  (1 <= k)%Z -> 0 <= base -> 0 <= mx -> 0 <= r < 1 -> 0 <= r' < 1 ->
  let m := Qmin (base * Qpower (2 # 1) (k - 1)) mx in
  (Qfloor m <= calculateBackoffDelay k base mx jit r)%Z /\
  inject_Z (calculateBackoffDelay k base mx jit r) <= (5 # 4) * m /\
  calculateBackoffDelay k base mx false r = Qfloor m /\
  (forall b c : Z,
     calculateBackoffDelay k (inject_Z b) (inject_Z c) false r = Z.min (b * 2 ^ (k - 1)) c) /\
  (calculateBackoffDelay k base mx false r <= calculateBackoffDelay (k + 1) base mx false r')%Z /\
  (base * Qpower (2 # 1) k <= mx ->
   (calculateBackoffDelay k base mx true r <= calculateBackoffDelay (k + 1) base mx true r')%Z).
Proof.
  intros Hk Hb Hm Hr Hr' m.
  destruct (backoff_between k base mx r jit Hb Hm Hr) as [B1 B2].
  repeat split; try assumption.
  - intros b c. apply backoff_exact. exact Hk.
  - apply backoff_mono_nojitter; assumption.
  - intros Hcap. apply backoff_mono_jitter; assumption.
Qed.

Lemma backoff_delay_spec_witness :
  let m := Qmin (1000 * Qpower (2 # 1) (3 - 1)) 60000 in
  (Qfloor m <= calculateBackoffDelay 3 1000 60000 true (1 # 2))%Z /\
  inject_Z (calculateBackoffDelay 3 1000 60000 true (1 # 2)) <= (5 # 4) * m /\
  calculateBackoffDelay 3 1000 60000 false (1 # 2) = Qfloor m /\
  (forall b c : Z,
     calculateBackoffDelay 3 (inject_Z b) (inject_Z c) false (1 # 2) = Z.min (b * 2 ^ (3 - 1)) c) /\
  (calculateBackoffDelay 3 1000 60000 false (1 # 2) <= calculateBackoffDelay (3 + 1) 1000 60000 false 0)%Z /\
  (1000 * Qpower (2 # 1) 3 <= 60000 ->
   (calculateBackoffDelay 3 1000 60000 true (1 # 2) <= calculateBackoffDelay (3 + 1) 1000 60000 true 0)%Z).
Proof.
  apply (backoff_delay_spec 3 1000 60000 (1 # 2) 0 true);
    [lia | vm_compute; discriminate | vm_compute; discriminate
    | split; vm_compute; [discriminate | reflexivity]
    | split; vm_compute; [discriminate | reflexivity]].
Defined.

(** C4 as stated fails: once the cap applies, the delay is below
    [baseDelay * 2^(k-1)] (attempt 8, base 1000 ms, cap 60000 ms). *)
Lemma backoff_lower_bound_fails :
  ~ (1000 * Qpower (2 # 1) (8 - 1) <= inject_Z (calculateBackoffDelay 8 1000 60000 false 0)).
Proof. vm_compute. intros H. apply H. reflexivity. Qed.

(** *** withRetry *)

Section AllFail.
Context {A : Type}.
Variable errs : Z -> thrown.
Variable random : Z -> Q.
Variable options : RetryOptions.

Let n := maxRetries options.
Let failing : Z -> outcome A := fun a => Reject (errs a).

Lemma retry_loop_all_fail (fuel : nat) : forall (a : Z) (last : option thrown),
  (1 <= a <= n)%Z -> Z.of_nat fuel = (n - a + 1)%Z ->
  retry_loop failing random options fuel a last =
  (flat_map (failed_attempt_events errs random options) (map Z.of_nat (seq (Z.to_nat a) fuel)),
   Threw (toError (errs n))).
Proof.
  induction fuel as [|fuel IH]; intros a last Ha Hf; [lia|].
  cbn [retry_loop]. fold n.
  rewrite (proj2 (Z.leb_le a n)) by lia. unfold failing at 1.
  destruct fuel as [|fuel'].
  - assert (a = n) by lia. subst a.
    rewrite Z.ltb_irrefl. cbn. rewrite Z2Nat.id by lia.
    unfold failed_attempt_events. rewrite Z.ltb_irrefl. reflexivity.
  - rewrite (IH (a + 1)%Z) by lia.
    replace (Z.to_nat (a + 1)) with (S (Z.to_nat a)) by lia.
    cbn [seq map flat_map]. rewrite Z2Nat.id by lia. reflexivity.
Qed.
End AllFail.

Lemma retry_loop_erase {A} (e1 e2 : Z -> thrown) random options (fuel : nat) :
  forall a last1 last2,
  map erase_message (fst (retry_loop (A:=A) (fun x => Reject (e1 x)) random options fuel a last1)) =
  map erase_message (fst (retry_loop (A:=A) (fun x => Reject (e2 x)) random options fuel a last2)) /\
  threw (snd (retry_loop (A:=A) (fun x => Reject (e1 x)) random options fuel a last1)) = true.
Proof.
  induction fuel as [|fuel IH]; intros a last1 last2.
  - cbn. destruct last1; split; reflexivity.
  - cbn [retry_loop]. destruct (a <=? maxRetries options).
    + destruct (IH (a + 1)%Z (Some (toError (e1 a))) (Some (toError (e2 a)))) as [IH1 IH2].
      destruct (retry_loop _ random options fuel (a + 1) (Some (toError (e1 a)))) as [evs1 r1].
      destruct (retry_loop _ random options fuel (a + 1) (Some (toError (e2 a)))) as [evs2 r2].
      cbn in IH1, IH2 |- *. split; [|exact IH2].
      f_equal. rewrite !map_app. f_equal; [|exact IH1].
      destruct (a <? maxRetries options), (onRetry options); reflexivity.
    + cbn. destruct last1; split; reflexivity.
Qed.

Lemma invocations_failed_attempts (errs : Z -> thrown) random options (l : list Z) :
  invocations (flat_map (failed_attempt_events errs random options) l) = List.length l.
Proof.
  induction l as [|a l IH]; [reflexivity|].
  cbn [flat_map]. unfold invocations in *. rewrite filter_app, length_app, IH.
  unfold failed_attempt_events.
  destruct (a <? maxRetries options), (onRetry options); reflexivity.
Qed.

Lemma withRetry_rejects {A} (errs : Z -> thrown) random options :
  (1 <= maxRetries options)%Z ->
  withRetry (A:=A) (fun a => Reject (errs a)) random options =
  (flat_map (failed_attempt_events errs random options)
            (map Z.of_nat (seq 1 (Z.to_nat (maxRetries options)))),
   Threw (toError (errs (maxRetries options)))).
Proof.
  intros Hn. unfold withRetry.
  apply retry_loop_all_fail; lia.
Qed.

Lemma withRetry_nonpositive {A} (fn : Z -> outcome A) random options :
  (maxRetries options <= 0)%Z ->
  withRetry fn random options = ([], Threw (JsError "All retry attempts failed")).
Proof.
  intros Hn. unfold withRetry. replace (Z.to_nat (maxRetries options)) with O by lia.
  reflexivity.
Qed.

(** Proves the corrected C8 (withRetry when every attempt fails): for
    [maxRetries >= 1], when every invocation of the wrapped operation
    rejects, [withRetry] invokes it at attempts [1..maxRetries] in order;
    after every failed attempt but the last it calls [onRetry] (when
    given) with the attempt number, the error message and the next delay,
    then sleeps that delay; finally it throws the final attempt's error,
    normalised to an [Error].  For [maxRetries <= 0], whatever the
    operation, [withRetry] invokes it never, calls no callback, sleeps
    never and throws the generic ["All retry attempts failed"] error. *)
Theorem withRetry_all_fail {A} (errs : Z -> thrown) random options :
  ((1 <= maxRetries options)%Z ->
   withRetry (A:=A) (fun a => Reject (errs a)) random options =
   (flat_map (failed_attempt_events errs random options)
             (map Z.of_nat (seq 1 (Z.to_nat (maxRetries options)))),
    Threw (toError (errs (maxRetries options))))) /\
  ((maxRetries options <= 0)%Z ->
   forall fn : Z -> outcome A,
   withRetry fn random options = ([], Threw (JsError "All retry attempts failed"))).
Proof.
  split.
  - apply withRetry_rejects.
  - intros Hn fn. apply withRetry_nonpositive. exact Hn.
Qed.

Local Abbreviation opts3 :=
  {| maxRetries := 3; retryDelay := 1; onRetry := true;
     exponentialBackoff := None; maxDelay := None; jitter := None |} (only parsing).
Local Abbreviation opts0 :=
  {| maxRetries := 0; retryDelay := 5; onRetry := true;
     exponentialBackoff := None; maxDelay := None; jitter := None |} (only parsing).

Lemma withRetry_all_fail_witness :
  ((1 <= maxRetries opts3)%Z /\
   withRetry (A:=unit) (fun a => Reject (JsError "rate limit")) (fun _ => 0%Q) opts3 =
   (flat_map (failed_attempt_events (fun _ => JsError "rate limit") (fun _ => 0%Q) opts3)
     (map Z.of_nat (seq 1 (Z.to_nat 3))),
    Threw (toError (JsError "rate limit")))) /\
  ((maxRetries opts0 <= 0)%Z /\
   withRetry (A:=unit) (fun a => Reject (JsError "boom")) (fun _ => 0%Q) opts0 =
   ([], Threw (JsError "All retry attempts failed"))).
Proof.
  split.
  - split; [cbn; lia|].
    apply (proj1 (withRetry_all_fail (A:=unit) (fun _ => JsError "rate limit") (fun _ => 0%Q) opts3)).
    cbn. lia.
  - split; [cbn; lia|].
    apply (proj2 (withRetry_all_fail (A:=unit) (fun _ => JsError "boom") (fun _ => 0%Q) opts0)).
    cbn. lia.
Defined.

(** C8 as stated fails for [maxRetries = 0]: the operation is never
    invoked and the error thrown is the generic
    ["All retry attempts failed"], not an error of the operation. *)
Lemma withRetry_zero_retries :
  fst (withRetry (A:=unit) (fun _ => Reject (JsError "boom")) (fun _ => 0%Q) opts0) = [] /\
  snd (withRetry (A:=unit) (fun _ => Reject (JsError "boom")) (fun _ => 0%Q) opts0)
  <> Threw (toError (JsError "boom")).
Proof. split; [reflexivity|]. vm_compute. discriminate. Qed.

(** Proves C9 (error classification is not enforced inside withRetry): for
    any two operations that always reject, whatever their errors (retryable
    or not by [isRetryableError]), [withRetry] produces the same events up
    to the error messages it passes on, performs [maxRetries] invocations
    (none when [maxRetries <= 0]) and ends by throwing. *)
Theorem withRetry_ignores_classification {A} (e1 e2 : Z -> thrown) random options :
  map erase_message (fst (withRetry (A:=A) (fun a => Reject (e1 a)) random options)) =
  map erase_message (fst (withRetry (A:=A) (fun a => Reject (e2 a)) random options)) /\
  invocations (fst (withRetry (A:=A) (fun a => Reject (e1 a)) random options)) =
  Z.to_nat (maxRetries options) /\
  threw (snd (withRetry (A:=A) (fun a => Reject (e1 a)) random options)) = true.
Proof.
  destruct (retry_loop_erase (A:=A) e1 e2 random options
              (Z.to_nat (maxRetries options)) 1 None None) as [H1 H2].
  split; [exact H1|]. split; [|exact H2].
  destruct (Z_le_gt_dec 1 (maxRetries options)) as [Hn|Hn].
  - rewrite (withRetry_rejects e1 random options Hn). cbn [fst].
    rewrite invocations_failed_attempts, length_map, length_seq. reflexivity.
  - unfold withRetry. replace (Z.to_nat (maxRetries options)) with O by lia. reflexivity.
Qed.

End RetryProofs.

Module BytesProofs.
Import Bytes.

Lemma ascii_eqb_false (a b : ascii) : Ascii.eqb a b = false <-> a <> b.
Proof. rewrite <- Ascii.eqb_eq. destruct (Ascii.eqb a b); split; congruence. Qed.

Lemma bytes_split_lf_nonempty (s : list ascii) : split_lf s <> [].
Proof.
  destruct s as [|c t]; cbn; [discriminate|].
  destruct (Ascii.eqb c LF); [discriminate|]. destruct (split_lf t); discriminate.
Qed.

Lemma bytes_split_lf_no_LF (s : list ascii) : Forall (fun l => ~ In LF l) (split_lf s).
Proof.
  induction s as [|d t IH]; cbn.
  - constructor; [intros []|constructor].
  - destruct (Ascii.eqb d LF) eqn:E.
    + constructor; [intros []|exact IH].
    + apply ascii_eqb_false in E.
      destruct (split_lf t) as [|l ls]; constructor.
      * intros [H|[]]. congruence.
      * constructor.
      * inversion IH; subst. intros [H|Hin]; [congruence|contradiction].
      * inversion IH; assumption.
Qed.

Lemma bytes_split_lf_app (l r : list ascii) : ~ In LF l ->
  split_lf (l ++ r) = (l ++ hd [] (split_lf r)) :: tl (split_lf r).
Proof.
  induction l as [|c t IH]; intros H.
  - cbn. destruct (split_lf r) eqn:E; [exfalso; exact (bytes_split_lf_nonempty r E)|reflexivity].
  - cbn [app split_lf].
    assert (Hc : Ascii.eqb c LF = false)
      by (apply ascii_eqb_false; intros E; apply H; left; exact E).
    rewrite Hc, IH by (intros Hin; apply H; right; exact Hin). reflexivity.
Qed.

Lemma bytes_starts_with_split (p s : list ascii) :
  starts_with p s = true -> s = p ++ skipn (List.length p) s.
Proof.
  revert s. induction p as [|c p IH]; intros s H; [reflexivity|].
  destruct s as [|d s]; [discriminate|]. cbn in H |- *.
  apply andb_prop in H as [H1 H2]. apply Ascii.eqb_eq in H1. subst d.
  f_equal. apply IH. exact H2.
Qed.

Lemma to_uint_not_nil (n : nat) : Nat.to_uint n <> Decimal.Nil.
Proof.
  intros H. pose proof (DecimalNat.Unsigned.of_to n) as E. rewrite H in E.
  cbn in E. subst n. discriminate H.
Qed.

End BytesProofs.

Module MarkdownProofs.
Import Markdown.

Lemma unit_eqb_true (a b : code_unit) : N.eqb a b = true <-> a = b.
Proof. apply N.eqb_eq. Qed.

Lemma unit_eqb_false (a b : code_unit) : N.eqb a b = false <-> a <> b.
Proof. rewrite <- unit_eqb_true. destruct (N.eqb a b); split; congruence. Qed.

Lemma CR_not_LF : CR <> LF.
Proof. discriminate. Qed.

Lemma replace_cr_no_CR (s : jsstring) : ~ In CR (replace_cr s).
Proof.
  unfold replace_cr. intros H. apply in_map_iff in H as [c [Hc _]].
  destruct (N.eqb c CR) eqn:E.
  - apply CR_not_LF. congruence.
  - apply unit_eqb_false in E. congruence.
Qed.

Lemma normalized_no_CR (file : jsstring) : ~ In CR (readFileNormalized file).
Proof. apply replace_cr_no_CR. Qed.

Lemma normalized_id (s : jsstring) : ~ In CR s -> readFileNormalized s = s.
Proof.
  intros H. unfold readFileNormalized.
  assert (E : replace_crlf s = s).
  { induction s as [|c t IH]; [reflexivity|]. cbn.
    destruct (N.eqb c CR) eqn:Ec.
    - apply unit_eqb_true in Ec. subst. exfalso. apply H. left. reflexivity.
    - rewrite IH; [reflexivity|]. intros Hin. apply H. right. exact Hin. }
  rewrite E. unfold replace_cr. rewrite <- (map_id s) at 2. apply map_ext_in.
  intros c Hc. destruct (N.eqb c CR) eqn:Ec; [|reflexivity].
  apply unit_eqb_true in Ec. subst. contradiction.
Qed.

Lemma split_lf_nonempty (s : jsstring) : split_lf s <> [].
Proof.
  destruct s as [|c t]; cbn; [discriminate|].
  destruct (N.eqb c LF); [discriminate|]. destruct (split_lf t); discriminate.
Qed.

Lemma split_lf_pieces (c : code_unit) (s : jsstring) :
  ~ In c s -> Forall (fun l => ~ In c l) (split_lf s).
Proof.
  induction s as [|d t IH]; intros H; cbn.
  - constructor; [intros []|constructor].
  - assert (Ht : ~ In c t) by (intros Hin; apply H; right; exact Hin).
    specialize (IH Ht). destruct (N.eqb d LF).
    + constructor; [intros []|exact IH].
    + destruct (split_lf t) as [|l ls]; constructor.
      * intros [E|[]]. apply H. left. exact E.
      * constructor.
      * intros [E|Hin]; apply H; [left; exact E|]. inversion IH; subst. contradiction.
      * inversion IH; assumption.
Qed.

Lemma split_lf_no_LF (s : jsstring) : Forall (fun l => ~ In LF l) (split_lf s).
Proof.
  induction s as [|d t IH]; cbn.
  - constructor; [intros []|constructor].
  - destruct (N.eqb d LF) eqn:E.
    + constructor; [intros []|exact IH].
    + apply unit_eqb_false in E.
      destruct (split_lf t) as [|l ls]; constructor.
      * intros [H|[]]. congruence.
      * constructor.
      * inversion IH; subst. intros [H|Hin]; [congruence|contradiction].
      * inversion IH; assumption.
Qed.

Lemma split_lf_app (l r : jsstring) : ~ In LF l ->
  split_lf (l ++ r) = (l ++ hd [] (split_lf r)) :: tl (split_lf r).
Proof.
  induction l as [|c t IH]; intros H.
  - cbn. destruct (split_lf r) eqn:E; [exfalso; exact (split_lf_nonempty r E)|reflexivity].
  - cbn [app split_lf].
    assert (Hc : N.eqb c LF = false)
      by (apply unit_eqb_false; intros E; apply H; left; exact E).
    rewrite Hc, IH by (intros Hin; apply H; right; exact Hin). reflexivity.
Qed.

Lemma split_join (ls : list jsstring) : ls <> [] -> Forall (fun l => ~ In LF l) ls ->
  split_lf (join_lf ls) = ls.
Proof.
  induction ls as [|l ls IH]; intros Hne Hf; [congruence|].
  inversion Hf as [|? ? Hl Hls]; subst.
  destruct ls as [|l2 ls'].
  - cbn [join_lf]. rewrite <- (app_nil_r l) at 1. rewrite split_lf_app by exact Hl.
    rewrite app_nil_r. reflexivity.
  - change (join_lf (l :: l2 :: ls')) with (l ++ LF :: join_lf (l2 :: ls')).
    rewrite split_lf_app by exact Hl. cbn [split_lf].
    rewrite (proj2 (unit_eqb_true LF LF) eq_refl). cbn [hd tl].
    rewrite app_nil_r, IH; [reflexivity|discriminate|exact Hls].
Qed.

Lemma join_no (c : code_unit) (ls : list jsstring) : c <> LF ->
  Forall (fun l => ~ In c l) ls -> ~ In c (join_lf ls).
Proof.
  intros Hc. induction ls as [|l ls IH]; intros Hf; [intros []|].
  inversion Hf as [|? ? Hl Hls]; subst.
  destruct ls as [|l2 ls']; [exact Hl|].
  change (join_lf (l :: l2 :: ls')) with (l ++ LF :: join_lf (l2 :: ls')).
  intros Hin. apply in_app_or in Hin as [Hin|[E|Hin]].
  - contradiction.
  - congruence.
  - exact (IH Hls Hin).
Qed.

Lemma replace_unchecked_no (c : code_unit) (l : jsstring) :
  ~ In c checked -> ~ In c l -> ~ In c (replace_unchecked l).
Proof.
  intros Hc Hl. unfold replace_unchecked.
  destruct (starts_with unchecked l); [|exact Hl].
  intros Hin. apply in_app_or in Hin as [Hin|Hin].
  - exact (Hc Hin).
  - apply Hl. rewrite <- (firstn_skipn 6 l). apply in_or_app. right. exact Hin.
Qed.

Lemma LF_not_checked : ~ In LF checked.
Proof. cbv. intuition discriminate. Qed.

Lemma CR_not_checked : ~ In CR checked.
Proof. cbv. intuition discriminate. Qed.

Lemma replace_unchecked_idem (l : jsstring) :
  replace_unchecked (replace_unchecked l) = replace_unchecked l.
Proof.
  unfold replace_unchecked. destruct (starts_with unchecked l) eqn:E.
  - reflexivity.
  - rewrite E. reflexivity.
Qed.

Lemma replace_unchecked_completed (l : jsstring) :
  is_completed_line l = true -> is_completed_line (replace_unchecked l) = true.
Proof.
  intros H. unfold replace_unchecked.
  destruct (starts_with unchecked l); [reflexivity|exact H].
Qed.

Lemma assign_index_length {T} (l : list T) i x :
  List.length (assign_index l i x) = List.length l.
Proof.
  revert i. induction l as [|y t IH]; intros [|i]; cbn; try rewrite IH; reflexivity.
Qed.

Lemma assign_index_nth {T} (l : list T) i x j d : (i < List.length l)%nat ->
  nth j (assign_index l i x) d = if Nat.eqb j i then x else nth j l d.
Proof.
  revert i j. induction l as [|y t IH]; intros i j Hi; cbn in Hi; [lia|].
  destruct i as [|i], j as [|j]; cbn; try reflexivity.
  apply IH. lia.
Qed.

Lemma assign_index_same {T} (l : list T) i d :
  assign_index l i (nth i l d) = l.
Proof.
  revert i. induction l as [|y t IH]; intros [|i]; cbn; try rewrite IH; reflexivity.
Qed.

Lemma assign_index_twice {T} (l : list T) i x y :
  assign_index (assign_index l i x) i y = assign_index l i y.
Proof.
  revert i. induction l as [|z t IH]; intros [|i]; cbn; try rewrite IH; reflexivity.
Qed.

Lemma assign_index_Forall {T} (P : T -> Prop) (l : list T) i x :
  Forall P l -> P x -> Forall P (assign_index l i x).
Proof.
  revert i. induction l as [|y t IH]; intros i Hl Hx.
  - destruct i; constructor.
  - inversion Hl; subst. destruct i; cbn; constructor; auto.
Qed.

Lemma assign_index_nonempty {T} (l : list T) i x : l <> [] -> assign_index l i x <> [].
Proof. destruct l, i; cbn; congruence. Qed.

Lemma count_assign_mono (f : jsstring -> bool) (g : jsstring -> jsstring)
  (Hg : forall y, f y = true -> f (g y) = true) (l : list jsstring) i d :
  (List.length (filter f l) <= List.length (filter f (assign_index l i (g (nth i l d)))))%nat.
Proof.
  revert i. induction l as [|y t IH]; intros i.
  - destruct i; cbn; lia.
  - destruct i as [|i]; cbn.
    + destruct (f y) eqn:E; [rewrite (Hg y E)|destruct (f (g y))]; cbn; lia.
    + specialize (IH i). destruct (f y); cbn; lia.
Qed.

Lemma markComplete_cases (file : jsstring) (id : jsstring) :
  (in_range file id = None /\ markComplete file id = file) \/
  (exists i, in_range file id = Some i /\ (i < List.length (lines_of file))%nat /\
     markComplete file id =
     join_lf (assign_index (lines_of file) i (replace_unchecked (nth i (lines_of file) [])))).
Proof.
  unfold in_range, markComplete. fold (lines_of file).
  destruct (option_map _ (parseInt10 id)) as [ln|]; [|left; split; reflexivity].
  destruct ((0 <=? ln) && (ln <? Z.of_nat (List.length (lines_of file)))) eqn:E.
  - right. exists (Z.to_nat ln). apply andb_prop in E as [E1 E2].
    apply Z.leb_le in E1. apply Z.ltb_lt in E2. split; [reflexivity|split; [lia|reflexivity]].
  - left. split; reflexivity.
Qed.

(** Lines written by [markComplete] contain neither [CR] nor [LF]. *)
Lemma written_lines_ok (file : jsstring) i :
  let L := assign_index (lines_of file) i (replace_unchecked (nth i (lines_of file) [])) in
  L <> [] /\ Forall (fun l => ~ In LF l) L /\ Forall (fun l => ~ In CR l) L.
Proof.
  intros L. unfold L, lines_of. split; [apply assign_index_nonempty, split_lf_nonempty|].
  pose proof (split_lf_no_LF (readFileNormalized file)) as HLF.
  pose proof (split_lf_pieces CR _ (normalized_no_CR file)) as HCR.
  split; apply assign_index_Forall; try assumption;
    apply replace_unchecked_no; try first [exact LF_not_checked|exact CR_not_checked].
  - destruct (Nat.lt_ge_cases i (List.length (split_lf (readFileNormalized file)))) as [Hi|Hi].
    + exact (proj1 (Forall_forall _ _) HLF _ (nth_In _ _ Hi)).
    + rewrite nth_overflow by exact Hi. intros [].
  - destruct (Nat.lt_ge_cases i (List.length (split_lf (readFileNormalized file)))) as [Hi|Hi].
    + exact (proj1 (Forall_forall _ _) HCR _ (nth_In _ _ Hi)).
    + rewrite nth_overflow by exact Hi. intros [].
Qed.

(** Reading back what [markComplete] wrote gives the updated lines. *)
Lemma lines_of_written (file : jsstring) i :
  lines_of (join_lf (assign_index (lines_of file) i (replace_unchecked (nth i (lines_of file) [])))) =
  assign_index (lines_of file) i (replace_unchecked (nth i (lines_of file) [])).
Proof.
  destruct (written_lines_ok file i) as [Hne [HLF HCR]].
  unfold lines_of at 1. rewrite normalized_id.
  - apply split_join; assumption.
  - apply join_no; [exact CR_not_LF|exact HCR].
Qed.

Lemma countCompleted_markComplete (file : jsstring) (id : jsstring) :
  (countCompleted file <= countCompleted (markComplete file id))%nat.
Proof.
  destruct (markComplete_cases file id) as [[_ ->]|[i [_ [_ ->]]]]; [lia|].
  unfold countCompleted. fold (lines_of file).
  fold (lines_of (join_lf (assign_index (lines_of file) i
          (replace_unchecked (nth i (lines_of file) []))))).
  rewrite lines_of_written. apply count_assign_mono. apply replace_unchecked_completed.
Qed.

Lemma markComplete_idem (file : jsstring) (id : jsstring) :
  markComplete (markComplete file id) id = markComplete file id.
Proof.
  destruct (markComplete_cases file id) as [[_ E]|[i [Hr [Hi E]]]]; rewrite E; [exact E|].
  set (L := assign_index (lines_of file) i (replace_unchecked (nth i (lines_of file) []))).
  destruct (markComplete_cases (join_lf L) id) as [[Hr' E']|[j [Hr' [Hj E']]]].
  - exact E'.
  - rewrite E'. fold L. unfold L at 1 2. rewrite lines_of_written. fold L.
    assert (Hij : j = i).
    { unfold in_range in Hr, Hr'. fold L in Hr'.
      unfold L in Hr'. rewrite lines_of_written, assign_index_length in Hr'. fold L in Hr'.
      destruct (option_map _ (parseInt10 id)); [|discriminate].
      destruct (_ && _); congruence. }
    subst j. unfold L at 2.
    rewrite assign_index_nth by exact Hi. rewrite Nat.eqb_refl, replace_unchecked_idem.
    unfold L. rewrite assign_index_twice. reflexivity.
Qed.
Lemma countCompleted_markCompleteAll (ids : list jsstring) : forall file,
  (countCompleted file <= countCompleted (markCompleteAll file ids))%nat.
Proof.
  induction ids as [|id ids IH]; intros file; cbn [markCompleteAll]; [apply Nat.le_refl|].
  etransitivity; [apply (countCompleted_markComplete file id)|apply IH].
Qed.

(** Proves C10 (markComplete of the markdown task source): a second
    [markComplete(id)] leaves the file as the first call left it, so the
    completed count does not change again; [countCompleted] never decreases
    along any sequence of [markComplete] calls; an id whose line number is
    not within the file's lines (or is [NaN]) leaves the file unchanged; a
    valid id keeps the number of lines, replaces the line it names by
    [replace_unchecked] of it (a leading ["- [ ] "] becomes ["- [x] "]) and
    keeps every other line.  Lines are those of the normalised content
    ([\r\n] and [\r] read as [\n]), as [markComplete] and [countCompleted]
    read them. *)
Theorem markComplete_spec (file : jsstring) (id : jsstring) :
  markComplete (markComplete file id) id = markComplete file id /\
  countCompleted (markComplete (markComplete file id) id) = countCompleted (markComplete file id) /\
  (forall ids, (countCompleted file <= countCompleted (markCompleteAll file ids))%nat) /\
  (in_range file id = None -> markComplete file id = file) /\
  (forall i, in_range file id = Some i ->
     List.length (lines_of (markComplete file id)) = List.length (lines_of file) /\
     nth i (lines_of (markComplete file id)) [] = replace_unchecked (nth i (lines_of file) []) /\
     (forall j, j <> i -> nth j (lines_of (markComplete file id)) [] = nth j (lines_of file) [])).
Proof.
  split; [apply markComplete_idem|].
  split; [rewrite markComplete_idem; reflexivity|].
  split; [intros ids; apply countCompleted_markCompleteAll|].
  destruct (markComplete_cases file id) as [[Hr E]|[i [Hr [Hi E]]]].
  - split; [intros _; exact E|]. intros i Hi. exfalso. congruence.
  - split; [intros H; exfalso; congruence|]. intros i' Hi'. rewrite Hr in Hi'. injection Hi' as <-.
    rewrite E, lines_of_written, assign_index_length.
    split; [reflexivity|]. split.
    + rewrite assign_index_nth, Nat.eqb_refl by exact Hi. reflexivity.
    + intros j Hj. rewrite assign_index_nth by exact Hi.
      apply Nat.eqb_neq in Hj. rewrite Hj. reflexivity.
Qed.

Lemma markComplete_spec_witness :
  let file := js "- [ ] a
- [ ] b" in
  markComplete (markComplete file (js "1")) (js "1") = markComplete file (js "1") /\
  countCompleted (markComplete (markComplete file (js "1")) (js "1")) = countCompleted (markComplete file (js "1")) /\
  (forall ids, (countCompleted file <= countCompleted (markCompleteAll file ids))%nat) /\
  (in_range file (js "1") = None -> markComplete file (js "1") = file) /\
  (forall i, in_range file (js "1") = Some i ->
     List.length (lines_of (markComplete file (js "1"))) = List.length (lines_of file) /\
     nth i (lines_of (markComplete file (js "1"))) [] = replace_unchecked (nth i (lines_of file) []) /\
     (forall j, j <> i -> nth j (lines_of (markComplete file (js "1"))) [] = nth j (lines_of file) [])).
Proof. intros file. exact (markComplete_spec file (js "1")). Defined.

End MarkdownProofs.


Module AgentProofs.
Import Agent.




Local Abbreviation login_ok :=
  {| worktree_created := true; responses := ["{}"%string];
     parsed_tokens := ("120"%string, "45"%string); rev_list_out := "2"%string;
     branch_name := "ralphy/agent-1-add-login"%string |} (only parsing).
Local Abbreviation page_no_commit :=
  {| worktree_created := true; responses := ["{}"%string];
     parsed_tokens := ("80"%string, "30"%string); rev_list_out := "0"%string;
     branch_name := "ralphy/agent-2-add-login-page"%string |} (only parsing).


End AgentProofs.

Module SchedulerProofs.
Import Scheduler.
Local Open Scope nat_scope.

Lemma ceil_step (m c : nat) : 0 < c -> 0 < m ->
  (m + c - 1) / c = S ((m - Nat.min c m + c - 1) / c).
Proof.
  intros Hc Hm. destruct (Nat.le_ge_cases c m) as [Hle|Hle].
  - rewrite Nat.min_l by exact Hle.
    replace (m + c - 1) with ((m - c + c - 1) + 1 * c) by lia.
    rewrite Nat.div_add by lia. lia.
  - rewrite Nat.min_r by exact Hle. replace (m - m + c - 1) with (c - 1) by lia.
    rewrite (Nat.div_small (c - 1) c) by lia. symmetry. apply (Nat.div_unique _ _ 1 (m - 1)); lia.
Qed.

Lemma batch_loop_partition {T} (c : nat) (tasks : list T) (Hc : 0 < c) (fuel : nat) :
  forall start it, List.length tasks - start < fuel ->
  let bs := fst (batch_loop c 0 tasks fuel start it) in
  List.concat bs = skipn start tasks /\
  Forall (fun b => 0 < List.length b <= c) bs /\
  List.length bs = (List.length tasks - start + c - 1) / c.
Proof.
  induction fuel as [|fuel IH]; intros start it Hf; [lia|].
  cbn [batch_loop]. destruct (start <? List.length tasks) eqn:Hs.
  - apply Nat.ltb_lt in Hs. cbn [andb Nat.ltb Nat.leb].
    set (be := Nat.min (start + c) (List.length tasks)).
    destruct (IH be (it + (be - start))) as [H1 [H2 H3]]; [unfold be; lia|].
    destruct (batch_loop c 0 tasks fuel be (it + (be - start))) as [bs it'] eqn:E.
    cbn [fst] in H1, H2, H3 |- *. split; [|split].
    + cbn [List.concat]. rewrite H1.
      replace be with ((be - start) + start) at 2 by (unfold be; lia).
      rewrite <- skipn_skipn. apply firstn_skipn.
    + constructor; [|exact H2].
      rewrite length_firstn, length_skipn. unfold be. lia.
    + cbn [List.length]. rewrite H3.
      rewrite (ceil_step (List.length tasks - start) c Hc) by lia.
      f_equal. f_equal. unfold be. lia.
  - apply Nat.ltb_ge in Hs. cbn. split; [|split].
    + rewrite skipn_all2 by exact Hs. reflexivity.
    + constructor.
    + replace (List.length tasks - start + c - 1) with (c - 1) by lia.
      symmetry. apply Nat.div_small. lia.
Qed.

Lemma batch_loop_prefix {T} (c mi : nat) (tasks : list T) (fuel : nat) :
  forall start it, exists rest,
  fst (batch_loop c 0 tasks fuel start it) = fst (batch_loop c mi tasks fuel start it) ++ rest.
Proof.
  induction fuel as [|fuel IH]; intros start it; [exists []; reflexivity|].
  cbn [batch_loop]. destruct (start <? List.length tasks); [|exists []; reflexivity].
  set (be := Nat.min (start + c) (List.length tasks)).
  replace ((0 <? 0) && (0 <=? it + (be - start))) with false by reflexivity.
  destruct (IH be (it + (be - start))) as [rest Hr].
  destruct (batch_loop c 0 tasks fuel be (it + (be - start))) as [bs0 i0].
  destruct ((0 <? mi) && (mi <=? it + (be - start))).
  - exists bs0. reflexivity.
  - destruct (batch_loop c mi tasks fuel be (it + (be - start))) as [bs1 i1].
    exists rest. cbn in Hr |- *. rewrite Hr. reflexivity.
Qed.

(** Proves the corrected C3 (batch partition of one group): with
    [MAX_PARALLEL = c > 0] and no iteration ceiling ([MAX_ITERATIONS = 0]),
    the batches of a group of [n] tasks are consecutive slices of the task
    list (their concatenation is the list), there are [ceil(n / c)] of them,
    each of size between 1 and [c], and their sizes sum to [n]; with an
    iteration ceiling [mi] the batches launched are a prefix of that
    partition. *)
Theorem batches_partition {T} (c mi : nat) (tasks : list T) (it : nat) :
  0 < c ->
  let bs := batches c 0 tasks it in
  List.length bs = (List.length tasks + c - 1) / c /\
  Forall (fun b => 0 < List.length b <= c) bs /\
  List.concat bs = tasks /\
  list_sum (map (@List.length T) bs) = List.length tasks /\
  (exists rest, bs = batches c mi tasks it ++ rest).
Proof.
  intros Hc bs.
  destruct (batch_loop_partition c tasks Hc (S (List.length tasks)) 0 it) as [H1 [H2 H3]];
    [lia|].
  fold (batches c 0 tasks it) in H1, H2, H3. fold bs in H1, H2, H3.
  rewrite Nat.sub_0_r in H3. rewrite skipn_0 in H1.
  split; [exact H3|]. split; [exact H2|]. split; [exact H1|]. split.
  - rewrite <- length_concat, H1. reflexivity.
  - apply batch_loop_prefix.
Qed.

Lemma batches_partition_witness :
  let bs := batches 3 0 [1; 2; 3; 4; 5] 0 in
  List.length bs = (List.length [1; 2; 3; 4; 5] + 3 - 1) / 3 /\
  Forall (fun b => 0 < List.length b <= 3) bs /\
  List.concat bs = [1; 2; 3; 4; 5] /\
  list_sum (map (@List.length nat) bs) = List.length [1; 2; 3; 4; 5] /\
  (exists rest, bs = batches 3 4 [1; 2; 3; 4; 5] 0 ++ rest).
Proof. apply (batches_partition 3 4 [1; 2; 3; 4; 5] 0). lia. Defined.

(** C3 as stated fails with an iteration ceiling: with [MAX_ITERATIONS = 1],
    five tasks and [MAX_PARALLEL = 3], one batch of three is launched, not
    [ceil(5/3) = 2] batches covering all five tasks. *)
Lemma batches_stop_at_ceiling :
  batches 3 1 [1; 2; 3; 4; 5] 0 = [[1; 2; 3]] /\
  List.length (batches 3 1 [1; 2; 3; 4; 5] 0) <> (5 + 3 - 1) / 3.
Proof. split; [reflexivity|]. cbn. discriminate. Qed.

End SchedulerProofs.

Module WorktreeProofs.
Import Worktree.

Lemma not_dirty_after_removal (st : wt_state) (dir : string) :
  is_dirty {| worktrees := filter (fun '(d, _) => negb (String.eqb d dir)) (worktrees st);
              branches := branches st; original_dir_ok := true; log_lines := log_lines st |} dir
  = false.
Proof.
  unfold is_dirty. cbn [Worktree.worktrees]. induction (worktrees st) as [|[d b] t IH]; [reflexivity|].
  cbn. destruct (String.eqb d dir) eqn:E; cbn; try rewrite E; exact IH.
Qed.

Lemma filter_twice {T} (f : T -> bool) (l : list T) : filter f (filter f l) = filter f l.
Proof.
  induction l as [|x t IH]; [reflexivity|]. cbn.
  destruct (f x) eqn:E; cbn; [rewrite E, IH|exact IH]; reflexivity.
Qed.

(** Proves the corrected C5 (cleanup_agent_worktree): a dirty worktree is
    kept (worktrees and branches unchanged, return 0) and, when a log file
    is given, one "left in place" line is appended to it; a clean one is
    removed from the live worktrees, nothing else changes; branches are
    never touched; a second call on the same directory leaves worktrees and
    branches as the first left them and returns 0 whenever the original
    directory is accessible. *)
Theorem cleanup_agent_worktree_spec (st : wt_state) (dir branch log : string) :
  let '(rc1, st1) := cleanup_agent_worktree st dir branch log in
  let '(rc2, st2) := cleanup_agent_worktree st1 dir branch log in
  branches st1 = branches st /\ branches st2 = branches st /\
  (is_dirty st dir = true ->
     rc1 = 0%Z /\ worktrees st1 = worktrees st /\
     log_lines st1 = if String.eqb log "" then log_lines st
                     else log_lines st ++
                          [String.append "Worktree left in place due to uncommitted changes: " dir]) /\
  (is_dirty st dir = false -> original_dir_ok st = true ->
     rc1 = 0%Z /\ worktrees st1 = filter (fun '(d, _) => negb (String.eqb d dir)) (worktrees st) /\
     log_lines st1 = log_lines st) /\
  worktrees st2 = worktrees st1 /\
  (original_dir_ok st = true -> rc2 = 0%Z).
Proof.
  unfold cleanup_agent_worktree at 1.
  destruct (is_dirty st dir) eqn:Hd.
  - unfold cleanup_agent_worktree. cbn [Worktree.worktrees Worktree.branches Worktree.log_lines].
    unfold is_dirty at 1. cbn [Worktree.worktrees]. fold (is_dirty st dir). rewrite Hd.
    cbn. repeat split; intros; try reflexivity; discriminate.
  - destruct (original_dir_ok st) eqn:Ho.
    + unfold cleanup_agent_worktree. rewrite not_dirty_after_removal. cbn.
      repeat split; intros; try reflexivity; try discriminate.
      apply filter_twice.
    + unfold cleanup_agent_worktree. rewrite Hd, Ho.
      repeat split; intros; try reflexivity; discriminate.
Qed.

Lemma cleanup_agent_worktree_spec_witness :
  let st := {| worktrees := [("/tmp/wt/agent-1"%string, false)]; branches := ["ralphy/agent-1-x"%string];
               original_dir_ok := true; log_lines := [] |} in
  let dir := "/tmp/wt/agent-1"%string in
  let branch := "ralphy/agent-1-x"%string in
  let log := "/tmp/log"%string in
  let '(rc1, st1) := cleanup_agent_worktree st dir branch log in
  let '(rc2, st2) := cleanup_agent_worktree st1 dir branch log in
  branches st1 = branches st /\ branches st2 = branches st /\
  (is_dirty st dir = true ->
     rc1 = 0%Z /\ worktrees st1 = worktrees st /\
     log_lines st1 = if String.eqb log "" then log_lines st
                     else log_lines st ++
                          [String.append "Worktree left in place due to uncommitted changes: " dir]) /\
  (is_dirty st dir = false -> original_dir_ok st = true ->
     rc1 = 0%Z /\ worktrees st1 = filter (fun '(d, _) => negb (String.eqb d dir)) (worktrees st) /\
     log_lines st1 = log_lines st) /\
  worktrees st2 = worktrees st1 /\
  (original_dir_ok st = true -> rc2 = 0%Z).
Proof. intros st dir branch log. exact (cleanup_agent_worktree_spec st dir branch log). Defined.

(** C5 as stated fails: a second cleanup of a dirty worktree appends the
    "left in place" line to the log file again. *)
Lemma cleanup_dirty_twice_logs_again :
  let st := {| worktrees := [("/tmp/wt/agent-1"%string, true)]; branches := ["ralphy/agent-1-x"%string];
               original_dir_ok := true; log_lines := [] |} in
  let st1 := snd (cleanup_agent_worktree st "/tmp/wt/agent-1" "ralphy/agent-1-x" "/tmp/log") in
  let st2 := snd (cleanup_agent_worktree st1 "/tmp/wt/agent-1" "ralphy/agent-1-x" "/tmp/log") in
  List.length (log_lines st1) = 1%nat /\ List.length (log_lines st2) = 2%nat /\
  log_lines st2 <> log_lines st1.
Proof. vm_compute. split; [reflexivity|split; [reflexivity|discriminate]]. Qed.

End WorktreeProofs.

Module GitProofs.
Import Git Merge.

(** Every command appends exactly its own entry to the log. *)
Lemma git_branch_log n f r : log (snd (git_branch n f r)) = log r ++ [(BranchCreate n f, fst (git_branch n f r))].
Proof. unfold git_branch. cmd_cases; reflexivity. Qed.

Lemma git_checkout_log b r : log (snd (git_checkout b r)) = log r ++ [(Checkout b, fst (git_checkout b r))].
Proof. unfold git_checkout. cmd_cases; reflexivity. Qed.

Lemma git_merge_log cf b r : log (snd (git_merge cf b r)) = log r ++ [(Merge b, fst (git_merge cf b r))].
Proof. unfold git_merge. cmd_cases; reflexivity. Qed.

Lemma git_merge_abort_log r : log (snd (git_merge_abort r)) = log r ++ [(MergeAbort, fst (git_merge_abort r))].
Proof. unfold git_merge_abort. cmd_cases; reflexivity. Qed.

Lemma git_branch_delete_log f b r :
  log (snd (git_branch_delete f b r)) = log r ++ [(BranchDelete f b, fst (git_branch_delete f b r))].
Proof. unfold git_branch_delete. cmd_cases; reflexivity. Qed.

Lemma run_agent_resolution_log ar fs r :
  log (run_agent_resolution ar fs r) = log r ++ [(AgentResolve fs, true)].
Proof. unfold run_agent_resolution. cmd_cases; reflexivity. Qed.

Lemma git_merge_abort_merging r : merging (snd (git_merge_abort r)) = None.
Proof. unfold git_merge_abort. cmd_cases; simpl; congruence. Qed.

Lemma git_merge_abort_refs r : refs (snd (git_merge_abort r)) = refs r /\ head (snd (git_merge_abort r)) = head r.
Proof. unfold git_merge_abort. cmd_cases; split; reflexivity. Qed.

Lemma git_branch_delete_state f b r :
  merging (snd (git_branch_delete f b r)) = merging r /\ head (snd (git_branch_delete f b r)) = head r.
Proof. unfold git_branch_delete. cmd_cases; split; reflexivity. Qed.

Lemma git_merge_ok_merging cf b r r' :
  git_merge cf b r = (true, r') -> merging r = None /\ merging r' = None.
Proof. unfold git_merge. cmd_cases; intro E; inversion E; subst; split; simpl; congruence. Qed.

Lemma git_merge_fail cf b r r' :
  git_merge cf b r = (false, r') -> refs r' = refs r /\ head r' = head r.
Proof. unfold git_merge. cmd_cases; intro E; inversion E; subst; simpl; split; congruence. Qed.

Lemma update_ref_absent b h rs : find_ref rs b = None -> update_ref b h rs = rs.
Proof.
  induction rs as [|[n h0] rs IH]; simpl; intro H; [reflexivity|].
  destruct (String.eqb n b); [discriminate|]. f_equal. now apply IH.
Qed.

Lemma filter_ref_absent b rs :
  find_ref rs b = None -> filter (fun '(n, _) => negb (String.eqb n b)) rs = rs.
Proof.
  induction rs as [|[n h0] rs IH]; simpl; intro H; [reflexivity|].
  destruct (String.eqb n b); [discriminate|]. simpl. f_equal. now apply IH.
Qed.


Lemma lookup_find r b : lookup r b = option_map snd (find_ref (refs r) b).
Proof. reflexivity. Qed.

Lemma lookup_none r b : lookup r b = None <-> find_ref (refs r) b = None.
Proof.
  rewrite lookup_find. destruct (find_ref (refs r) b); simpl; split; congruence.
Qed.



End GitProofs.

Module IntegrationProofs.
Import Git Merge GitProofs.

Lemma failed_merges_app l c ok :
  failed_merges (l ++ [(c, ok)]) =
  failed_merges l ++ match c with Merge b => if ok then [] else [b] | _ => [] end.
Proof. unfold failed_merges. rewrite flat_map_app. simpl. now rewrite app_nil_r. Qed.

(** While HEAD is the integration branch [ib] (at the front of the refs),
    the member merges only change [ib]'s history; a failure is aborted. *)
Lemma merge_members_on_ib cf bs : forall r mf r' ib x rest,
  head r = Some ib -> merging r = None -> refs r = (ib, x) :: rest ->
  find_ref rest ib = None ->
  merge_members cf bs r = (mf, r') ->
  head r' = Some ib /\ merging r' = None /\ (exists x', refs r' = (ib, x') :: rest) /\
  (mf = false -> failed_merges (log r') = failed_merges (log r)) /\
  (mf = true -> In MergeAbort (map fst (log r'))).
Proof.
  induction bs as [|b bs IH]; intros r mf r' ib x rest Hh Hm Hr Hib E.
  - simpl in E. inversion E; subst. repeat split; try assumption.
    + now exists x.
    + intro; discriminate.
  - simpl in E. destruct (git_merge cf b r) as [ok r1] eqn:Em.
    pose proof (git_merge_log cf b r) as Lm. rewrite Em in Lm. simpl in Lm.
    destruct ok.
    + (* a clean merge: only [ib] moves *)
      unfold git_merge in Em. rewrite Hm, Hh in Em.
      assert (Hl : lookup r ib = Some x) by (rewrite lookup_find, Hr; simpl; now rewrite String.eqb_refl).
      rewrite Hl in Em.
      destruct (lookup r b) as [sh|]; [|discriminate].
      destruct (cf x sh) eqn:Ec; [|discriminate].
      inversion Em; subst r1. clear Em.
      eapply (IH _ mf r' ib (merge_history x sh) rest) in E;
        [|exact Hh|exact Hm| |exact Hib].
      * destruct E as (H1 & H2 & H3 & H4 & H5).
        repeat split; try assumption.
        intro Hf. rewrite (H4 Hf), Lm. rewrite failed_merges_app. apply app_nil_r.
      * simpl. rewrite Hr. simpl. rewrite String.eqb_refl. f_equal. now apply update_ref_absent.
    + inversion E; subst r'. clear E.
      pose proof (git_merge_fail cf b r r1 Em) as [Hr1 Hh1].
      pose proof (git_merge_abort_refs r1) as [Hr2 Hh2].
      repeat split.
      * congruence.
      * apply git_merge_abort_merging.
      * exists x. congruence.
      * intro; discriminate.
      * intros _. rewrite git_merge_abort_log. rewrite map_app. apply in_or_app. right. now left.
Qed.

Lemma lookup_front r b h rs c :
  refs r = (b, h) :: rs -> lookup r c = if String.eqb b c then Some h else option_map snd (find_ref rs c).
Proof. intro H. rewrite lookup_find, H. simpl. now destruct (String.eqb b c). Qed.

(** C2. If a merge into the integration branch of a group fails (a
    conflict), the merge is aborted, the integration branch is deleted, and
    the run state (BASE_BRANCH, the integration branches) is exactly the one
    before the attempt; the branches, HEAD and the merge state of the
    repository are as before too. *)
Theorem integration_conflict_keeps_base (cf : list string -> list string -> list string)
    (prd_yaml : bool) (ngroups : nat) (group : string) (group_completed : list string)
    (st : run_state) (r : repo) (b : string) :
  log r = [] -> head_ok r = true ->
  mem b (failed_merges (log (snd (integrate_group cf prd_yaml ngroups group group_completed st r)))) = true ->
  let '(st', r') := integrate_group cf prd_yaml ngroups group group_completed st r in
  st' = st /\ refs r' = refs r /\ head r' = head r /\ merging r' = None /\
  lookup r' (integration_branch_name group) = None /\
  In MergeAbort (map fst (log r')) /\
  In (BranchDelete true (integration_branch_name group), true) (log r').
Proof.
  intros Hlog Hhead Hin.
  unfold head_ok, branch_exists in Hhead.
  destruct (head r) as [h|] eqn:Hh; [|discriminate].
  destruct (lookup r h) as [hh|] eqn:Hlh; [|discriminate]. clear Hhead.
  unfold integrate_group in *.
  destruct (_ && _ && _); [|cbn [snd] in Hin; rewrite Hlog in Hin; discriminate].
  set (ib := integration_branch_name group) in *.
  destruct (git_branch ib (BASE_BRANCH st) r) as [ok r1] eqn:Eb.
  pose proof (git_branch_log ib (BASE_BRANCH st) r) as Lb. rewrite Eb in Lb. simpl in Lb.
  destruct ok; [|cbn [snd] in Hin; rewrite Lb, Hlog in Hin; discriminate].
  unfold git_branch in Eb.
  destruct (lookup r ib) eqn:Hib; [discriminate|].
  destruct (lookup r (BASE_BRANCH st)) as [hb|]; [|discriminate].
  inversion Eb; subst r1; clear Eb Lb.
  assert (Hib' : find_ref (refs r) ib = None) by now apply lookup_none.
  assert (Hne : h <> ib) by (intro; subst; congruence).
  set (r1 := record (set_refs r ((ib, hb) :: refs r)) (BranchCreate ib (BASE_BRANCH st)) true) in *.
  assert (Hr1 : refs r1 = (ib, hb) :: refs r) by reflexivity.
  destruct (git_checkout ib r1) as [ok2 r2] eqn:Ec.
  pose proof (git_checkout_log ib r1) as Lc. rewrite Ec in Lc. simpl in Lc.
  unfold git_checkout in Ec.
  destruct (merging r1) eqn:Hm.
  { inversion Ec; subst. cbn [snd] in Hin. rewrite git_branch_delete_log, Lc in Hin.
    simpl in Hin. rewrite Hlog in Hin. discriminate. }
  rewrite (lookup_front r1 ib hb (refs r) ib Hr1), String.eqb_refl in Ec.
  inversion Ec; subst ok2 r2; clear Ec.
  set (r2 := record (set_head r1 (Some ib)) (Checkout ib) true) in *.
  destruct (merge_members cf group_completed r2) as [mf r3] eqn:Emm.
  apply (merge_members_on_ib cf group_completed r2 mf r3 ib hb (refs r)) in Emm;
    [|reflexivity|exact Hm|exact Hr1|exact Hib'].
  destruct Emm as (Hh3 & Hm3 & [x' Hr3] & Hf3 & Ha3).
  assert (Hhr1 : head r1 = Some h) by exact Hh. rewrite Hhr1 in *.
  unfold return_to at 1 in Hin. unfold return_to.
  assert (Hck : git_checkout h r3 = (true, record (set_head r3 (Some h)) (Checkout h) true)).
  { unfold git_checkout. rewrite Hm3, (lookup_front r3 ib x' (refs r) h Hr3).
    destruct (String.eqb ib h) eqn:E; [apply String.eqb_eq in E; congruence|].
    rewrite <- lookup_find, Hlh. reflexivity. }
  rewrite Hck in Hin |- *.
  set (r4 := record (set_head r3 (Some h)) (Checkout h) true) in *.
  assert (Hr4 : refs r4 = (ib, x') :: refs r) by exact Hr3.
  destruct mf.
  2:{ cbn [negb snd] in Hin. exfalso.
      assert (Hl4 : failed_merges (log r4) = []).
      { unfold r4. simpl. rewrite failed_merges_app, app_nil_r, Hf3 by reflexivity.
        unfold r2. simpl. rewrite failed_merges_app, app_nil_r.
        unfold r1. simpl. rewrite Hlog. reflexivity. }
      rewrite Hl4 in Hin. discriminate. }
  cbn [negb].
  assert (Hdel : git_branch_delete true ib r4 =
                 (true, record (set_refs r4 (filter (fun '(n, _) => negb (String.eqb n ib)) (refs r4)))
                               (BranchDelete true ib) true)).
  { unfold git_branch_delete. rewrite (lookup_front r4 ib x' (refs r) ib Hr4), String.eqb_refl.
    simpl. destruct (String.eqb h ib) eqn:E; [apply String.eqb_eq in E; congruence|].
    reflexivity. }
  rewrite Hdel. cbn [snd].
  assert (Hrefs : filter (fun '(n, _) => negb (String.eqb n ib)) (refs r4) = refs r).
  { rewrite Hr4. simpl. rewrite String.eqb_refl. simpl. now apply filter_ref_absent. }
  repeat split.
  - exact Hrefs.
  - exact Hm3.
  - assert (Hx : forall r', refs r' = refs r -> lookup r' ib = None)
      by (intros r' E; apply lookup_none; rewrite E; exact Hib').
    apply Hx. exact Hrefs.
  - cbn [log record set_refs]. rewrite map_app. apply in_or_app. left.
    unfold r4. cbn [log record set_head]. rewrite map_app. apply in_or_app. left.
    exact (Ha3 eq_refl).
  - cbn [log record set_refs]. apply in_or_app. right. now left.
Qed.

Lemma integration_conflict_keeps_base_witness :
  let cf := fun th sh : list string => if mem "c" sh then ["f"%string] else [] in
  let r := {| refs := [("main"%string, ["m"%string]); ("b1"%string, ["m"; "a"]%string);
                       ("b2"%string, ["m"; "c"]%string)];
              head := Some "main"%string; merging := None; log := [] |} in
  let st := {| BASE_BRANCH := "main"; ORIGINAL_BASE_BRANCH := "main"; integration_branches := [] |} in
  log r = [] /\ head_ok r = true /\
  mem "b2" (failed_merges (log (snd (integrate_group cf true 2 "1" ["b1"; "b2"]%string st r)))) = true /\
  let '(st', r') := integrate_group cf true 2 "1" ["b1"; "b2"]%string st r in
  st' = st /\ refs r' = refs r /\ head r' = head r /\ merging r' = None /\
  lookup r' (integration_branch_name "1") = None /\
  In MergeAbort (map fst (log r')) /\
  In (BranchDelete true (integration_branch_name "1"), true) (log r').
Proof.
  intros cf r st.
  split; [reflexivity|]. split; [reflexivity|]. split; [vm_compute; reflexivity|].
  apply (integration_conflict_keeps_base cf true 2 "1" ["b1"; "b2"]%string st r "b2");
    vm_compute; reflexivity.
Defined.

End IntegrationProofs.

Module ReconcileProofs.
Import Git Merge GitProofs IntegrationProofs.


Lemma flat_map_snoc {A B : Type} (f : A -> list B) l x : flat_map f (l ++ [x]) = flat_map f l ++ f x.
Proof. rewrite flat_map_app. simpl. now rewrite app_nil_r. Qed.



Local Open Scope string_scope.



End ReconcileProofs.

Module ResolutionProofs.
Import Git Merge GitProofs IntegrationProofs ReconcileProofs.
Local Open Scope nat_scope.

Lemma passes_snoc l c ok :
  (forall fs, c <> AgentResolve fs) -> agent_passes (l ++ [(c, ok)]) = agent_passes l.
Proof.
  intro H. unfold agent_passes. rewrite flat_map_snoc.
  destruct c; try apply app_nil_r. exfalso. eapply H. reflexivity.
Qed.

Lemma passes_checkout b r : agent_passes (log (snd (git_checkout b r))) = agent_passes (log r).
Proof. rewrite git_checkout_log. apply passes_snoc. discriminate. Qed.
Lemma passes_merge cf b r : agent_passes (log (snd (git_merge cf b r))) = agent_passes (log r).
Proof. rewrite git_merge_log. apply passes_snoc. discriminate. Qed.
Lemma passes_abort r : agent_passes (log (snd (git_merge_abort r))) = agent_passes (log r).
Proof. rewrite git_merge_abort_log. apply passes_snoc. discriminate. Qed.
Lemma passes_delete f b r : agent_passes (log (snd (git_branch_delete f b r))) = agent_passes (log r).
Proof. rewrite git_branch_delete_log. apply passes_snoc. discriminate. Qed.

Lemma passes_delete_all bs : forall r, agent_passes (log (delete_all bs r)) = agent_passes (log r).
Proof.
  induction bs as [|b bs IH]; intro r; simpl; [reflexivity|].
  rewrite IH. apply passes_delete.
Qed.

Lemma passes_direct_merges cf bs : forall r,
  agent_passes (log (snd (direct_merges cf bs r))) = agent_passes (log r).
Proof.
  induction bs as [|b bs IH]; intro r; simpl; [reflexivity|].
  pose proof (passes_merge cf b r) as P.
  destruct (git_merge cf b r) as [ok r1]. simpl in P.
  destruct ok.
  - rewrite IH, passes_delete. exact P.
  - pose proof (IH r1) as P1. destruct (direct_merges cf bs r1) as [failed r2]. simpl in *. congruence.
Qed.

Lemma unmerged_delete f b r : unmerged_files (snd (git_branch_delete f b r)) = unmerged_files r.
Proof. unfold unmerged_files. now rewrite (proj1 (git_branch_delete_state f b r)). Qed.

Lemma unmerged_abort r : unmerged_files (snd (git_merge_abort r)) = [].
Proof. unfold unmerged_files. now rewrite git_merge_abort_merging. Qed.

(** With no conflicted file left, the resolution loop never runs the agent:
    each branch is aborted and merged again directly. *)
Lemma resolve_loop_clean cf ar bs : forall r, unmerged_files r = [] ->
  agent_passes (log (snd (resolve_loop cf ar bs r))) = agent_passes (log r).
Proof.
  induction bs as [|b bs IH]; intros r U; simpl; [reflexivity|].
  rewrite U.
  pose proof (passes_abort r) as P0.
  pose proof (git_merge_abort_merging r) as M0.
  set (r1 := snd (git_merge_abort r)) in *.
  pose proof (passes_merge cf b r1) as P1.
  destruct (git_merge cf b r1) as [ok r2] eqn:E. simpl in P1.
  destruct ok.
  - destruct (git_merge_ok_merging cf b r1 r2 E) as [_ M2].
    rewrite IH.
    + rewrite passes_delete. congruence.
    + rewrite unmerged_delete. unfold unmerged_files. now rewrite M2.
  - pose proof (IH (snd (git_merge_abort r2)) (unmerged_abort r2)) as P2.
    destruct (resolve_loop cf ar bs (snd (git_merge_abort r2))) as [sf r3]. simpl in *.
    rewrite P2, passes_abort. congruence.
Qed.

Lemma resolve_loop_once cf ar bs r :
  List.length (agent_passes (log (snd (resolve_loop cf ar bs r)))) <=
  List.length (agent_passes (log r)) + 1.
Proof.
  destruct bs as [|b bs]; simpl; [lia|].
  destruct (unmerged_files r) as [|f fs] eqn:U.
  - pose proof (resolve_loop_clean cf ar (b :: bs) r U) as P. simpl in P. rewrite U in P.
    rewrite P. lia.
  - pose proof (run_agent_resolution_log ar (f :: fs) r) as L.
    set (r1 := run_agent_resolution ar (f :: fs) r) in *.
    assert (P1 : agent_passes (log r1) = agent_passes (log r) ++ [f :: fs]).
    { rewrite L. unfold agent_passes. rewrite flat_map_snoc. reflexivity. }
    destruct (unmerged_files r1) eqn:U1.
    + rewrite resolve_loop_clean by (now rewrite unmerged_delete).
      rewrite passes_delete, P1, length_app. simpl. lia.
    + pose proof (resolve_loop_clean cf ar bs (snd (git_merge_abort r1)) (unmerged_abort r1)) as P2.
      destruct (resolve_loop cf ar bs (snd (git_merge_abort r1))) as [sf r2]. simpl in *.
      rewrite P2, passes_abort, P1, length_app. simpl. lia.
Qed.

Local Open Scope string_scope.

(** C7. Final reconciliation runs the conflict-resolution agent at most
    once, whatever the number of conflicting branches: the first conflict
    of the direct merges is not aborted, so every later direct merge fails
    on the unfinished merge, and in the resolution loop only the first
    collected branch finds conflicted files; every later one is aborted and
    merged again directly, and if that merge conflicts it is reported
    unresolved without an agent pass. On two completed branches that both
    conflict with the base, the agent sees only the first one's files and
    both are reported unresolved. *)
Theorem reconcile_single_agent_pass :
  (forall (cf : list string -> list string -> list string) (ar : list string -> bool)
          (CREATE_PR : bool) (st : run_state) (completed : list string) (r : repo),
     List.length (agent_passes (log (fst (reconcile cf ar CREATE_PR st completed r)))) <=
     List.length (agent_passes (log r)) + 1) /\
  (let cf := fun th sh : list string => filter (fun x => negb (mem x th)) sh in
   let r := {| refs := [("main", ["m"]); ("b1", ["m"; "a"]); ("b2", ["m"; "c"])];
               head := Some "main"; merging := None; log := [] |} in
   let st := {| BASE_BRANCH := "main"; ORIGINAL_BASE_BRANCH := "main"; integration_branches := [] |} in
   let res := reconcile cf (fun _ => false) false st ["b1"; "b2"] r in
   cf ["m"] ["m"; "c"] = ["c"] /\
   agent_passes (log (fst res)) = [["a"]] /\
   snd res = [Unresolved ["b1"; "b2"]]).
Proof.
  split.
  - intros cf ar pr st completed r.
    unfold reconcile.
    destruct completed as [|c0 cs]; [simpl; lia|].
    destruct pr; [simpl; lia|].
    destruct (last_opt (integration_branches st)) as [fi|].
    + pose proof (passes_checkout (ORIGINAL_BASE_BRANCH st) r) as P1.
      destruct (git_checkout (ORIGINAL_BASE_BRANCH st) r) as [ok r1]. simpl in P1.
      destruct ok; cbn [negb fst]; [|rewrite P1; lia].
      pose proof (passes_merge cf fi r1) as P2.
      destruct (git_merge cf fi r1) as [ok2 r2]. simpl in P2.
      destruct ok2; simpl.
      * repeat rewrite ?passes_delete_all, ?passes_delete. rewrite P2, P1. lia.
      * rewrite passes_abort, P2, P1. lia.
    + pose proof (passes_checkout (ORIGINAL_BASE_BRANCH st) r) as P1.
      destruct (git_checkout (ORIGINAL_BASE_BRANCH st) r) as [ok r1]. simpl in P1.
      destruct ok; cbn [negb fst]; [|rewrite P1; lia].
      pose proof (passes_direct_merges cf (c0 :: cs) r1) as P2.
      destruct (direct_merges cf (c0 :: cs) r1) as [failed r2]. simpl in P2.
      destruct failed as [|f fs]; cbn [fst]; [rewrite P2, P1; lia|].
      pose proof (resolve_loop_once cf ar (f :: fs) r2) as P3.
      destruct (resolve_loop cf ar (f :: fs) r2) as [sf r3]. simpl in P3.
      rewrite P2, P1 in P3. destruct sf; cbn [fst]; lia.
  - vm_compute. split; [reflexivity|split; reflexivity].
Qed.

End ResolutionProofs.

(* ================================================================= *)
(** * Properties of the code beyond the specification *)

Module MarkdownCacheProofs.
Import Markdown MarkdownCache.

(** *** [String(n)] read back by [parseInt] *)

Lemma read_digits_step (c : code_unit) (k : nat) s a seen :
  digit_value c = Some (Z.of_nat k) ->
  read_digits (c :: s) (Z.of_nat a) seen = read_digits s (Z.of_nat (k + 10 * a)) true.
Proof. intros H. cbn [read_digits]. rewrite H. f_equal. lia. Qed.

Lemma read_digits_uint (d : Decimal.uint) : forall (a : nat) (seen : bool),
  read_digits (map cu (Bytes.uint_chars d)) (Z.of_nat a) seen =
  match d with
  | Decimal.Nil => if seen then Some (Z.of_nat a) else None
  | _ => Some (Z.of_nat (Nat.of_uint_acc d a))
  end.
Proof.
  induction d as [|d IH|d IH|d IH|d IH|d IH|d IH|d IH|d IH|d IH|d IH];
    intros a seen; [reflexivity|..];
  cbn [Bytes.uint_chars map];
  first [ rewrite (read_digits_step _ 0) by reflexivity
        | rewrite (read_digits_step _ 1) by reflexivity
        | rewrite (read_digits_step _ 2) by reflexivity
        | rewrite (read_digits_step _ 3) by reflexivity
        | rewrite (read_digits_step _ 4) by reflexivity
        | rewrite (read_digits_step _ 5) by reflexivity
        | rewrite (read_digits_step _ 6) by reflexivity
        | rewrite (read_digits_step _ 7) by reflexivity
        | rewrite (read_digits_step _ 8) by reflexivity
        | rewrite (read_digits_step _ 9) by reflexivity ];
  rewrite IH; cbn [Nat.of_uint_acc]; rewrite Nat.tail_mul_spec;
  destruct d; cbn [Nat.of_uint_acc]; f_equal; f_equal; lia.
Qed.

(** [Number.parseInt(String(n), 10)] is [n]. *)
Lemma parseInt10_String_of_nat (n : nat) : parseInt10 (String_of_nat n) = Some (Z.of_nat n).
Proof.
  unfold parseInt10, String_of_nat.
  pose proof (read_digits_uint (Nat.to_uint n) 0 false) as R.
  pose proof (DecimalNat.Unsigned.of_to n) as E. unfold Nat.of_uint in E.
  pose proof (BytesProofs.to_uint_not_nil n) as NN.
  destruct (Nat.to_uint n) as [|d|d|d|d|d|d|d|d|d|d]; [congruence|..];
    cbn -[read_digits]; rewrite <- E; exact R.
Qed.

Lemma js_eqb_eq (a b : jsstring) : js_eqb a b = true <-> a = b.
Proof.
  revert b. induction a as [|x a IH]; intros [|y b]; cbn; try (split; congruence).
  rewrite andb_true_iff, N.eqb_eq, IH. split; [intros [-> ->]; reflexivity|].
  intros H. injection H as -> ->. split; reflexivity.
Qed.

Lemma js_eqb_refl (a : jsstring) : js_eqb a a = true.
Proof. apply js_eqb_eq. reflexivity. Qed.

Lemma String_of_nat_inj (n m : nat) : String_of_nat n = String_of_nat m -> n = m.
Proof.
  intros H. apply Nat2Z.inj.
  pose proof (parseInt10_String_of_nat n) as A. rewrite H, parseInt10_String_of_nat in A.
  congruence.
Qed.

Local Open Scope nat_scope.

(** *** The loop of [loadCache] *)

Lemma scan_lines_acc (ls : list jsstring) : forall i acc r c,
  scan_lines ls i acc r c =
  (acc ++ fst (fst (scan_lines ls i [] 0 0)),
   (r + snd (fst (scan_lines ls i [] 0 0)))%nat,
   (c + snd (scan_lines ls i [] 0 0))%nat).
Proof.
  induction ls as [|l ls IH]; intros i acc r c.
  - cbn. rewrite app_nil_r, !Nat.add_0_r. reflexivity.
  - cbn [scan_lines].
    destruct (match_incomplete l), (is_completed_line l).
    + rewrite (IH (S i) (acc ++ _)), (IH (S i) ([] ++ _)).
      cbn [fst snd]. rewrite ?app_assoc, ?app_nil_l, ?app_nil_r.
      rewrite !pair_equal_spec. repeat split; lia.
    + rewrite (IH (S i) (acc ++ _)), (IH (S i) ([] ++ _)).
      cbn [fst snd]. rewrite ?app_assoc, ?app_nil_l, ?app_nil_r.
      rewrite !pair_equal_spec. repeat split; lia.
    + rewrite (IH (S i) acc), (IH (S i) [] 0%nat 1%nat).
      cbn [fst snd]. rewrite ?app_nil_l, ?app_nil_r.
      rewrite !pair_equal_spec. repeat split; lia.
    + rewrite (IH (S i) acc). reflexivity.
Qed.

Lemma scan_tasks_cons l ls i :
  fst (fst (scan_lines (l :: ls) i [] 0 0)) =
  match match_incomplete l with
  | Some m => incomplete_task i m :: fst (fst (scan_lines ls (S i) [] 0 0))
  | None => fst (fst (scan_lines ls (S i) [] 0 0))
  end.
Proof.
  cbn [scan_lines]. destruct (match_incomplete l); rewrite scan_lines_acc; reflexivity.
Qed.

Lemma scan_tasks_nil i : fst (fst (scan_lines [] i [] 0 0)) = [].
Proof. reflexivity. Qed.

Lemma scan_remaining ls : forall i,
  snd (fst (scan_lines ls i [] 0 0)) = List.length (fst (fst (scan_lines ls i [] 0 0))).
Proof.
  induction ls as [|l ls IH]; intros i; [reflexivity|].
  rewrite scan_tasks_cons. cbn [scan_lines].
  destruct (match_incomplete l), (is_completed_line l);
    rewrite scan_lines_acc; cbn [fst snd List.length]; rewrite ?app_nil_l, ?IH; lia.
Qed.

Lemma scan_completed ls : forall i,
  snd (scan_lines ls i [] 0 0) = List.length (filter is_completed_line ls).
Proof.
  induction ls as [|l ls IH]; intros i; [reflexivity|].
  cbn [scan_lines filter].
  destruct (match_incomplete l), (is_completed_line l);
    rewrite scan_lines_acc; cbn [fst snd List.length]; rewrite ?app_nil_l, ?IH; lia.
Qed.

Lemma scan_in ls : forall i t, In t (fst (fst (scan_lines ls i [] 0 0))) ->
  exists j m, j < List.length ls /\ match_incomplete (nth j ls []) = Some m /\
              t = incomplete_task (i + j) m.
Proof.
  induction ls as [|l ls IH]; intros i t H; [destruct H|].
  rewrite scan_tasks_cons in H.
  destruct (match_incomplete l) as [m|] eqn:E; [destruct H as [<-|H]|].
  - exists 0, m. cbn. rewrite Nat.add_0_r. auto with arith.
  - destruct (IH (S i) t H) as [j [m' [Hj [Hm ->]]]].
    exists (S j), m'. cbn. repeat split; [lia|exact Hm|]. f_equal. lia.
  - destruct (IH (S i) t H) as [j [m' [Hj [Hm ->]]]].
    exists (S j), m'. cbn. repeat split; [lia|exact Hm|]. f_equal. lia.
Qed.

Lemma scan_ids_above ls i t : In t (fst (fst (scan_lines ls i [] 0 0))) ->
  exists j, id t = String_of_nat (i + j + 1).
Proof. intros H. destruct (scan_in ls i t H) as [j [m [_ [_ ->]]]]. exists j. reflexivity. Qed.

Lemma scan_NoDup ls : forall i, NoDup (map id (fst (fst (scan_lines ls i [] 0 0)))).
Proof.
  induction ls as [|l ls IH]; intros i; [constructor|].
  rewrite scan_tasks_cons. destruct (match_incomplete l) as [m|]; [|apply IH].
  cbn [map]. constructor; [|apply IH].
  intros Hin. apply in_map_iff in Hin as [u [Hu Hin]].
  destruct (scan_ids_above ls (S i) u Hin) as [j Hj].
  cbn in Hu. rewrite Hj in Hu. apply String_of_nat_inj in Hu. lia.
Qed.

Lemma filter_ids_keep (ls : list jsstring) i k : k < i ->
  filter (fun u => negb (js_eqb (id u) (String_of_nat (k + 1))))
         (fst (fst (scan_lines ls i [] 0 0))) =
  fst (fst (scan_lines ls i [] 0 0)).
Proof.
  intros Hk. apply forallb_filter_id. apply forallb_forall. intros u Hu.
  destruct (scan_ids_above ls i u Hu) as [j ->].
  destruct (js_eqb (String_of_nat (i + j + 1)) (String_of_nat (k + 1))) eqn:E; [|reflexivity].
  apply js_eqb_eq, String_of_nat_inj in E. lia.
Qed.

(** Replacing a pending line by a line that is not one drops exactly that
    line's task. *)
Lemma scan_assign ls : forall i j x m,
  j < List.length ls -> match_incomplete (nth j ls []) = Some m -> match_incomplete x = None ->
  fst (fst (scan_lines (assign_index ls j x) i [] 0 0)) =
  filter (fun u => negb (js_eqb (id u) (String_of_nat (i + j + 1))))
         (fst (fst (scan_lines ls i [] 0 0))) /\
  S (List.length (fst (fst (scan_lines (assign_index ls j x) i [] 0 0)))) =
  List.length (fst (fst (scan_lines ls i [] 0 0))).
Proof.
  induction ls as [|l ls IH]; intros i j x m Hj Hm Hx; cbn in Hj; [lia|].
  destruct j as [|j].
  - cbn [assign_index nth] in Hm |- *. rewrite !scan_tasks_cons, Hm, Hx. cbn [filter List.length].
    rewrite Nat.add_0_r. unfold incomplete_task at 1. cbn [id].
    rewrite js_eqb_refl. cbn [negb].
    rewrite (filter_ids_keep ls (S i) i) by lia. split; reflexivity.
  - cbn [assign_index nth] in Hm |- *. rewrite !scan_tasks_cons.
    destruct (IH (S i) j x m ltac:(lia) Hm Hx) as [IH1 IH2].
    replace (S i + j + 1) with (i + S j + 1) in IH1 by lia.
    destruct (match_incomplete l) as [m'|]; [|split; assumption].
    cbn [List.length]. split; [|lia].
    rewrite IH1. cbn [filter]. unfold incomplete_task at 2. cbn [id].
    destruct (js_eqb (String_of_nat (i + 1)) (String_of_nat (i + S j + 1))) eqn:E; [|reflexivity].
    apply js_eqb_eq, String_of_nat_inj in E. lia.
Qed.

Lemma count_assign (f : jsstring -> bool) (ls : list jsstring) : forall j x,
  j < List.length ls -> f (nth j ls []) = false -> f x = true ->
  List.length (filter f (assign_index ls j x)) = S (List.length (filter f ls)).
Proof.
  induction ls as [|l ls IH]; intros j x Hj Hl Hx; cbn in Hj; [lia|].
  destruct j as [|j]; cbn in Hl |- *.
  - rewrite Hl, Hx. reflexivity.
  - destruct (f l); cbn [List.length]; rewrite IH by (lia || assumption); reflexivity.
Qed.

Lemma scan_complete ls : forall i j l m,
  nth_error ls j = Some l -> match_incomplete l = Some m ->
  In (incomplete_task (i + j) m) (fst (fst (scan_lines ls i [] 0 0))).
Proof.
  induction ls as [|l0 ls IH]; intros i j l m Hj Hm; [destruct j; discriminate|].
  rewrite scan_tasks_cons. destruct j as [|j]; cbn in Hj.
  - injection Hj as ->. rewrite Hm, Nat.add_0_r. left. reflexivity.
  - replace (i + S j) with (S i + j) by lia.
    destruct (match_incomplete l0); [right|]; eapply IH; eassumption.
Qed.

(** *** Lines *)

Lemma starts_with_split (p s : jsstring) :
  starts_with p s = true -> s = p ++ skipn (List.length p) s.
Proof.
  revert s. induction p as [|c p IH]; intros s H; [reflexivity|].
  destruct s as [|d s]; [discriminate|]. cbn in H |- *.
  apply andb_prop in H as [H1 H2]. apply N.eqb_eq in H1. subst d.
  f_equal. apply IH. exact H2.
Qed.

Lemma match_incomplete_some (l m : jsstring) :
  match_incomplete l = Some m ->
  l = unchecked ++ m /\ m <> [] /\ existsb is_line_terminator m = false.
Proof.
  unfold match_incomplete. destruct (starts_with unchecked l) eqn:E; [|discriminate].
  apply starts_with_split in E. change (List.length unchecked) with 6 in E.
  destruct (skipn 6 l) as [|c r]; [discriminate|].
  destruct (existsb is_line_terminator (c :: r)) eqn:T; [discriminate|].
  intros H. injection H as <-. split; [exact E|split; [discriminate|exact T]].
Qed.

Lemma match_incomplete_intro (m : jsstring) :
  m <> [] -> existsb is_line_terminator m = false -> match_incomplete (unchecked ++ m) = Some m.
Proof.
  intros Hm Ht. unfold match_incomplete.
  change (starts_with unchecked (unchecked ++ m)) with true.
  change (skipn 6 (unchecked ++ m)) with m.
  destruct m as [|c r]; [congruence|]. rewrite Ht. reflexivity.
Qed.

Lemma match_incomplete_checked (m : jsstring) : match_incomplete (checked ++ m) = None.
Proof. reflexivity. Qed.

Lemma completed_checked (m : jsstring) : is_completed_line (checked ++ m) = true.
Proof. reflexivity. Qed.

Lemma completed_unchecked (m : jsstring) : is_completed_line (unchecked ++ m) = false.
Proof. reflexivity. Qed.

Lemma replace_unchecked_pending (m : jsstring) : replace_unchecked (unchecked ++ m) = checked ++ m.
Proof. reflexivity. Qed.

Lemma lines_no_LF_CR (file l : jsstring) :
  In l (lines_of file) -> ~ In LF l /\ ~ In CR l.
Proof.
  intros Hl. unfold lines_of in Hl. split.
  - exact (proj1 (Forall_forall _ _) (MarkdownProofs.split_lf_no_LF _) l Hl).
  - exact (proj1 (Forall_forall _ _)
      (MarkdownProofs.split_lf_pieces CR _ (MarkdownProofs.normalized_no_CR file)) l Hl).
Qed.

Lemma line_terminator_iff (m : jsstring) :
  existsb is_line_terminator m = false <->
  ~ In LF m /\ ~ In CR m /\ ~ In LS m /\ ~ In PS m.
Proof.
  rewrite <- Bool.not_true_iff_false, existsb_exists. split.
  - intros H. repeat split; intros Hin; apply H; eexists; split; try exact Hin;
      unfold is_line_terminator; rewrite N.eqb_refl, ?orb_true_r; reflexivity.
  - intros [H1 [H2 [H3 H4]]] [c [Hc E]]. unfold is_line_terminator in E.
    repeat (apply orb_prop in E as [E|E]); apply N.eqb_eq in E; subst c; contradiction.
Qed.

(** On a line of the normalised file, the regex matches exactly the lines
    made of ["- [ ] "] and a non-empty rest without LINE SEPARATOR or
    PARAGRAPH SEPARATOR. *)
Lemma match_incomplete_line (file l m : jsstring) :
  In l (lines_of file) ->
  (match_incomplete l = Some m <-> l = unchecked ++ m /\ m <> [] /\ ~ In LS m /\ ~ In PS m).
Proof.
  intros Hl. split.
  - intros H. apply match_incomplete_some in H as [E [Hm T]].
    apply line_terminator_iff in T as [_ [_ T]]. auto.
  - intros [-> [Hm [H3 H4]]]. apply match_incomplete_intro; [exact Hm|].
    destruct (lines_no_LF_CR file _ Hl) as [H1 H2].
    apply line_terminator_iff. repeat split; intros Hin; eauto using in_or_app.
Qed.

Lemma in_range_line (file : jsstring) (j : nat) :
  j < List.length (lines_of file) -> in_range file (String_of_nat (j + 1)) = Some j.
Proof.
  intros Hj. unfold in_range. rewrite parseInt10_String_of_nat. cbn [option_map].
  replace (Z.of_nat (j + 1) - 1)%Z with (Z.of_nat j) by lia.
  rewrite (proj2 (Z.leb_le 0 (Z.of_nat j))) by lia.
  rewrite (proj2 (Z.ltb_lt (Z.of_nat j) (Z.of_nat (List.length (lines_of file))))) by lia.
  rewrite Nat2Z.id. reflexivity.
Qed.

Lemma loadCache_fields (d : disk) :
  incompleteTasks (loadCache d) = fst (fst (scan_lines (lines_of (contents d)) 0 [] 0 0)) /\
  remainingCount (loadCache d) = snd (fst (scan_lines (lines_of (contents d)) 0 [] 0 0)) /\
  completedCount (loadCache d) = snd (scan_lines (lines_of (contents d)) 0 [] 0 0).
Proof.
  unfold loadCache, lines_of.
  destruct (scan_lines (split_lf (readFileNormalized (contents d))) 0 [] 0 0) as [[a b] c].
  repeat split.
Qed.

Lemma getCache_none (d : disk) : getCache d None = (loadCache d, Some (loadCache d)).
Proof. reflexivity. Qed.

(** A task listed by a fresh [loadCache] is the pending line its id names. *)
Lemma listed_task_line (d : disk) (t : Task) :
  In t (incompleteTasks (loadCache d)) ->
  exists j m, j < List.length (lines_of (contents d)) /\
    nth j (lines_of (contents d)) [] = unchecked ++ m /\ m <> [] /\
    match_incomplete (nth j (lines_of (contents d)) []) = Some m /\
    t = incomplete_task j m /\ in_range (contents d) (id t) = Some j.
Proof.
  intros Ht. rewrite (proj1 (loadCache_fields d)) in Ht.
  destruct (scan_in _ 0 t Ht) as [j [m [Hj [Hm ->]]]].
  destruct (match_incomplete_some _ _ Hm) as [Hl [Hne _]].
  exists j, m. repeat split; try assumption.
  apply in_range_line. exact Hj.
Qed.

(** *** The task list of [loadCache] *)

(** [loadCache] lists exactly the pending lines: every line of the
    normalised file made of ["- [ ] "] and a non-empty rest [m] in which
    neither LINE SEPARATOR (U+2028) nor PARAGRAPH SEPARATOR (U+2029)
    occurs (the regex's [.] matches neither) gives the task with id
    [String(i + 1)] and title [m.trim()], and every listed task is such a
    line, which its id names again when read back by [parseInt] as
    [markComplete] does; ids are pairwise distinct;
    [remainingCount] is the number of listed tasks and [completedCount]
    the number of lines matching [/^- \[x\] /i]. *)
Theorem loadCache_lists_pending_lines (d : disk) :
  let c := loadCache d in
  remainingCount c = List.length (incompleteTasks c) /\
  completedCount c = Markdown.countCompleted (contents d) /\
  NoDup (map id (incompleteTasks c)) /\
  (forall t, In t (incompleteTasks c) ->
     exists i m, in_range (contents d) (id t) = Some i /\
       nth i (lines_of (contents d)) [] = unchecked ++ m /\ m <> [] /\
       ~ In LS m /\ ~ In PS m /\ title t = trim m /\ completed t = false) /\
  (forall i m, nth_error (lines_of (contents d)) i = Some (unchecked ++ m) -> m <> [] ->
     ~ In LS m -> ~ In PS m -> In (incomplete_task i m) (incompleteTasks c)).
Proof.
  intros c. destruct (loadCache_fields d) as [F1 [F2 F3]]. unfold c.
  rewrite F1, F2, F3. split; [apply scan_remaining|].
  split; [apply scan_completed|]. split; [apply scan_NoDup|]. split.
  - intros t Ht. rewrite <- F1 in Ht.
    destruct (listed_task_line d t Ht) as [j [m [Hj [Hl [Hne [Hm [-> Hr]]]]]]].
    assert (Hin : In (nth j (lines_of (contents d)) []) (lines_of (contents d)))
      by (apply nth_In; exact Hj).
    apply (match_incomplete_line _ _ m Hin) in Hm as [_ [_ [H3 H4]]].
    exists j, m. repeat split; assumption.
  - intros i m Hi Hne H3 H4. refine (scan_complete _ 0 i (unchecked ++ m) m Hi _).
    apply (match_incomplete_line (contents d) _ m (nth_error_In _ _ Hi)). auto.
Qed.

(** [markComplete] on the id of a task listed by a fresh read of the file
    invalidates the cache; the next [getAllTasks] returns the same tasks
    without that one, [countRemaining] is one less and [countCompleted]
    one more, whatever the modification time of the write. *)
Theorem markComplete_listed_task (d : disk) (cache : option CachedContent) (t : Task) (now : Q) :
  In t (incompleteTasks (loadCache d)) ->
  let r := markComplete_cached d cache (id t) now in
  snd r = None /\
  fst (getAllTasks (fst r) (snd r)) =
    filter (fun u => negb (js_eqb (id u) (id t))) (incompleteTasks (loadCache d)) /\
  S (fst (countRemaining (fst r) (snd r))) = remainingCount (loadCache d) /\
  fst (countCompleted_cached (fst r) (snd r)) = S (completedCount (loadCache d)).
Proof.
  intros Ht r.
  destruct (listed_task_line d t Ht) as [j [m [Hj [Hl [Hne [Hm [Et Hr]]]]]]].
  assert (Hw : markComplete (contents d) (id t) =
               join_lf (assign_index (lines_of (contents d)) j
                         (replace_unchecked (nth j (lines_of (contents d)) [])))).
  { destruct (MarkdownProofs.markComplete_cases (contents d) (id t))
      as [[Hr' _]|[i [Hr' [_ E]]]]; [congruence|].
    rewrite Hr in Hr'. injection Hr' as <-. exact E. }
  assert (Er : r = ({| contents := markComplete (contents d) (id t); mtimeMs := now |}, None)).
  { unfold r, markComplete_cached. rewrite Hr. reflexivity. }
  assert (HL : lines_of (contents (fst r)) =
               assign_index (lines_of (contents d)) j (checked ++ m)).
  { rewrite Er. cbn [fst contents]. rewrite Hw, MarkdownProofs.lines_of_written, Hl.
    rewrite replace_unchecked_pending. reflexivity. }
  destruct (loadCache_fields (fst r)) as [G1 [G2 G3]].
  destruct (loadCache_fields d) as [F1 [F2 F3]].
  destruct (scan_assign (lines_of (contents d)) 0 j (checked ++ m) m Hj Hm
              (match_incomplete_checked m)) as [A1 A2].
  assert (Hs : snd r = None) by (rewrite Er; reflexivity). rewrite Hs.
  unfold getAllTasks, countRemaining, countCompleted_cached. rewrite getCache_none.
  cbn [fst]. split; [reflexivity|]. split; [|split].
  - rewrite G1, HL. etransitivity; [exact A1|]. rewrite F1, Et. reflexivity.
  - rewrite G2, HL, F2, !scan_remaining. exact A2.
  - rewrite G3, HL, F3, !scan_completed. apply count_assign; [exact Hj| |reflexivity].
    rewrite Hl. reflexivity.
Qed.

(** *** The first listed task *)

Lemma scan_hd_some ls : forall i t,
  hd_error (fst (fst (scan_lines ls i [] 0 0))) = Some t <->
  exists k l m, nth_error ls k = Some l /\ match_incomplete l = Some m /\
    t = incomplete_task (i + k) m /\
    forall k' l', k' < k -> nth_error ls k' = Some l' -> match_incomplete l' = None.
Proof.
  induction ls as [|l ls IH]; intros i t.
  - split; [discriminate|]. intros [k [l [m [H _]]]]. destruct k; discriminate.
  - rewrite scan_tasks_cons. destruct (match_incomplete l) as [m|] eqn:E.
    + cbn [hd_error]. split.
      * intros H. injection H as <-. exists 0, l, m.
        rewrite Nat.add_0_r. repeat split; [exact E|]. intros k' l' Hk. lia.
      * intros [k [l' [m' [Hk [Hm [-> Hb]]]]]]. destruct k as [|k].
        -- cbn in Hk. injection Hk as <-. rewrite Nat.add_0_r. congruence.
        -- specialize (Hb 0 l ltac:(lia) eq_refl). congruence.
    + rewrite IH. split.
      * intros [k [l' [m' [Hk [Hm [-> Hb]]]]]]. exists (S k), l', m'.
        split; [exact Hk|]. split; [exact Hm|]. split; [f_equal; lia|].
        intros [|k'] l'' Hk' E'; [cbn in E'; injection E' as <-; exact E|].
        apply (Hb k'); [lia|exact E'].
      * intros [k [l' [m' [Hk [Hm [-> Hb]]]]]]. destruct k as [|k].
        -- cbn in Hk. injection Hk as <-. congruence.
        -- exists k, l', m'. split; [exact Hk|]. split; [exact Hm|].
           split; [f_equal; lia|]. intros k' l'' Hk' E'. apply (Hb (S k')); [lia|exact E'].
Qed.

Lemma scan_hd_none ls : forall i,
  hd_error (fst (fst (scan_lines ls i [] 0 0))) = None <->
  forall l, In l ls -> match_incomplete l = None.
Proof.
  induction ls as [|l ls IH]; intros i.
  - split; [intros _ l []|reflexivity].
  - rewrite scan_tasks_cons. destruct (match_incomplete l) as [m|] eqn:E.
    + split; [discriminate|]. intros H. rewrite (H l (or_introl eq_refl)) in E. discriminate.
    + rewrite IH. split.
      * intros H l' [<-|Hl']; [exact E|exact (H l' Hl')].
      * intros H l' Hl'. exact (H l' (or_intror Hl')).
Qed.

Lemma match_incomplete_none_line (file l : jsstring) :
  In l (lines_of file) ->
  (match_incomplete l = None <->
   forall m, l = unchecked ++ m -> m = [] \/ In LS m \/ In PS m).
Proof.
  intros Hl. split.
  - intros H m ->. destruct m as [|c r]; [left; reflexivity|right].
    destruct (in_dec N.eq_dec LS (c :: r)) as [I3|I3]; [left; exact I3|].
    destruct (in_dec N.eq_dec PS (c :: r)) as [I4|I4]; [right; exact I4|].
    rewrite (proj2 (match_incomplete_line file _ (c :: r) Hl)) in H; [discriminate|].
    repeat split; [discriminate|exact I3|exact I4].
  - intros H. destruct (match_incomplete l) as [m|] eqn:E; [|reflexivity].
    apply (match_incomplete_line file l m Hl) in E as [E [Hm [H3 H4]]].
    apply H in E as [E|[E|E]]; contradiction.
Qed.

(** [getNextTask] on a fresh read (no cache, or a cache whose
    modification time differs from the file's) returns the task of the
    topmost line of the form ["- [ ] "] followed by non-empty text
    containing neither LINE SEPARATOR (U+2028) nor PARAGRAPH SEPARATOR
    (U+2029), and [null] exactly when the file has no such line. *)
Theorem getNextTask_first_pending (d : disk) (cache : option CachedContent) :
  (forall c, cache = Some c -> Qeq_bool (mtimeMs d) (fileMtime c) = false) ->
  let ls := lines_of (contents d) in
  (fst (getNextTask d cache) = None <->
     forall i m, nth_error ls i = Some (unchecked ++ m) -> m = [] \/ In LS m \/ In PS m) /\
  (forall t, fst (getNextTask d cache) = Some t <->
     exists i m, nth_error ls i = Some (unchecked ++ m) /\ m <> [] /\ ~ In LS m /\ ~ In PS m /\
       t = incomplete_task i m /\
       forall j m', j < i -> nth_error ls j = Some (unchecked ++ m') ->
         m' = [] \/ In LS m' \/ In PS m').
Proof.
  intros Hfresh. cbv zeta.
  assert (Hc : fst (getNextTask d cache) =
               hd_error (fst (fst (scan_lines (lines_of (contents d)) 0 [] 0 0)))).
  { rewrite <- (proj1 (loadCache_fields d)).
    unfold getNextTask. destruct cache as [c|]; [|reflexivity].
    cbn [getCache]. rewrite (Hfresh c eq_refl). reflexivity. }
  rewrite Hc. split.
  - rewrite scan_hd_none. split.
    + intros H i m Hi. apply nth_error_In in Hi as Hin.
      exact (proj1 (match_incomplete_none_line _ _ Hin) (H _ Hin) m eq_refl).
    + intros H l Hl. apply (proj2 (match_incomplete_none_line _ _ Hl)).
      intros m ->. apply In_nth_error in Hl as [i Hi]. exact (H i m Hi).
  - intros t. rewrite scan_hd_some. split.
    + intros [k [l [m [Hk [Hm [-> Hb]]]]]].
      apply (match_incomplete_line _ _ m (nth_error_In _ _ Hk)) in Hm as [-> Hm].
      exists k, m. split; [exact Hk|]. split; [apply Hm|]. split; [apply Hm|].
      split; [apply Hm|]. split; [reflexivity|].
      intros j m' Hj Ej. apply nth_error_In in Ej as Hin.
      exact (proj1 (match_incomplete_none_line _ _ Hin) (Hb j _ Hj Ej) m' eq_refl).
    + intros [i [m [Hi [Hne [H3 [H4 [-> Hb]]]]]]]. exists i, (unchecked ++ m), m.
      split; [exact Hi|]. split.
      * apply (proj2 (match_incomplete_line (contents d) _ m (nth_error_In _ _ Hi))).
        auto.
      * split; [reflexivity|]. intros k' l' Hk' E'. apply nth_error_In in E' as Hin.
        apply (proj2 (match_incomplete_none_line _ _ Hin)). intros m' ->.
        exact (Hb k' m' Hk' E').
Qed.

Local Abbreviation sample_disk :=
  {| contents := js "# Tasks
- [ ] a" ++ [LS] ++ js "b
- [ ] write docs
- [x] fix tests
- [ ]   ship  "; mtimeMs := 1700000000123 # 1 |} (only parsing).

Lemma loadCache_lists_pending_lines_witness :
  let c := loadCache sample_disk in
  remainingCount c = List.length (incompleteTasks c) /\
  completedCount c = Markdown.countCompleted (contents sample_disk) /\
  NoDup (map id (incompleteTasks c)) /\
  (forall t, In t (incompleteTasks c) ->
     exists i m, in_range (contents sample_disk) (id t) = Some i /\
       nth i (lines_of (contents sample_disk)) [] = unchecked ++ m /\ m <> [] /\
       ~ In LS m /\ ~ In PS m /\ title t = trim m /\ completed t = false) /\
  (forall i m, nth_error (lines_of (contents sample_disk)) i = Some (unchecked ++ m) -> m <> [] ->
     ~ In LS m -> ~ In PS m -> In (incomplete_task i m) (incompleteTasks c)).
Proof. exact (loadCache_lists_pending_lines sample_disk). Defined.

Lemma markComplete_listed_task_witness :
  let t := incomplete_task 4 (js "  ship  ") in
  In t (incompleteTasks (loadCache sample_disk)) /\
  let r := markComplete_cached sample_disk None (id t) 1700000000999 in
  snd r = None /\
  fst (getAllTasks (fst r) (snd r)) =
    filter (fun u => negb (js_eqb (id u) (id t))) (incompleteTasks (loadCache sample_disk)) /\
  S (fst (countRemaining (fst r) (snd r))) = remainingCount (loadCache sample_disk) /\
  fst (countCompleted_cached (fst r) (snd r)) = S (completedCount (loadCache sample_disk)).
Proof.
  intros t.
  assert (H : In t (incompleteTasks (loadCache sample_disk)))
    by (vm_compute; right; left; reflexivity).
  split; [exact H|].
  exact (markComplete_listed_task sample_disk None t 1700000000999 H).
Defined.

Lemma getNextTask_first_pending_witness :
  let stale := Some (loadCache {| contents := []; mtimeMs := 0 |}) in
  (forall c, stale = Some c -> Qeq_bool (mtimeMs sample_disk) (fileMtime c) = false) /\
  fst (getNextTask sample_disk stale) = Some (incomplete_task 2 (js "write docs")) /\
  forall t, fst (getNextTask sample_disk stale) = Some t <->
     exists i m, nth_error (lines_of (contents sample_disk)) i = Some (unchecked ++ m) /\
       m <> [] /\ ~ In LS m /\ ~ In PS m /\ t = incomplete_task i m /\
       forall j m', j < i -> nth_error (lines_of (contents sample_disk)) j = Some (unchecked ++ m') ->
         m' = [] \/ In LS m' \/ In PS m'.
Proof.
  intros stale.
  assert (H : forall c, stale = Some c -> Qeq_bool (mtimeMs sample_disk) (fileMtime c) = false).
  { intros c Hc. injection Hc as <-. vm_compute. reflexivity. }
  split; [exact H|]. split; [vm_compute; reflexivity|].
  exact (proj2 (getNextTask_first_pending sample_disk stale H)).
Defined.

End MarkdownCacheProofs.

Module RetryExtraProofs.
Import Retry.

(** *** [withRetry] when an attempt succeeds *)

Section Succeed.
Context {A : Type}.
Variable fn : Z -> outcome A.
Variable errs : Z -> thrown.
Variable v : A.
Variable k : Z.
Variable random : Z -> Q.
Variable options : RetryOptions.
Hypothesis Hfail : forall a, (1 <= a < k)%Z -> fn a = Reject (errs a).
Hypothesis Hok : fn k = Resolve v.

Lemma retry_loop_succeeds (fuel : nat) : forall (a : Z) (last : option thrown),
  (1 <= a <= k)%Z -> (k <= maxRetries options)%Z -> (k - a + 1 <= Z.of_nat fuel)%Z ->
  retry_loop fn random options fuel a last =
  (flat_map (failed_attempt_events errs random options)
            (map Z.of_nat (seq (Z.to_nat a) (Z.to_nat (k - a)))) ++ [Invoke k],
   Returned v).
Proof.
  induction fuel as [|fuel IH]; intros a last Ha Hk Hf; [lia|].
  cbn [retry_loop]. rewrite (proj2 (Z.leb_le a (maxRetries options))) by lia.
  destruct (Z.eq_dec a k) as [->|Hne].
  - rewrite Hok, Z.sub_diag. reflexivity.
  - rewrite (Hfail a) by lia. rewrite (IH (a + 1)%Z) by lia.
    replace (Z.to_nat (k - a)) with (S (Z.to_nat (k - (a + 1)))) by lia.
    replace (Z.to_nat (a + 1)) with (S (Z.to_nat a)) by lia.
    cbn [seq map flat_map]. rewrite Z2Nat.id by lia.
    unfold failed_attempt_events. cbn [app]. rewrite <- !app_assoc. reflexivity.
Qed.
End Succeed.

(** If the wrapped operation rejects at attempts [1 .. k-1] and resolves
    with [v] at attempt [k <= maxRetries], [withRetry] returns [v] after
    exactly [k] invocations: the events are those of the [k - 1] failed
    attempts (each followed by the [onRetry] call, when given, and the
    backoff sleep) and the final invocation, with no sleep after it. *)
Theorem withRetry_succeeds_at {A} (fn : Z -> outcome A) (errs : Z -> thrown) (v : A)
    (k : Z) random options :
  (1 <= k <= maxRetries options)%Z ->
  (forall a, (1 <= a < k)%Z -> fn a = Reject (errs a)) -> fn k = Resolve v ->
  withRetry fn random options =
  (flat_map (failed_attempt_events errs random options)
            (map Z.of_nat (seq 1 (Z.to_nat (k - 1)))) ++ [Invoke k],
   Returned v).
Proof.
  intros Hk Hfail Hok. unfold withRetry.
  apply (retry_loop_succeeds fn errs v k random options Hfail Hok); lia.
Qed.

Lemma withRetry_succeeds_at_witness :
  (1 <= 3 <= maxRetries {| maxRetries := 5; retryDelay := 1; onRetry := true;
                           exponentialBackoff := None; maxDelay := None; jitter := None |})%Z /\
  withRetry (fun a => if (a <? 3)%Z then Reject (JsError "429 Too Many Requests")
                      else Resolve tt) (fun _ => (1 # 2)%Q)
    {| maxRetries := 5; retryDelay := 1; onRetry := true;
       exponentialBackoff := None; maxDelay := None; jitter := None |} =
  (flat_map (failed_attempt_events (fun _ => JsError "429 Too Many Requests") (fun _ => (1 # 2)%Q)
     {| maxRetries := 5; retryDelay := 1; onRetry := true;
        exponentialBackoff := None; maxDelay := None; jitter := None |})
     (map Z.of_nat (seq 1 (Z.to_nat (3 - 1)))) ++ [Invoke 3],
   Returned tt).
Proof.
  split; [cbn; lia|].
  apply (withRetry_succeeds_at (fun a => if (a <? 3)%Z then Reject (JsError "429 Too Many Requests")
                      else Resolve tt) (fun _ => JsError "429 Too Many Requests") tt 3).
  - cbn. lia.
  - intros a Ha. rewrite (proj2 (Z.ltb_lt a 3)) by lia. reflexivity.
  - reflexivity.
Defined.

(** *** [isRetryableError] *)

Lemma list_ascii_of_string_append (s1 s2 : string) :
  list_ascii_of_string (s1 ++ s2) = (list_ascii_of_string s1 ++ list_ascii_of_string s2)%list.
Proof. induction s1 as [|c s1 IH]; cbn; [reflexivity|]. rewrite IH. reflexivity. Qed.

Lemma contains_app_r (p s t : list ascii) : contains p s = true -> contains p (t ++ s)%list = true.
Proof.
  induction t as [|c t IH]; intros H; [exact H|].
  cbn [app contains]. rewrite IH by exact H. apply orb_true_r.
Qed.

Lemma prefixb_app (p s u : list ascii) : prefixb p s = true -> prefixb p (s ++ u)%list = true.
Proof.
  revert s. induction p as [|c p IH]; intros s H; [reflexivity|].
  destruct s as [|d s]; [discriminate|]. cbn in H |- *.
  apply andb_prop in H as [H1 H2]. rewrite H1, (IH s H2). reflexivity.
Qed.

Lemma contains_app_l (p s u : list ascii) : contains p s = true -> contains p (s ++ u)%list = true.
Proof.
  induction s as [|c s IH]; intros H.
  - cbn in H. destruct p; [|discriminate]. destruct u; reflexivity.
  - cbn [app contains] in H |- *. apply orb_prop in H as [H|H].
    + apply orb_true_iff. left. exact (prefixb_app _ _ u H).
    + rewrite (IH H). apply orb_true_r.
Qed.

Lemma test_context (pat : string) (i : bool) (s pre post : string) :
  test pat i s = true -> test pat i (pre ++ s ++ post) = true.
Proof.
  unfold test. rewrite !list_ascii_of_string_append.
  destruct i; [rewrite !map_app|]; intros H; apply contains_app_r, contains_app_l, H.
Qed.

(** An error message classified as retryable stays retryable when text
    is added before or after it (a wrapped or prefixed message). *)
Theorem isRetryableError_context (s pre post : string) :
  isRetryableError s = true -> isRetryableError (pre ++ s ++ post) = true.
Proof.
  unfold isRetryableError. intros H. apply existsb_exists in H as [[pat i] [Hin Ht]].
  apply existsb_exists. exists (pat, i). split; [exact Hin|]. apply test_context, Ht.
Qed.

Lemma isRetryableError_context_witness :
  isRetryableError "ETIMEDOUT" = true /\
  isRetryableError ("request failed: " ++ "ETIMEDOUT" ++ " after 30s") = true.
Proof.
  assert (H : isRetryableError "ETIMEDOUT" = true) by reflexivity.
  split; [exact H|]. exact (isRetryableError_context "ETIMEDOUT" _ _ H).
Defined.

End RetryExtraProofs.

Module ShellProofs.
Import Bytes Shell.
Local Open Scope nat_scope.

(** *** Streams of one line *)

Lemma no_LF_existsb (l : bytes) : existsb (Ascii.eqb LF) l = false -> ~ In LF l.
Proof.
  intros H Hin. assert (E : existsb (Ascii.eqb LF) l = true)
    by (apply existsb_exists; exists LF; split; [exact Hin|apply Ascii.eqb_refl]).
  rewrite E in H. discriminate H.
Qed.

Lemma split_lf_line (l : bytes) : ~ In LF l -> split_lf (l ++ [LF]) = [l; []].
Proof.
  intros H. rewrite (BytesProofs.bytes_split_lf_app l [LF] H). cbn. rewrite !app_nil_r. reflexivity.
Qed.

Lemma sed_stream_line (f : bytes -> bytes) (l : bytes) :
  ~ In LF l -> sed_stream f (l ++ [LF]) = f l ++ [LF].
Proof.
  intros H. unfold sed_stream. rewrite (split_lf_line l H). cbn. rewrite !app_nil_r. reflexivity.
Qed.

Lemma sed_stream_nil (f : bytes -> bytes) : sed_stream f [] = [].
Proof. reflexivity. Qed.

Lemma cut_line (l : bytes) : ~ In LF l -> cut_c1_50 (l ++ [LF]) = firstn 50 l ++ [LF].
Proof.
  intros H. unfold cut_c1_50, stream_lines. rewrite (split_lf_line l H). cbn.
  rewrite !app_nil_r. reflexivity.
Qed.

Lemma drop_newlines_cons (c : ascii) (l : bytes) : c <> LF -> drop_newlines (c :: l) = c :: l.
Proof. intros H. cbn. apply BytesProofs.ascii_eqb_false in H. rewrite H. reflexivity. Qed.

Lemma command_subst_line (l : bytes) : ~ In LF l -> command_subst (l ++ [LF]) = l.
Proof.
  intros H. unfold command_subst. rewrite rev_app_distr. cbn [rev app drop_newlines].
  rewrite Ascii.eqb_refl. destruct (rev l) as [|c r] eqn:E.
  - cbn. apply (f_equal (@rev ascii)) in E. rewrite rev_involutive in E. subst. reflexivity.
  - rewrite drop_newlines_cons.
    + rewrite <- E, rev_involutive. reflexivity.
    + intros ->. apply H. apply in_rev. rewrite E. left. reflexivity.
Qed.

Lemma lower_not_LF (c : ascii) : c <> LF -> Retry.lower c <> LF.
Proof.
  intros Hc. unfold Retry.lower.
  destruct ((65 <=? nat_of_ascii c) && (nat_of_ascii c <=? 90)) eqn:E; [|exact Hc].
  apply andb_prop in E as [E1 E2]. apply Nat.leb_le in E1, E2.
  intros H. apply (f_equal nat_of_ascii) in H.
  rewrite nat_ascii_embedding in H by lia. cbn in H. lia.
Qed.

Lemma tr_lower_line (l : bytes) : tr_lower (l ++ [LF]) = tr_lower l ++ [LF].
Proof. unfold tr_lower. rewrite map_app. reflexivity. Qed.

Lemma tr_lower_no_LF (l : bytes) : ~ In LF l -> ~ In LF (tr_lower l).
Proof.
  intros H Hin. unfold tr_lower in Hin. apply in_map_iff in Hin as [c [Hc Hin]].
  apply (lower_not_LF c); [intros ->; contradiction|exact Hc].
Qed.

(** *** [slugify] *)

Lemma echo1_cases (arg : bytes) :
  echo1 arg = [] \/ echo1 arg = echo_text arg ++ [LF].
Proof.
  unfold echo1, echo_text. destruct (is_echo_option arg); [|right; reflexivity].
  destruct (existsb _ _); [left|right]; reflexivity.
Qed.

Lemma echo_text_no_LF (arg : bytes) : ~ In LF arg -> ~ In LF (echo_text arg).
Proof. unfold echo_text. destruct (is_echo_option arg); [intros _ []|exact id]. Qed.

Lemma collapse_chars (l : bytes) : forall b, Forall slug_char (collapse_runs b l).
Proof.
  induction l as [|c t IH]; intros b; cbn; [constructor|].
  destruct (is_alnum_lower c) eqn:E; [constructor; [left; exact E|apply IH]|].
  destruct b; [apply IH|constructor; [right; reflexivity|apply IH]].
Qed.

Lemma dash_not_alnum : is_alnum_lower "-"%char = false.
Proof. reflexivity. Qed.

Lemma collapse_in_run_head (l : bytes) : hd_error (collapse_runs true l) <> Some "-"%char.
Proof.
  induction l as [|c t IH]; cbn; [discriminate|].
  destruct (is_alnum_lower c) eqn:E; [|exact IH].
  cbn. intros H. injection H as ->. rewrite dash_not_alnum in E. discriminate.
Qed.

Lemma contains_dd_cons (c : ascii) (t : bytes) :
  Retry.contains dd (c :: t) = false <->
  (c = "-"%char -> hd_error t <> Some "-"%char) /\ Retry.contains dd t = false.
Proof.
  cbn [Retry.contains]. rewrite orb_false_iff.
  assert (P : Retry.prefixb dd (c :: t) = false <-> (c = "-"%char -> hd_error t <> Some "-"%char)).
  { unfold dd. cbn [Retry.prefixb]. destruct t as [|d t'].
    - cbn. rewrite andb_false_r. split; [intros _ _; discriminate|reflexivity].
    - cbn [hd_error Retry.prefixb]. rewrite andb_true_r.
      destruct (Ascii.eqb_spec "-"%char c) as [<-|Hc], (Ascii.eqb_spec "-"%char d) as [<-|Hd];
        cbn; split; try congruence; intros H; try reflexivity.
      + exfalso. apply (H eq_refl). reflexivity. }
  rewrite P. tauto.
Qed.

Lemma collapse_no_dd (l : bytes) : forall b, Retry.contains dd (collapse_runs b l) = false.
Proof.
  induction l as [|c t IH]; intros b; cbn [collapse_runs]; [reflexivity|].
  destruct (is_alnum_lower c) eqn:E.
  - apply contains_dd_cons. split; [|apply IH].
    intros ->. rewrite dash_not_alnum in E. discriminate.
  - destruct b; [apply IH|]. apply contains_dd_cons. split; [|apply IH].
    intros _. apply collapse_in_run_head.
Qed.

Lemma collapse_head (l : bytes) (b : bool) :
  hd_error (collapse_runs b l) = Some "-"%char -> b = false.
Proof.
  destruct b; [|reflexivity]. intros H. exfalso. exact (collapse_in_run_head l H).
Qed.

Lemma contains_dd_app_l (l r : bytes) :
  Retry.contains dd (l ++ r) = false -> Retry.contains dd l = false.
Proof.
  intros H. destruct (Retry.contains dd l) eqn:E; [|reflexivity].
  rewrite (RetryExtraProofs.contains_app_l _ _ r E) in H. exact H.
Qed.

Lemma drop_dash_match (l : bytes) :
  match l with "-"%char :: t => t | _ => l end = drop_dash l.
Proof. destruct l as [|c t]; [reflexivity|]. destruct c as [[] [] [] [] [] [] [] []]; reflexivity. Qed.

Lemma last_dash_match (x d : bytes) :
  match x with "-"%char :: r => rev r | _ => d end =
  match x with c :: r => if Ascii.eqb c "-"%char then rev r else d | [] => d end.
Proof. destruct x as [|c t]; [reflexivity|]. destruct c as [[] [] [] [] [] [] [] []]; reflexivity. Qed.

Lemma strip_dashes_eq (l : bytes) :
  strip_dashes l =
  match rev (drop_dash l) with
  | c :: r => if Ascii.eqb c "-"%char then rev r else drop_dash l
  | [] => drop_dash l
  end.
Proof. unfold strip_dashes. rewrite drop_dash_match. apply last_dash_match. Qed.

Lemma strip_dashes_shape (l : bytes) :
  Forall slug_char l -> Retry.contains dd l = false ->
  Forall slug_char (strip_dashes l) /\ Retry.contains dd (strip_dashes l) = false /\
  hd_error (strip_dashes l) <> Some "-"%char.
Proof.
  intros Hc Hd. rewrite strip_dashes_eq.
  assert (H1 : Forall slug_char (drop_dash l) /\ Retry.contains dd (drop_dash l) = false /\
               hd_error (drop_dash l) <> Some "-"%char).
  { unfold drop_dash. destruct l as [|c t]; [repeat split; [constructor|discriminate]|].
    apply contains_dd_cons in Hd as [Hh Ht]. inversion Hc as [|? ? Hc1 Hct]; subst.
    destruct (Ascii.eqb_spec c "-"%char) as [->|Hne].
    - repeat split; [exact Hct|exact Ht|exact (Hh eq_refl)].
    - repeat split; [exact Hc|apply contains_dd_cons; split; assumption|].
      cbn. intros H. injection H. exact Hne. }
  set (l1 := drop_dash l) in *. clearbody l1. destruct H1 as [C1 [D1 E1]].
  destruct (rev l1) as [|c r] eqn:R; [repeat split; assumption|].
  assert (L : l1 = rev r ++ [c]) by (rewrite <- (rev_involutive l1), R; reflexivity).
  destruct (Ascii.eqb_spec c "-"%char) as [->|Hne]; [|repeat split; assumption].
  rewrite L in C1, D1, E1. repeat split.
  - apply Forall_app in C1. apply C1.
  - exact (contains_dd_app_l _ _ D1).
  - destruct (rev r); [discriminate|exact E1].
Qed.

Lemma slug_no_LF (l : bytes) : Forall slug_char l -> ~ In LF l.
Proof.
  intros H Hin. apply (proj1 (Forall_forall _ _) H) in Hin as [E|E]; [discriminate E|discriminate E].
Qed.

Lemma in_firstn {A} (n : nat) (l : list A) (x : A) : In x (firstn n l) -> In x l.
Proof. intros H. rewrite <- (firstn_skipn n l). apply in_or_app. left. exact H. Qed.

Lemma slugify_pipeline (l : bytes) : ~ In LF l ->
  command_subst (cut_c1_50 (sed_stream strip_dashes (sed_stream (collapse_runs false)
     (tr_lower (l ++ [LF]))))) =
  firstn 50 (strip_dashes (collapse_runs false (tr_lower l))).
Proof.
  intros H.
  destruct (strip_dashes_shape _ (collapse_chars (tr_lower l) false)
              (collapse_no_dd _ false)) as [C2 _].
  rewrite tr_lower_line, sed_stream_line by exact (tr_lower_no_LF _ H).
  rewrite sed_stream_line by exact (slug_no_LF _ (collapse_chars _ false)).
  rewrite cut_line by exact (slug_no_LF _ C2).
  apply command_subst_line. intros Hin. apply (slug_no_LF _ C2).
  exact (in_firstn _ _ _ Hin).
Qed.

Lemma slugify_line (s : bytes) : ~ In LF s ->
  slugify s = firstn 50 (strip_dashes (collapse_runs false (tr_lower (echo_text s)))).
Proof.
  intros H. unfold slugify, echo1, echo_text. destruct (is_echo_option s).
  - destruct (existsb _ s); reflexivity.
  - apply slugify_pipeline. exact H.
Qed.

Lemma firstn_shape (n : nat) (l : bytes) :
  Forall slug_char l -> Retry.contains dd l = false -> hd_error l <> Some "-"%char ->
  Forall slug_char (firstn n l) /\ Retry.contains dd (firstn n l) = false /\
  hd_error (firstn n l) <> Some "-"%char.
Proof.
  intros C D E. rewrite <- (firstn_skipn n l) in C, D.
  repeat split.
  - apply Forall_app in C. apply C.
  - exact (contains_dd_app_l _ _ D).
  - destruct n as [|n]; [discriminate|]. destruct l; [discriminate|exact E].
Qed.

(** *** Agent names *)

Lemma uint_chars_digit (d : Decimal.uint) (c : ascii) :
  In c (uint_chars d) -> is_digit c = true.
Proof.
  induction d; cbn; intros H; try contradiction;
    (destruct H as [<-|H]; [reflexivity|auto]).
Qed.

Lemma uint_chars_sep (d1 d2 : Decimal.uint) (x y : bytes) :
  uint_chars d1 ++ "-"%char :: x = uint_chars d2 ++ "-"%char :: y ->
  d1 = d2.
Proof.
  revert d2. induction d1; destruct d2; cbn; intros H; inversion H; f_equal; auto.
Qed.

Lemma uint_chars_inj (d1 d2 : Decimal.uint) :
  uint_chars d1 = uint_chars d2 -> d1 = d2.
Proof.
  revert d2. induction d1; destruct d2; cbn; intros H; inversion H; f_equal; auto.
Qed.

Lemma agent_branch_name_num (t1 t2 : bytes) (n1 n2 : nat) :
  agent_branch_name t1 n1 = agent_branch_name t2 n2 -> n1 = n2.
Proof.
  unfold agent_branch_name. intros H. apply app_inv_head in H.
  apply DecimalNat.Unsigned.to_uint_inj. exact (uint_chars_sep _ _ _ _ H).
Qed.

Lemma agent_worktree_dir_num (WB : bytes) (n1 n2 : nat) :
  agent_worktree_dir WB n1 = agent_worktree_dir WB n2 -> n1 = n2.
Proof.
  unfold agent_worktree_dir. intros H. apply app_inv_head, app_inv_head in H.
  apply DecimalNat.Unsigned.to_uint_inj. exact (uint_chars_inj _ _ H).
Qed.

(** The slug [slugify] gives a one-line task title is made of [a-z],
    [0-9] and [-] only, never holds two dashes in a row, does not start
    with a dash and is at most 50 bytes long. *)
Theorem slugify_shape (s : bytes) : ~ In LF s ->
  Forall slug_char (slugify s) /\ Retry.contains dd (slugify s) = false /\
  hd_error (slugify s) <> Some "-"%char /\ List.length (slugify s) <= 50.
Proof.
  intros H. rewrite (slugify_line s H).
  destruct (strip_dashes_shape _ (collapse_chars (tr_lower (echo_text s)) false)
              (collapse_no_dd _ false)) as [C [D E]].
  destruct (firstn_shape 50 _ C D E) as [C' [D' E']].
  repeat split; [exact C'|exact D'|exact E'|].
  rewrite length_firstn. lia.
Qed.

(** *** [mark_task_complete_markdown] *)

Lemma BS_not_LF : BS <> LF.
Proof. discriminate. Qed.

Lemma escape_line_no_LF (t : bytes) : ~ In LF t -> ~ In LF (escape_line t).
Proof.
  intros H Hin. unfold escape_line in Hin. apply in_flat_map in Hin as [c [Hc Hin]].
  destruct (bre_special c); cbn in Hin.
  - destruct Hin as [E|[E|[]]]; [exact (BS_not_LF E)|subst; contradiction].
  - destruct Hin as [E|[]]. subst. contradiction.
Qed.

Lemma escape_task_line (t : bytes) : ~ In LF t -> escape_task t = escape_line t.
Proof.
  intros H. unfold escape_task. rewrite sed_stream_line by exact H.
  apply command_subst_line. exact (escape_line_no_LF t H).
Qed.

Lemma escape_line_cons (c : ascii) (t : bytes) :
  escape_line (c :: t) = (if bre_special c then [BS; c] else [c]) ++ escape_line t.
Proof. reflexivity. Qed.

Lemma read_part_plain (c : ascii) (x acc : bytes) :
  bre_special c = false -> read_part (c :: x) acc = read_part x (acc ++ [c]).
Proof. intros H. destruct c as [[] [] [] [] [] [] [] []]; try discriminate H; reflexivity. Qed.

Lemma read_part_escape (t : bytes) : forall rest acc,
  read_part (escape_line t ++ "/"%char :: rest) acc = Some (acc ++ escape_line t, rest).
Proof.
  induction t as [|c t IH]; intros rest acc.
  - cbn. rewrite app_nil_r. reflexivity.
  - rewrite escape_line_cons. destruct (bre_special c) eqn:E.
    + cbn [app read_part BS]. rewrite IH, <- app_assoc. reflexivity.
    + cbn [app]. rewrite read_part_plain by exact E. rewrite IH, <- app_assoc. reflexivity.
Qed.

Lemma bre_literal_plain (c : ascii) (x : bytes) :
  bre_special c = false -> bre_literal (c :: x) = option_map (cons c) (bre_literal x).
Proof. intros H. destruct c as [[] [] [] [] [] [] [] []]; try discriminate H; reflexivity. Qed.

Lemma bre_literal_escape (t : bytes) : bre_literal (escape_line t) = Some t.
Proof.
  induction t as [|c t IH]; [reflexivity|]. rewrite escape_line_cons.
  destruct (bre_special c) eqn:E.
  - cbn [app bre_literal BS]. rewrite E, IH. reflexivity.
  - cbn [app]. rewrite bre_literal_plain by exact E. rewrite IH. reflexivity.
Qed.

Lemma parse_replacement_plain (c : ascii) (x : bytes) :
  bre_special c = false ->
  parse_replacement (c :: x) =
  option_map (cons (if Ascii.eqb c "&"%char then RAmp else RLit c)) (parse_replacement x).
Proof. intros H. destruct c as [[] [] [] [] [] [] [] []]; try discriminate H; reflexivity. Qed.

Lemma amp_not_special : bre_special "&"%char = false.
Proof. reflexivity. Qed.

Lemma parse_replacement_escape (t : bytes) :
  parse_replacement (escape_line t) =
  Some (map (fun c => if Ascii.eqb c "&"%char then RAmp else RLit c) t).
Proof.
  induction t as [|c t IH]; [reflexivity|]. rewrite escape_line_cons.
  destruct (bre_special c) eqn:E.
  - cbn [app parse_replacement BS]. rewrite E, IH. cbn [map].
    destruct (Ascii.eqb_spec c "&"%char) as [->|_]; [rewrite amp_not_special in E; discriminate E|].
    reflexivity.
  - cbn [app]. rewrite parse_replacement_plain by exact E. rewrite IH. reflexivity.
Qed.

Lemma sed_stream_ext (f g : bytes -> bytes) (input : bytes) :
  (forall l, f l = g l) -> sed_stream f input = sed_stream g input.
Proof.
  intros H. unfold sed_stream. f_equal.
  - apply flat_map_ext. intros l. rewrite H. reflexivity.
  - destruct (last (split_lf input) []); [reflexivity|]. apply H.
Qed.

Lemma render_task (p t lit : bytes) :
  render (map RLit p ++ map (fun c => if Ascii.eqb c "&"%char then RAmp else RLit c) t) lit =
  p ++ flat_map (fun c => if Ascii.eqb c "&"%char then lit else [c]) t.
Proof.
  unfold render. rewrite flat_map_app. f_equal.
  - induction p as [|c p IH]; cbn; [reflexivity|]. rewrite IH. reflexivity.
  - induction t as [|c t IH]; cbn; [reflexivity|]. rewrite IH.
    destruct (Ascii.eqb c "&"%char); reflexivity.
Qed.

Lemma read_part_pattern (x : bytes) :
  read_part (list_ascii_of_string "^- \[ \] " ++ x) [] = read_part x (list_ascii_of_string "^- \[ \] ").
Proof. reflexivity. Qed.

Lemma read_part_replacement (x : bytes) :
  read_part (checked ++ x) [] = read_part x checked.
Proof. reflexivity. Qed.

Lemma bre_literal_box (x : bytes) :
  bre_literal (list_ascii_of_string "- \[ \] " ++ x) = option_map (app unchecked) (bre_literal x).
Proof. cbn. destruct (bre_literal x); reflexivity. Qed.

Lemma parse_replacement_box (x : bytes) :
  parse_replacement (checked ++ x) = option_map (app (map RLit checked)) (parse_replacement x).
Proof. cbn. destruct (parse_replacement x); reflexivity. Qed.

(** For a one-line task, [mark_task_complete_markdown] rewrites exactly
    the lines that start with ["- [ ] "] followed by the task text: such a
    line gets ["- [x] "], the task text with every [&] replaced by the
    matched ["- [ ] " ++ task], and the rest of the line after the match.
    Every other line is left as it is. *)
Theorem mark_task_complete_markdown_lines (task file : bytes) : ~ In LF task ->
  mark_task_complete_markdown task file =
  Some (sed_stream (fun line =>
          if starts_with (unchecked ++ task) line then
            checked ++ flat_map (fun c => if Ascii.eqb c "&"%char then unchecked ++ task else [c]) task ++
            skipn (6 + List.length task) line
          else line) file).
Proof.
  intros H. unfold mark_task_complete_markdown. rewrite (escape_task_line task H).
  set (E := escape_line task).
  assert (P : parse_s (list_ascii_of_string "s/^- \[ \] " ++ E ++ list_ascii_of_string "/- [x] " ++ E ++ ["/"%char]) =
              Some (list_ascii_of_string "^- \[ \] " ++ E, checked ++ E)).
  { change (list_ascii_of_string "s/^- \[ \] " ++ E ++ list_ascii_of_string "/- [x] " ++ E ++ ["/"%char])
      with ("s"%char :: "/"%char :: (list_ascii_of_string "^- \[ \] " ++ E ++ "/"%char :: (checked ++ E ++ ["/"%char]))).
    unfold parse_s. rewrite read_part_pattern. unfold E. rewrite read_part_escape.
    rewrite read_part_replacement, read_part_escape. reflexivity. }
  rewrite P. change (list_ascii_of_string "^- \[ \] " ++ E) with ("^"%char :: (list_ascii_of_string "- \[ \] " ++ E)).
  cbn [anchored_literal]. rewrite bre_literal_box, parse_replacement_box. unfold E.
  rewrite bre_literal_escape, parse_replacement_escape. cbn [option_map].
  f_equal. apply sed_stream_ext. intros line. unfold subst_line.
  destruct (starts_with (unchecked ++ task) line); [|reflexivity].
  rewrite render_task, length_app, <- app_assoc. reflexivity.
Qed.

(** *** The completion check over [count_remaining_markdown] *)

Lemma filter_nil_iff {A} (f : A -> bool) (l : list A) :
  filter f l = [] <-> forall x, In x l -> f x = false.
Proof.
  induction l as [|a l IH]; cbn; [split; [intros _ x []|reflexivity]|].
  destruct (f a) eqn:E; split.
  - discriminate.
  - intros H. rewrite (H a (or_introl eq_refl)) in E. discriminate.
  - intros H x [<-|Hx]; [exact E|exact (proj1 IH H x Hx)].
  - intros H. apply IH. intros x Hx. exact (H x (or_intror Hx)).
Qed.

Lemma digit_not_space (c : ascii) : is_digit c = true -> is_space_class c = false.
Proof.
  unfold is_digit, is_space_class. intros H. apply andb_prop in H as [H1 H2].
  apply Nat.leb_le in H1, H2. cbn [existsb].
  repeat (apply orb_false_intro; [apply Nat.eqb_neq; lia|]). reflexivity.
Qed.

Lemma digit_not_LF (c : ascii) : is_digit c = true -> c <> LF.
Proof. intros H ->. discriminate H. Qed.

Lemma all_digits_filter (s : bytes) :
  (forall c, In c s -> is_digit c = true) ->
  filter (fun c => negb (is_space_class c)) s = s.
Proof.
  induction s as [|c t IH]; intros H; [reflexivity|]. cbn [filter].
  rewrite digit_not_space by (apply H; left; reflexivity). cbn [negb].
  rewrite IH by (intros d Hd; apply H; right; exact Hd). reflexivity.
Qed.

Lemma head_1_no_LF (s : bytes) : ~ In LF s -> head_1 s = s.
Proof.
  induction s as [|c t IH]; intros H; [reflexivity|]. cbn [head_1].
  destruct (Ascii.eqb_spec c LF) as [->|_]; [exfalso; apply H; left; reflexivity|].
  rewrite IH by (intros Hin; apply H; right; exact Hin). reflexivity.
Qed.

Lemma command_subst_no_LF (s : bytes) : ~ In LF s -> command_subst s = s.
Proof.
  intros H. unfold command_subst. destruct (rev s) as [|c r] eqn:E.
  - cbn. rewrite <- (rev_involutive s), E. reflexivity.
  - rewrite drop_newlines_cons, <- E, rev_involutive; [reflexivity|].
    intros ->. apply H. apply in_rev. rewrite E. left. reflexivity.
Qed.

Lemma digits_in_base_zero (b : nat) (s : bytes) : forall acc,
  0 < b -> (forall c, In c s -> is_digit c = true) ->
  digits_in_base b s acc = Some 0 -> acc = 0 /\ forall c, In c s -> c = "0"%char.
Proof.
  induction s as [|c t IH]; intros acc Hb Hd H; cbn [digits_in_base] in H.
  - injection H as ->. split; [reflexivity|intros c []].
  - destruct (nat_of_ascii c - 48 <? b); [|discriminate H].
    destruct (IH _ Hb (fun d Hin => Hd d (or_intror Hin)) H) as [A T].
    assert (Hc : is_digit c = true) by (apply Hd; left; reflexivity).
    unfold is_digit in Hc. apply andb_prop in Hc as [H1 H2]. apply Nat.leb_le in H1, H2.
    split; [nia|]. intros d [<-|Hin]; [|exact (T d Hin)].
    rewrite <- (ascii_nat_embedding c). replace (nat_of_ascii c) with 48 by nia. reflexivity.
Qed.

Lemma bash_number_zero (s : bytes) :
  (forall c, In c s -> is_digit c = true) -> bash_number s = Some 0 ->
  forall c, In c s -> c = "0"%char.
Proof.
  intros Hd H. unfold bash_number in H.
  destruct s as [|c0 t]; [intros c []|].
  destruct (Ascii.eqb_spec c0 "0"%char) as [->|Hne].
  - destruct t as [|c1 t'].
    + intros c [<-|[]]. reflexivity.
    + apply digits_in_base_zero in H as [_ T]; [|lia|intros c Hc; apply Hd; right; exact Hc].
      intros c [<-|Hin]; [reflexivity|exact (T c Hin)].
  - assert (E : digits_in_base 10 (c0 :: t) 0 = Some 0).
    { rewrite <- H. destruct c0 as [[] [] [] [] [] [] [] []]; try reflexivity.
      exfalso. apply Hne. reflexivity. }
    apply digits_in_base_zero in E as [_ T]; [exact T|lia|exact Hd].
Qed.

Lemma of_uint_zeros (d : Decimal.uint) :
  (forall c, In c (uint_chars d) -> c = "0"%char) -> Nat.of_uint d = 0.
Proof.
  unfold Nat.of_uint. induction d; cbn [uint_chars Nat.of_uint_acc]; intros H;
    try reflexivity;
    try (specialize (H _ (or_introl eq_refl)); discriminate H).
  rewrite Nat.tail_mul_spec. apply IHd. intros c Hc. apply H. right. exact Hc.
Qed.

(** For the markdown task source, the check at the end of
    [run_single_task] reports that all tasks are done exactly when no line
    of the PRD file starts with ["- [ ]"] (the doubled [0] that
    [grep -c ... || echo "0"] prints for no match still reads as 0), and
    also when the PRD file cannot be read. *)
Theorem all_tasks_done_markdown (prd : option bytes) :
  all_tasks_done (count_remaining_markdown prd) = true <->
  match prd with
  | None => True
  | Some file => forall l, In l (stream_lines file) -> starts_with pending_box l = false
  end.
Proof.
  destruct prd as [file|]; [|split; reflexivity].
  assert (G : grep_pending file = [] <->
              forall l, In l (stream_lines file) -> starts_with pending_box l = false).
  { unfold grep_pending. rewrite filter_nil_iff. reflexivity. }
  rewrite <- G. unfold count_remaining_markdown.
  destruct (List.length (grep_pending file)) as [|n] eqn:N.
  - apply length_zero_iff_nil in N. split; [intros _; exact N|reflexivity].
  - split; [|intros E; rewrite E in N; discriminate N].
    cbn [Nat.eqb]. intros H. exfalso.
    set (ds := uint_chars (Nat.to_uint (S n))) in H.
    assert (Dg : forall c, In c ds -> is_digit c = true) by (intros c Hc; exact (uint_chars_digit _ c Hc)).
    unfold all_tasks_done in H.
    rewrite filter_app, all_digits_filter in H by exact Dg.
    replace (filter (fun c => negb (is_space_class c)) [LF]) with (@nil ascii) in H by reflexivity.
    rewrite app_nil_r in H.
    rewrite head_1_no_LF, command_subst_no_LF in H
      by (intros Hin; exact (digit_not_LF _ (Dg _ Hin) eq_refl)).
    assert (Ne : ds <> []).
    { unfold ds. destruct (Nat.to_uint (S n)) eqn:U; try discriminate.
      exact (False_rect _ (BytesProofs.to_uint_not_nil _ U)). }
    assert (M : match ds with [] => ["0"%char] | _ => ds end = ds)
      by (destruct ds; [contradiction|reflexivity]).
    cbv zeta in H. rewrite M in H.
    rewrite (proj2 (forallb_forall _ _) Dg) in H.
    destruct (bash_number ds) as [v|] eqn:B; [|discriminate H].
    apply Nat.eqb_eq in H. subst v.
    pose proof (bash_number_zero ds Dg B) as Z.
    pose proof (of_uint_zeros _ Z) as O.
    rewrite DecimalNat.Unsigned.of_to in O. discriminate O.
Qed.

(** *** Lines of a [sed] output *)

Lemma split_lf_join (ls : list bytes) (z : bytes) :
  Forall (fun l => ~ In LF l) ls -> ~ In LF z ->
  split_lf (flat_map (fun l => l ++ [LF]) ls ++ z) = ls ++ [z].
Proof.
  intros H Hz. induction H as [|l ls Hl Hls IH]; cbn [flat_map app].
  - rewrite <- (app_nil_r z) at 1. rewrite (BytesProofs.bytes_split_lf_app z [] Hz).
    cbn. rewrite app_nil_r. reflexivity.
  - rewrite <- !app_assoc. cbn [app].
    rewrite (BytesProofs.bytes_split_lf_app l _ Hl). cbn [split_lf]. rewrite Ascii.eqb_refl.
    cbn [hd tl]. rewrite IH, app_nil_r. reflexivity.
Qed.

Lemma split_lf_last (s : bytes) :
  exists ls z, split_lf s = ls ++ [z] /\ Forall (fun l => ~ In LF l) ls /\ ~ In LF z.
Proof.
  destruct (exists_last (BytesProofs.bytes_split_lf_nonempty s)) as [ls [z E]].
  exists ls, z. pose proof (BytesProofs.bytes_split_lf_no_LF s) as F. rewrite E in F.
  apply Forall_app in F as [F1 F2]. inversion F2. repeat split; assumption.
Qed.

Lemma stream_lines_parts (ls : list bytes) (z : bytes) (s : bytes) :
  split_lf s = ls ++ [z] -> stream_lines s = ls ++ (match z with [] => [] | _ => [z] end).
Proof.
  intros E. unfold stream_lines. rewrite E, removelast_last, last_last. destruct z; reflexivity.
Qed.

Lemma flat_map_lines_map (g : bytes -> bytes) (ls : list bytes) :
  flat_map (fun l => g l ++ [LF]) ls = flat_map (fun l => l ++ [LF]) (map g ls).
Proof. induction ls as [|l ls IH]; cbn; [reflexivity|rewrite IH; reflexivity]. Qed.

(** [sed] with a per-line function that keeps lines free of newlines and
    non-empty lines non-empty: the lines of its output are the images of
    the lines of its input. *)
Lemma stream_lines_sed (g : bytes -> bytes) (s : bytes) :
  (forall l, ~ In LF l -> ~ In LF (g l)) -> (forall l, l <> [] -> g l <> []) ->
  stream_lines (sed_stream g s) = map g (stream_lines s).
Proof.
  intros Hg Hne. destruct (split_lf_last s) as [ls [z [E [F Fz]]]].
  rewrite (stream_lines_parts _ _ _ E). unfold sed_stream. rewrite E, removelast_last, last_last.
  rewrite flat_map_lines_map.
  assert (Fg : Forall (fun l => ~ In LF l) (map g ls)).
  { apply Forall_map. eapply Forall_impl; [|exact F]. intros l. apply Hg. }
  destruct z as [|c t].
  - rewrite (stream_lines_parts _ _ _ (split_lf_join _ [] Fg (fun H => H))), !app_nil_r.
    reflexivity.
  - rewrite (stream_lines_parts _ _ _ (split_lf_join _ _ Fg (Hg _ Fz))), map_app.
    cbn [map].
    destruct (g (c :: t)) as [|d u] eqn:G; [exact (False_rect _ (Hne (c :: t) ltac:(discriminate) G))|].
    reflexivity.
Qed.

Lemma LF_not_in_boxes : ~ In LF unchecked /\ ~ In LF checked.
Proof. split; apply no_LF_existsb; reflexivity. Qed.

Lemma checked_not_pending (x : bytes) : starts_with pending_box (checked ++ x) = false.
Proof. reflexivity. Qed.

Lemma unchecked_pending (x : bytes) : starts_with pending_box (unchecked ++ x) = true.
Proof. reflexivity. Qed.

Lemma mark_task_stream_lines (task file : bytes) : ~ In LF task ->
  exists file', mark_task_complete_markdown task file = Some file' /\
  stream_lines file' =
  map (fun line =>
         if starts_with (unchecked ++ task) line then
           checked ++ flat_map (fun c => if Ascii.eqb c "&"%char then unchecked ++ task else [c]) task ++
           skipn (6 + List.length task) line
         else line) (stream_lines file).
Proof.
  intros H. rewrite (mark_task_complete_markdown_lines task file H).
  eexists; split; [reflexivity|]. apply stream_lines_sed.
  - intros l Hl. destruct (starts_with (unchecked ++ task) l) eqn:S; [|exact Hl].
    assert (Ha : ~ In LF (flat_map (fun c => if Ascii.eqb c "&"%char then unchecked ++ task else [c]) task)).
    { intros Hin. apply in_flat_map in Hin as [c [Hc Hin]].
      destruct (Ascii.eqb c "&"%char).
      - apply in_app_or in Hin as [Hin|Hin]; [exact (proj1 LF_not_in_boxes Hin)|].
        exact (H Hin).
      - destruct Hin as [E|[]]. subst c. exact (H Hc). }
    intros Hin. apply in_app_or in Hin as [Hin|Hin]; [exact (proj2 LF_not_in_boxes Hin)|].
    apply in_app_or in Hin as [Hin|Hin]; [exact (Ha Hin)|].
    apply Hl. rewrite <- (firstn_skipn (6 + List.length task) l). apply in_or_app. right. exact Hin.
  - intros l Hl. destruct (starts_with (unchecked ++ task) l); [discriminate|exact Hl].
Qed.

Lemma count_marked_lines (task amp : bytes) (ls : list bytes) :
  List.length (filter (starts_with pending_box)
    (map (fun line => if starts_with (unchecked ++ task) line then
                        checked ++ amp ++ skipn (6 + List.length task) line else line) ls)) +
  List.length (filter (starts_with (unchecked ++ task)) ls) =
  List.length (filter (starts_with pending_box) ls).
Proof.
  induction ls as [|l ls IH]; [reflexivity|]. cbn [map filter].
  destruct (starts_with (unchecked ++ task) l) eqn:S.
  - rewrite checked_not_pending.
    rewrite (BytesProofs.bytes_starts_with_split _ _ S), <- app_assoc, unchecked_pending.
    cbn [List.length]. lia.
  - destruct (starts_with pending_box l); cbn [List.length]; lia.
Qed.

(** After [mark_task_complete_markdown] for a one-line task,
    [count_remaining_markdown] counts as many fewer lines as there were
    lines starting with ["- [ ] "] followed by the task text. *)
Theorem mark_task_complete_markdown_count (task file : bytes) : ~ In LF task ->
  exists file', mark_task_complete_markdown task file = Some file' /\
  List.length (grep_pending file') +
  List.length (filter (starts_with (unchecked ++ task)) (stream_lines file)) =
  List.length (grep_pending file).
Proof.
  intros H. destruct (mark_task_stream_lines task file H) as [file' [M L]].
  exists file'. split; [exact M|]. unfold grep_pending. rewrite L. apply count_marked_lines.
Qed.

Lemma stream_lines_no_LF (s l : bytes) : In l (stream_lines s) -> ~ In LF l.
Proof.
  destruct (split_lf_last s) as [ls [z [E [F Fz]]]]. rewrite (stream_lines_parts _ _ _ E).
  intros Hin. apply in_app_or in Hin as [Hin|Hin].
  - exact (proj1 (Forall_forall _ _) F l Hin).
  - destruct z; [destruct Hin|]. destruct Hin as [<-|[]]. exact Fz.
Qed.

Lemma starts_with_refl (p : bytes) : starts_with p p = true.
Proof. induction p as [|c p IH]; [reflexivity|]. cbn. rewrite Ascii.eqb_refl. exact IH. Qed.

Lemma starts_with_longer (p s : bytes) : List.length s < List.length p -> starts_with p s = false.
Proof.
  revert s. induction p as [|c p IH]; intros s H; [cbn in H; lia|].
  destruct s as [|d s]; [reflexivity|]. cbn in H |- *. rewrite IH by lia. apply andb_false_r.
Qed.

(** In parallel mode, a line that [grep] counts as pending gives the task
    [strip_unchecked] of it.  When the line starts with ["- [ ] "],
    marking that task complete lowers the pending count; when it does not
    (["- [ ]"] followed by another byte, or nothing), the task is listed
    but the line is still in the file after marking it complete. *)
Theorem parallel_task_marking (file l : bytes) :
  In l (stream_lines file) -> starts_with pending_box l = true -> strip_unchecked l <> [] ->
  In (strip_unchecked l) (parallel_tasks_markdown file) /\
  exists file', mark_task_complete_markdown (strip_unchecked l) file = Some file' /\
  (starts_with unchecked l = true -> List.length (grep_pending file') < List.length (grep_pending file)) /\
  (starts_with unchecked l = false -> In l (stream_lines file')).
Proof.
  intros Hin Hp Hne.
  assert (Hl : ~ In LF l) by exact (stream_lines_no_LF _ _ Hin).
  split.
  - unfold parallel_tasks_markdown. apply filter_In. split.
    + apply in_map. unfold grep_pending. apply filter_In. split; assumption.
    + destruct (strip_unchecked l); [contradiction|reflexivity].
  - assert (Ht : ~ In LF (strip_unchecked l)).
    { unfold strip_unchecked. destruct (starts_with unchecked l); [|exact Hl].
      intros H. apply Hl. rewrite <- (firstn_skipn 6 l). apply in_or_app. right. exact H. }
    destruct (mark_task_stream_lines _ file Ht) as [file' [M L]].
    exists file'. split; [exact M|]. split.
    + intros Hu. pose proof (count_marked_lines (strip_unchecked l)
        (flat_map (fun c => if Ascii.eqb c "&"%char then unchecked ++ strip_unchecked l else [c])
           (strip_unchecked l)) (stream_lines file)) as C.
      unfold grep_pending. rewrite L.
      assert (P : 0 < List.length (filter (starts_with (unchecked ++ strip_unchecked l)) (stream_lines file))).
      { destruct (filter (starts_with (unchecked ++ strip_unchecked l)) (stream_lines file)) eqn:F;
          [|apply Nat.lt_0_succ]. exfalso.
        assert (I : In l (filter (starts_with (unchecked ++ strip_unchecked l)) (stream_lines file))).
        { apply filter_In. split; [exact Hin|]. unfold strip_unchecked. rewrite Hu.
          rewrite (BytesProofs.bytes_starts_with_split _ _ Hu) at 2. exact (starts_with_refl _). }
        rewrite F in I. destruct I. }
      unfold bytes in *. lia.
    + intros Hu. rewrite L. apply in_map_iff. exists l. split; [|exact Hin].
      unfold strip_unchecked. rewrite Hu, starts_with_longer; [reflexivity|].
      rewrite length_app. cbn. lia.
Qed.

Local Abbreviation title := (list_ascii_of_string "Add User Login (OAuth2) -- fast!") (only parsing).
Local Abbreviation amp_task := (list_ascii_of_string "R&D notes") (only parsing).
Local Abbreviation prd := (list_ascii_of_string "# PRD
- [ ] R&D notes
- [ ] R&D notes, part 2
- [x] done") (only parsing).

(** Witnesses. *)
Lemma slugify_shape_witness :
  ~ In LF title /\
  (Forall slug_char (slugify title) /\ Retry.contains dd (slugify title) = false /\
   hd_error (slugify title) <> Some "-"%char /\ List.length (slugify title) <= 50).
Proof.
  split; [apply no_LF_existsb; reflexivity|].
  apply (slugify_shape title). apply no_LF_existsb. reflexivity.
Defined.

Lemma mark_task_complete_markdown_lines_witness :
  ~ In LF amp_task /\
  mark_task_complete_markdown amp_task prd =
  Some (sed_stream (fun line =>
          if starts_with (unchecked ++ amp_task) line then
            checked ++ flat_map (fun c => if Ascii.eqb c "&"%char then unchecked ++ amp_task else [c]) amp_task ++
            skipn (6 + List.length amp_task) line
          else line) prd).
Proof.
  split; [apply no_LF_existsb; reflexivity|].
  apply (mark_task_complete_markdown_lines amp_task prd). apply no_LF_existsb. reflexivity.
Defined.

Lemma mark_task_complete_markdown_count_witness :
  ~ In LF amp_task /\
  exists file', mark_task_complete_markdown amp_task prd = Some file' /\
  List.length (grep_pending file') +
  List.length (filter (starts_with (unchecked ++ amp_task)) (stream_lines prd)) =
  List.length (grep_pending prd).
Proof.
  split; [apply no_LF_existsb; reflexivity|].
  apply (mark_task_complete_markdown_count amp_task prd). apply no_LF_existsb. reflexivity.
Defined.

Local Abbreviation prd2 := (list_ascii_of_string "- [ ] write docs
- [ ]ship it
") (only parsing).
Local Abbreviation glued := (list_ascii_of_string "- [ ]ship it") (only parsing).

Lemma parallel_task_marking_witness :
  (In glued (stream_lines prd2) /\ starts_with pending_box glued = true /\ strip_unchecked glued <> []) /\
  (In (strip_unchecked glued) (parallel_tasks_markdown prd2) /\
   exists file', mark_task_complete_markdown (strip_unchecked glued) prd2 = Some file' /\
   (starts_with unchecked glued = true -> List.length (grep_pending file') < List.length (grep_pending prd2)) /\
   (starts_with unchecked glued = false -> In glued (stream_lines file'))).
Proof.
  assert (H1 : In glued (stream_lines prd2)) by (vm_compute; right; left; reflexivity).
  assert (H2 : starts_with pending_box glued = true) by reflexivity.
  assert (H3 : strip_unchecked glued <> []) by (vm_compute; discriminate).
  split; [split; [exact H1|split; [exact H2|exact H3]]|].
  exact (parallel_task_marking prd2 glued H1 H2 H3).
Defined.

End ShellProofs.

Module LaunchProofs.
Import Launch.
Local Open Scope nat_scope.

Lemma launch_spec {T} (batch : list T) (it : nat) :
  map fst (fst (launch batch it)) = seq (it + 1) (List.length batch) /\
  map snd (fst (launch batch it)) = batch /\
  snd (launch batch it) = it + List.length batch.
Proof.
  revert it. induction batch as [|t rest IH]; intros it; cbn [launch].
  - cbn. repeat split. lia.
  - destruct (launch rest (it + 1)) as [agents it'] eqn:E.
    specialize (IH (it + 1)). rewrite E in IH. cbn in IH |- *. destruct IH as [I1 [I2 I3]].
    rewrite I1, I2. repeat split; [|lia]. f_equal. f_equal. lia.
Qed.

Lemma launch_length {T} (batch : list T) (it : nat) :
  List.length (fst (launch batch it)) = List.length batch.
Proof.
  destruct (launch_spec batch it) as [_ [H _]].
  rewrite <- H at 2. rewrite length_map. reflexivity.
Qed.

Section Numbers.
Variables MAX_PARALLEL MAX_ITERATIONS : nat.

Lemma group_loop_numbers {T} (fuel : nat) (tasks : list T) : forall bs it,
  let r := group_loop MAX_PARALLEL MAX_ITERATIONS fuel tasks bs it in
  map fst (fst r) = seq (it + 1) (List.length (fst r)) /\ snd r = it + List.length (fst r).
Proof.
  induction fuel as [|fuel IH]; intros bs it; cbn [group_loop].
  - cbn. split; [reflexivity|lia].
  - destruct (bs <? List.length tasks); [|cbn; split; [reflexivity|lia]].
    set (batch := firstn _ _).
    destruct (launch batch it) as [agents it1] eqn:L.
    pose proof (launch_spec batch it) as [S1 [_ S3]]. rewrite L in S1, S3. cbn in S1, S3.
    assert (La : List.length agents = List.length batch).
    { rewrite <- (length_map fst), S1, length_seq. reflexivity. }
    destruct (_ && _).
    + cbn. split; [rewrite S1, La; reflexivity|lia].
    + destruct (group_loop MAX_PARALLEL MAX_ITERATIONS fuel tasks (Nat.min (bs + MAX_PARALLEL) (List.length tasks)) it1)
        as [rest it2] eqn:G.
      specialize (IH (Nat.min (bs + MAX_PARALLEL) (List.length tasks)) it1).
      rewrite G in IH. cbn in IH |- *. destruct IH as [I1 I2].
      rewrite map_app, S1, I1, length_app, seq_app. split; [|lia].
      rewrite La. f_equal. f_equal. lia.
Qed.

Lemma groups_loop_numbers {T} (groups : list (list T)) : forall it,
  let r := groups_loop MAX_PARALLEL MAX_ITERATIONS groups it in
  map fst (fst r) = seq (it + 1) (List.length (fst r)) /\ snd r = it + List.length (fst r).
Proof.
  induction groups as [|g gs IH]; intros it; [cbn; split; [reflexivity|lia]|].
  destruct g as [|t ts]; [apply IH|]. cbn [groups_loop].
  destruct (group_loop MAX_PARALLEL MAX_ITERATIONS _ (t :: ts) 0 it) as [agents it1] eqn:G.
  pose proof (group_loop_numbers (S (List.length (t :: ts))) (t :: ts) 0 it) as [G1 G2].
  rewrite G in G1, G2. cbn in G1, G2.
  destruct (_ && _); [cbn; split; assumption|].
  destruct (groups_loop MAX_PARALLEL MAX_ITERATIONS gs it1) as [rest it2] eqn:R.
  specialize (IH it1). rewrite R in IH. cbn in IH |- *. destruct IH as [I1 I2].
  rewrite map_app, G1, I1, length_app, seq_app. split; [|lia].
  f_equal. f_equal. lia.
Qed.

End Numbers.

Lemma NoDup_map_key {A B C} (g : A * B -> C) (l : list (A * B)) :
  NoDup (map fst l) -> (forall a b, g a = g b -> fst a = fst b) -> NoDup (map g l).
Proof.
  intros H K. induction l as [|a l IH]; cbn in *; constructor.
  - inversion H as [|? ? Hn Hd]; subst. intros Hin. apply in_map_iff in Hin as [b [Hb Hin]].
    apply Hn. rewrite (K a b (eq_sym Hb)). apply in_map. exact Hin.
  - inversion H; subst. apply IH. assumption.
Qed.

Lemma group_loop_all {T} (MP : nat) (tasks : list T) (fuel : nat) : forall bs it,
  0 < MP -> List.length tasks - bs < fuel ->
  map snd (fst (group_loop MP 0 fuel tasks bs it)) = skipn bs tasks.
Proof.
  induction fuel as [|fuel IH]; intros bs it Hp Hf; [lia|]. cbn [group_loop].
  destruct (bs <? List.length tasks) eqn:B.
  - apply Nat.ltb_lt in B. set (be := Nat.min (bs + MP) (List.length tasks)).
    destruct (launch _ it) as [agents it1] eqn:L.
    pose proof (launch_spec (firstn (be - bs) (skipn bs tasks)) it) as [_ [S2 _]].
    rewrite L in S2. cbn in S2. cbn [Nat.ltb Nat.leb andb].
    destruct (group_loop MP 0 fuel tasks be it1) as [rest it2] eqn:G.
    assert (IH' := IH be it1 Hp ltac:(unfold be; lia)). rewrite G in IH'. cbn in IH' |- *.
    rewrite map_app, S2, IH'.
    replace be with ((be - bs) + bs) at 2 by (unfold be; lia).
    rewrite <- skipn_skipn. apply firstn_skipn.
  - apply Nat.ltb_ge in B. rewrite skipn_all2 by exact B. reflexivity.
Qed.

Lemma group_loop_bound {T} (MP MI : nat) (tasks : list T) (fuel : nat) : forall bs it,
  0 < MI ->
  snd (group_loop MP MI fuel tasks bs it) <= Nat.max it (MI - 1) + MP.
Proof.
  induction fuel as [|fuel IH]; intros bs it Hi; cbn [group_loop]; [cbn; lia|].
  destruct (bs <? List.length tasks); [|cbn; lia].
  set (be := Nat.min (bs + MP) (List.length tasks)).
  destruct (launch (firstn (be - bs) (skipn bs tasks)) it) as [agents it1] eqn:L.
  pose proof (launch_spec (firstn (be - bs) (skipn bs tasks)) it) as [_ [_ S3]].
  rewrite L in S3. cbn in S3. rewrite length_firstn in S3.
  assert (Hb : it1 <= it + MP) by (unfold be in S3; lia).
  destruct ((0 <? MI) && (MI <=? it1)) eqn:C; [cbn; lia|].
  assert (Hc : it1 < MI).
  { apply andb_false_iff in C as [C|C]; apply Nat.ltb_ge in C || apply Nat.leb_gt in C; lia. }
  destruct (group_loop MP MI fuel tasks be it1) as [rest it2] eqn:G.
  specialize (IH be it1 Hi). rewrite G in IH. cbn in IH |- *. lia.
Qed.

(** In one run of the parallel loop, the agents are numbered
    [iteration + 1], [iteration + 2], ... in launch order, so no two of them
    get the same branch name or the same worktree directory from
    [create_agent_worktree], whatever their task titles. *)
Theorem parallel_agents_distinct_names (MP MI : nat) (groups : list (list Shell.bytes))
    (it : nat) (WORKTREE_BASE : Shell.bytes) :
  let agents := fst (groups_loop MP MI groups it) in
  map fst agents = seq (it + 1) (List.length agents) /\
  NoDup (map (fun a => Shell.agent_branch_name (snd a) (fst a)) agents) /\
  NoDup (map (fun a => Shell.agent_worktree_dir WORKTREE_BASE (fst a)) agents).
Proof.
  cbv zeta. destruct (groups_loop_numbers MP MI groups it) as [N _].
  assert (D : NoDup (map fst (fst (groups_loop MP MI groups it)))) by (rewrite N; apply seq_NoDup).
  repeat split; [exact N| |].
  - apply NoDup_map_key; [exact D|]. intros a b. apply ShellProofs.agent_branch_name_num.
  - apply NoDup_map_key; [exact D|]. intros a b. apply ShellProofs.agent_worktree_dir_num.
Qed.

(** Without an iteration limit ([MAX_ITERATIONS = 0]) and with at least
    one agent per batch, the parallel loop starts one agent for every task
    of every group, in order. *)
Theorem parallel_unlimited_runs_all {T} (MP : nat) (groups : list (list T)) (it : nat) :
  0 < MP -> map snd (fst (groups_loop MP 0 groups it)) = List.concat groups.
Proof.
  intros Hp. revert it. induction groups as [|g gs IH]; intros it; [reflexivity|].
  destruct g as [|t ts]; [apply IH|]. cbn [groups_loop List.concat].
  destruct (group_loop MP 0 _ (t :: ts) 0 it) as [agents it1] eqn:G.
  pose proof (group_loop_all MP (t :: ts) (S (List.length (t :: ts))) 0 it Hp ltac:(lia)) as A.
  rewrite G in A. cbn in A. cbn [Nat.ltb Nat.leb andb].
  destruct (groups_loop MP 0 gs it1) as [rest it2] eqn:R.
  specialize (IH it1). rewrite R in IH. cbn in IH |- *.
  rewrite map_app, A, IH. reflexivity.
Qed.

Lemma groups_loop_bound {T} (MP MI : nat) (groups : list (list T)) : forall it,
  0 < MI -> snd (groups_loop MP MI groups it) <= Nat.max it (MI - 1) + MP.
Proof.
  induction groups as [|g gs IH]; intros it Hi; [cbn; lia|].
  destruct g as [|t ts]; [apply IH; exact Hi|]. cbn [groups_loop].
  destruct (group_loop MP MI _ (t :: ts) 0 it) as [agents it1] eqn:G.
  pose proof (group_loop_bound MP MI (t :: ts) (S (List.length (t :: ts))) 0 it Hi) as B.
  rewrite G in B. cbn in B.
  destruct ((0 <? MI) && (MI <=? it1)) eqn:C; [cbn; lia|].
  assert (Hc : it1 < MI).
  { apply andb_false_iff in C as [C|C]; apply Nat.ltb_ge in C || apply Nat.leb_gt in C; lia. }
  destruct (groups_loop MP MI gs it1) as [rest it2] eqn:R.
  specialize (IH it1 Hi). rewrite R in IH. cbn in IH |- *. lia.
Qed.

(** With [MAX_ITERATIONS > 0], the parallel loop over all groups stops
    starting agents once [iteration] reaches the limit (the [break] after
    a batch leaves the group, the [break] after a group leaves the loop of
    the groups), but finishes the batch it is in: it ends at most
    [MAX_PARALLEL] past [max iteration (MAX_ITERATIONS - 1)]. *)
Theorem parallel_groups_bound {T} (MP MI : nat) (groups : list (list T)) (it : nat) :
  0 < MI ->
  it + List.length (fst (groups_loop MP MI groups it)) <= Nat.max it (MI - 1) + MP.
Proof.
  intros Hi. pose proof (groups_loop_numbers MP MI groups it) as [_ N]. cbn zeta in N.
  rewrite <- N. apply groups_loop_bound. exact Hi.
Qed.

(** With one group (the markdown and GitHub task sources) and
    [MAX_ITERATIONS > 0], the parallel loop stops starting agents once
    [iteration] reaches the limit, but finishes the batch it is in: it
    ends at most [MAX_PARALLEL] past [max iteration (MAX_ITERATIONS - 1)]. *)
Theorem parallel_single_group_bound {T} (MP MI : nat) (tasks : list T) (it : nat) :
  0 < MI ->
  it + List.length (fst (groups_loop MP MI [tasks] it)) <= Nat.max it (MI - 1) + MP.
Proof.
  intros Hi. pose proof (groups_loop_numbers MP MI [tasks] it) as [_ N]. cbn zeta in N.
  rewrite <- N. destruct tasks as [|t ts]; [cbn; lia|].
  cbn [groups_loop]. destruct (group_loop MP MI _ (t :: ts) 0 it) as [agents it1] eqn:G.
  pose proof (group_loop_bound MP MI (t :: ts) (S (List.length (t :: ts))) 0 it Hi) as B.
  rewrite G in B. cbn in B |- *. destruct (_ && _); cbn; lia.
Qed.

Lemma map_seq_shift (a n : nat) :
  map (fun j => a + j + 1) (seq 0 n) = seq (a + 1) n.
Proof.
  revert a. induction n as [|n IH]; intros a; [reflexivity|].
  cbn [seq map]. rewrite <- seq_shift, map_map.
  replace (a + 0 + 1) with (a + 1) by lia.
  replace (S (a + 1)) with (S a + 1) by lia. f_equal.
  rewrite <- (IH (S a)). apply map_ext. intros j. lia.
Qed.

(** The "Batch Results" loop numbers the [j]-th agent of a batch
    [iteration - batch_size + j + 1] after the batch has been launched:
    every agent is reported under the number it was started with. *)
Theorem batch_results_agent_nums {T} (batch : list T) (it : nat) :
  result_agent_nums (List.length batch) (snd (launch batch it)) = map fst (fst (launch batch it)).
Proof.
  destruct (launch_spec batch it) as [S1 [_ S3]]. rewrite S1, S3.
  unfold result_agent_nums. replace (it + List.length batch - List.length batch) with it by lia.
  apply map_seq_shift.
Qed.

Local Abbreviation three_groups := [["a"%char; "b"%char; "c"%char]; []; ["d"%char; "e"%char]] (only parsing).

(** Witnesses. *)
Lemma parallel_unlimited_runs_all_witness :
  0 < 2 /\ map snd (fst (groups_loop 2 0 three_groups 0)) = List.concat three_groups.
Proof. split; [lia|]. apply (parallel_unlimited_runs_all 2 three_groups 0). lia. Defined.

Lemma parallel_groups_bound_witness :
  0 < 3 /\
  0 + List.length (fst (groups_loop 2 3 three_groups 0)) <= Nat.max 0 (3 - 1) + 2.
Proof. split; [lia|]. apply (parallel_groups_bound 2 3 three_groups 0). lia. Defined.

Lemma parallel_single_group_bound_witness :
  0 < 3 /\
  0 + List.length (fst (groups_loop 2 3 [["a"%char; "b"%char; "c"%char; "d"%char; "e"%char]] 0)) <=
  Nat.max 0 (3 - 1) + 2.
Proof. split; [lia|]. apply (parallel_single_group_bound 2 3 _ 0). lia. Defined.

End LaunchProofs.

Module AgentExtraProofs.
Import Agent.
Local Open Scope string_scope.

Lemma backend_loop_find (MAX_RETRIES : Z) (env : agent_env) (fuel : nat) : forall n,
  (n + fuel)%nat = Z.to_nat MAX_RETRIES ->
  backend_loop MAX_RETRIES env fuel (Z.of_nat n) =
  find (fun result => negb (String.eqb result "") && check_for_errors result)
       (map (fun j => nth j (responses env) "") (seq n fuel)).
Proof.
  induction fuel as [|fuel IH]; intros n Hn; [reflexivity|].
  cbn [backend_loop seq map find].
  replace (Z.of_nat n <? MAX_RETRIES)%Z with true by (symmetry; apply Z.ltb_lt; lia).
  rewrite Nat2Z.id.
  replace (Z.of_nat n + 1)%Z with (Z.of_nat (S n)) by lia.
  rewrite (IH (S n)) by lia.
  destruct (String.eqb (nth n (responses env) "") ""); cbn [negb andb]; [reflexivity|].
  destruct (check_for_errors (nth n (responses env) "")); reflexivity.
Qed.

(** The backend retry loop of [run_parallel_agent] returns the first of
    the first [MAX_RETRIES] responses that is non-empty and holds no
    error event, and fails when there is none. *)
Theorem run_backend_first_good (MAX_RETRIES : Z) (env : agent_env) :
  run_backend MAX_RETRIES env =
  find (fun result => negb (String.eqb result "") && check_for_errors result)
       (map (fun j => nth j (responses env) "") (seq 0 (Z.to_nat MAX_RETRIES))).
Proof. apply (backend_loop_find MAX_RETRIES env (Z.to_nat MAX_RETRIES) 0). reflexivity. Qed.

(** What the "Batch Results" loop does with an agent of
    [run_parallel_agent]: it marks the task complete, adds the agent's
    token counts and records its branch (when not empty) exactly when the
    worktree was created, the backend loop succeeded and the commit count
    is not 0; otherwise it does none of these. *)
Theorem collect_run_parallel_agent (MAX_RETRIES : Z) (env : agent_env) :
  let r := run_parallel_agent MAX_RETRIES env in
  collect_job (final_status r) (output r) =
  if worktree_created env &&
     (match run_backend MAX_RETRIES env with Some _ => true | None => false end) &&
     negb (numeric_or_zero (rev_list_out env) =? 0)%Z
  then {| marked_complete := true;
          tokens_added := (numeric_or_zero (fst (parsed_tokens env)),
                           numeric_or_zero (snd (parsed_tokens env)));
          recorded_branch := if String.eqb (branch_name env) "" then None
                             else Some (branch_name env) |}
  else {| marked_complete := false; tokens_added := (0, 0)%Z; recorded_branch := None |}.
Proof.
  cbv zeta. unfold run_parallel_agent.
  destruct (worktree_created env); [|reflexivity]. cbn [negb andb].
  destruct (run_backend MAX_RETRIES env); [|reflexivity].
  destruct (numeric_or_zero (rev_list_out env) =? 0)%Z; reflexivity.
Qed.

End AgentExtraProofs.

Module MergeExtraProofs.
Import Git Merge.

(** The integration step after a group leaves ORIGINAL_BASE_BRANCH alone
    and either keeps the run state as it was, or moves BASE_BRANCH to the
    group's integration branch and appends that branch to the list of
    integration branches; it never changes the run state in another way. *)
Theorem integrate_group_state (cf : list string -> list string -> list string)
    (prd_yaml : bool) (ngroups : nat) (group : string) (group_completed : list string)
    (st : run_state) (r : repo) :
  let st' := fst (integrate_group cf prd_yaml ngroups group group_completed st r) in
  ORIGINAL_BASE_BRANCH st' = ORIGINAL_BASE_BRANCH st /\
  (st' = st \/
   (BASE_BRANCH st' = integration_branch_name group /\
    integration_branches st' = integration_branches st ++ [integration_branch_name group])).
Proof.
  cbv zeta. unfold integrate_group.
  destruct (_ && _ && _); [|split; [reflexivity | left; reflexivity]].
  destruct (git_branch _ _ r) as [ok r1].
  destruct ok; [|split; [reflexivity | left; reflexivity]].
  destruct (git_checkout _ r1) as [ok2 r2].
  destruct ok2; [|split; [reflexivity | left; reflexivity]].
  destruct (merge_members cf _ r2) as [mf r3].
  destruct mf; cbn; [split; [reflexivity | left; reflexivity]|].
  split; [reflexivity | right; split; reflexivity].
Qed.

(** The integration step does nothing, to the run state nor to the
    repository, for a group without completed branches, for a markdown or
    GitHub task source, or when there is only one group. *)
Theorem integrate_group_skipped (cf : list string -> list string -> list string)
    (prd_yaml : bool) (ngroups : nat) (group : string) (group_completed : list string)
    (st : run_state) (r : repo) :
  (prd_yaml = false \/ group_completed = [] \/ (ngroups <= 1)%nat) ->
  integrate_group cf prd_yaml ngroups group group_completed st r = (st, r).
Proof.
  intros H. unfold integrate_group.
  replace (prd_yaml && negb (match group_completed with [] => true | _ => false end)
           && (1 <? ngroups)%nat) with false; [reflexivity|].
  destruct H as [->|[->|H]]; [reflexivity|rewrite andb_false_r; reflexivity|].
  apply Nat.ltb_ge in H. rewrite H, andb_false_r. reflexivity.
Qed.

(** Witness. *)
Lemma integrate_group_skipped_witness :
  let cf := fun th sh : list string => @nil string in
  let r := {| refs := [("main"%string, ["m"%string]); ("b1"%string, ["m"; "a"]%string)];
              head := Some "main"%string; merging := None; log := [] |} in
  let st := {| BASE_BRANCH := "main"; ORIGINAL_BASE_BRANCH := "main"; integration_branches := [] |} in
  (true = false \/ ["b1"%string] = [] \/ (1 <= 1)%nat) /\
  integrate_group cf true 1 "1" ["b1"%string] st r = (st, r).
Proof.
  intros cf r st. split; [right; right; lia|].
  apply (integrate_group_skipped cf true 1 "1" ["b1"%string] st r). right; right; lia.
Defined.

End MergeExtraProofs.
